(** * mpisppy.utils.sputils: hub-and-spoke topology, orchestration and
      scenario-tree rank partitioning

    A shallow embedding of [src/mpisppy/utils/sputils.py] and the proofs of
    its specified properties.

    - Python integers are [Z]; [//] and [%] are [Z.div] and [Z.modulo]
      (both round towards minus infinity, as Python does).
    - Python floats are IEEE-754 binary64 values, represented by the
      Standard Library's [spec_float] with [prec = 53] and [emax = 1024].
    - Python dictionaries are [gmap]s; the dictionaries handed to
      [spin_the_wheel] are mutated in place by the source, so they live in
      a store of dictionary objects addressed by references.
    - Raised exceptions are values of [exn]; a computation that can raise
      returns a [result]. *)

From stdpp Require Import base strings list gmap pretty sorting.
From Stdlib Require Import ZArith Lia Ascii Floats.SpecFloat.

Set Warnings "-register-all,-clear-no-such-hyp".
Open Scope Z_scope.

(* ================================================================== *)
(** * Part I: definitions *)
(* ================================================================== *)

(** ** Exceptions and results *)

Inductive exn :=
  | RuntimeError (msg : string)
  | AssertionError
  | AttributeError (attr : string)
  | KeyError (key : string)
  | IndexError
  | ZeroDivisionError
  | OverflowError
  | ValueError
  | TypeError
  | RecursionError.

Inductive result (A : Type) :=
  | Ok (a : A)
  | Raise (e : exn).
Arguments Ok {A} a.
Arguments Raise {A} e.

#[global] Instance result_ret : MRet result := λ A a, Ok a.
#[global] Instance result_bind : MBind result := λ A B f m,
  match m with
  | Ok a => f a
  | Raise e => Raise e
  end.

Definition returns {A} (r : result A) : Prop := ∃ a, r = Ok a.
Definition raises {A} (r : result A) : Prop := ∃ e, r = Raise e.

(** ** Python built-ins used by the source *)

(** [str(i)] for an integer. *)
Definition str (i : Z) : string := pretty i.

(** [len(l)] *)
Definition len {A} (l : list A) : Z := Z.of_nat (length l).

(** [range(start, stop)]: the integers [start, start+1, ..., stop-1]. *)
Record range := Range { start : Z; stop : Z }.

Definition range_len (r : range) : Z := Z.max 0 (stop r - start r).
Definition range_list (r : range) : list Z := seqZ (start r) (stop r - start r).
Definition in_range (x : Z) (r : range) : Prop := start r <= x < stop r.

(** [range(n)] as the list that a [for] loop or a comprehension walks. *)
Definition range0 (n : Z) : list Z := seqZ 0 n.

(** [l[i]] on a list: a negative index counts from the end, an index
    outside the list raises [IndexError]. *)
Definition getitem {A} (l : list A) (i : Z) : result A :=
  let j := if i <? 0 then i + len l else i in
  if j <? 0 then Raise IndexError
  else match l !! Z.to_nat j with
       | Some x => Ok x
       | None => Raise IndexError
       end.

(** [r[k]] on a range. *)
Definition range_getitem (r : range) (k : Z) : result Z :=
  let j := if k <? 0 then k + range_len r else k in
  if (0 <=? j) && (j <? range_len r) then Ok (start r + j) else Raise IndexError.

(** [enumerate(l)] *)
Definition enumerate {A} (l : list A) : list (Z * A) :=
  zip (range0 (len l)) l.

(** *** Floats *)

Definition prec : Z := 53.
Definition emax : Z := 1024.

Definition float := spec_float.

(** [float(i)]: the nearest binary64 value, ties to even; an integer too
    large for a float raises [OverflowError]. *)
Definition float_of_int (i : Z) : result float :=
  match binary_normalize prec emax i 0 false with
  | S754_infinity _ => Raise OverflowError
  | f => Ok f
  end.

(** [a / b] on two integers (true division): the correctly rounded
    quotient of the exact integers. *)
Definition int_as_float (s : bool) (p : positive) : float := S754_finite s p 0.

Definition truediv (a b : Z) : result float :=
  match b with
  | Z0 => Raise ZeroDivisionError
  | _ =>
    let q :=
      match a, b with
      | Z0, _ => S754_zero (b <? 0)
      | Zpos p, Zpos q => SFdiv prec emax (int_as_float false p) (int_as_float false q)
      | Zpos p, Zneg q => SFdiv prec emax (int_as_float false p) (int_as_float true q)
      | Zneg p, Zpos q => SFdiv prec emax (int_as_float true p) (int_as_float false q)
      | Zneg p, Zneg q => SFdiv prec emax (int_as_float true p) (int_as_float true q)
      | _, Z0 => S754_nan
      end in
    match q with
    | S754_infinity _ => Raise OverflowError
    | _ => Ok q
    end
  end.

(** [i * x] for an integer [i] and a float [x]: [i] is converted first. *)
Definition int_mul_float (i : Z) (x : float) : result float :=
  fi ← float_of_int i; Ok (SFmul prec emax fi x).

(** [int(x)]: truncation towards zero. *)
Definition int_of_float (x : float) : result Z :=
  match x with
  | S754_zero _ => Ok 0
  | S754_finite s m e =>
      Ok (cond_Zopp s (if 0 <=? e then Z.shiftl (Zpos m) e
                       else Z.shiftr (Zpos m) (- e)))
  | S754_infinity _ => Raise OverflowError
  | S754_nan => Raise ValueError
  end.

(** [x < i] for a float [x] and a small integer [i]. *)
Definition float_lt_int (x : float) (i : Z) : bool :=
  SFltb x (binary_normalize prec emax i 0 false).

(** The expression [int(i * avg)] that all slicing code of the source uses. *)
Definition int_scaled (i : Z) (avg : float) : result Z :=
  x ← int_mul_float i avg; int_of_float x.

(** [[range(int(i*avg), int((i+1)*avg)) for i in range(n)]], shifted by
    [offset] (0 everywhere except in [masterslices]). *)
Definition slice_at (offset : Z) (avg : float) (i : Z) : result range :=
  lo ← int_scaled i avg;
  hi ← int_scaled (i + 1) avg;
  Ok (Range (offset + lo) (offset + hi)).

Definition make_slices (offset : Z) (avg : float) (n : Z) : result (list range) :=
  mapM (slice_at offset avg) (range0 n).

(** ** MPI communicators

    [mpi4py] is not part of the repository.  A communicator is modelled by
    the ordered list of its member processes, each named by its rank in
    the communicator the whole system was started with ([fullcomm]), and
    by the calling process.  [Get_rank] is the position of the caller. *)

Record Comm := mkComm { members : list Z; me : Z }.

#[global] Instance Comm_eq_dec : EqDecision Comm.
Proof. solve_decision. Defined.

(** The communicator of [n] processes, seen from process [r]. *)
Definition COMM (n r : Z) : Comm := mkComm (seqZ 0 n) r.

Definition Get_size (c : Comm) : Z := len (members c).

Fixpoint index_of (x : Z) (l : list Z) : Z :=
  match l with
  | [] => 0
  | y :: l' => if x =? y then 0 else 1 + index_of x l'
  end.

Definition Get_rank (c : Comm) : Z := index_of (me c) (members c).

(** [MPI_Comm_split]: the processes that pass the same colour form one new
    communicator, ranked by key, ties broken by the rank in the old one.
    The program is SPMD, so the colour and key that every process passes
    are the same functions of that process' rank.  The source splits
    [fullcomm] only, whose members are named by their own ranks. *)
Fixpoint insert_by (key : Z → Z) (x : Z) (l : list Z) : list Z :=
  match l with
  | [] => [x]
  | y :: l' => if key x <=? key y then x :: l else y :: insert_by key x l'
  end.

Definition sort_by (key : Z → Z) (l : list Z) : list Z :=
  foldr (insert_by key) [] l.

Definition Split (c : Comm) (color key : Z → Z) : Comm :=
  mkComm
    (sort_by key (filter (λ p, color p = color (me c)) (members c)))
    (me c).

(** ** The store of dictionary objects and the log of external calls

    [spin_the_wheel] receives dictionaries by reference and writes into
    them, so dictionary objects live in a store.  Calls that leave the
    module (communicator splits, constructors of the user-supplied
    classes, methods of the hub or spoke object, the barrier, the timer)
    are recorded, in order, in a log.  What is called there is not part of
    the repository: a call is taken to return and to leave the
    dictionaries as they are. *)

Definition loc := nat.

Inductive value :=
  | VDict (l : loc)          (* a reference to a dictionary object *)
  | VObj (id : string)       (* a class or any other opaque object *)
  | VComm (c : Comm).        (* a communicator handle *)

#[global] Instance value_eq_dec : EqDecision value.
Proof. solve_decision. Defined.

Abbreviation dict := (gmap string value).

(** The object [opt_class( **opt_kwargs )]. *)
Record OptObj := mkOpt { opt_class_of : value; opt_kwargs_of : dict }.

(** The object [sp_class(opt, fullcomm, intercomm, intracomm, ...)]; the
    hub also receives [list_of_spoke_dict]. *)
Record SPObj := mkSP {
  sp_class_of : value;
  sp_opt : OptObj;
  sp_fullcomm : Comm;
  sp_intercomm : Comm;
  sp_intracomm : Comm;
  sp_spokes : option (list loc);
  sp_kwargs_of : dict
}.

#[global] Instance OptObj_eq_dec : EqDecision OptObj.
Proof. solve_decision. Defined.
#[global] Instance SPObj_eq_dec : EqDecision SPObj.
Proof. solve_decision. Defined.

Inductive event :=
  | ESplit (key color : Z)           (* fullcomm.Split(key=.., color=..) *)
  | ENewOpt (o : OptObj)             (* opt_class( **opt_kwargs ) *)
  | ENewSP (s : SPObj)               (* sp_class(...) *)
  | ECall (method : string)          (* spcomm.method() *)
  | EBarrier                         (* fullcomm.Barrier() *)
  | EToc (msg : string).             (* tt_timer.toc(msg, delta=False) *)

#[global] Instance event_eq_dec : EqDecision event.
Proof. solve_decision. Defined.

Record state := mkState { heap : gmap loc dict; log : list event }.

Definition M (A : Type) : Type := state → result A * state.

#[global] Instance M_ret : MRet M := λ A a s, (Ok a, s).
#[global] Instance M_bind : MBind M := λ A B f m s,
  match m s with
  | (Ok a, s') => f a s'
  | (Raise e, s') => (Raise e, s')
  end.

Definition raise {A} (e : exn) : M A := λ s, (Raise e, s).
Definition emit (e : event) : M unit :=
  λ s, (Ok (), mkState (heap s) (log s ++ [e])).

(** [k in d] *)
Definition dict_contains (d : loc) (k : string) : M bool := λ s,
  match heap s !! d with
  | Some m => (Ok (bool_decide (is_Some (m !! k))), s)
  | None => (Raise TypeError, s)
  end.

(** [d[k]] *)
Definition dict_get (d : loc) (k : string) : M value := λ s,
  match heap s !! d with
  | Some m => match m !! k with
              | Some v => (Ok v, s)
              | None => (Raise (KeyError k), s)
              end
  | None => (Raise TypeError, s)
  end.

(** [d[k] = v] *)
Definition dict_set (d : loc) (k : string) (v : value) : M unit := λ s,
  match heap s !! d with
  | Some m => (Ok (), mkState (<[d := <[k := v]> m]> (heap s)) (log s))
  | None => (Raise TypeError, s)
  end.

(** [dict()] *)
Definition dict_new : M loc := λ s,
  let l := fresh (dom (heap s)) in
  (Ok l, mkState (<[l := ∅]> (heap s)) (log s)).

(** The keyword arguments that [ **v ] unpacks. *)
Definition unpack (v : value) : M dict := λ s,
  match v with
  | VDict l => match heap s !! l with
               | Some m => (Ok m, s)
               | None => (Raise TypeError, s)
               end
  | _ => (Raise TypeError, s)
  end.

(** [v[k] = x] where [v] is whatever object the dictionary held. *)
Definition setitem (v : value) (k : string) (x : value) : M unit :=
  match v with
  | VDict l => dict_set l k x
  | _ => raise TypeError
  end.

Definition lift {A} (r : result A) : M A := λ s, (r, s).

Definition when (b : bool) (m : M unit) : M unit :=
  if b then m else mret ().

(** [for x in l: body x] *)
Fixpoint for_each {A} (l : list A) (body : A → M unit) : M unit :=
  match l with
  | [] => mret ()
  | x :: l' => body x;; for_each l' body
  end.

(** ** make_comms *)

Definition need_multiple_msg (nsp1 n_proc : Z) : string :=
  "Need a multiple of " +:+ str nsp1 +:+ " processes (got " +:+ str n_proc +:+ ")".

(** [fullcomm.Split(key=k, color=c)] as this process performs it: the call
    is logged with the values this process passes. *)
Definition do_Split (fullcomm : Comm) (key color : Z → Z) : M Comm :=
  emit (ESplit (key (Get_rank fullcomm)) (color (Get_rank fullcomm)));;
  mret (Split fullcomm color key).

Section WithWorld.

(** [MPI.COMM_WORLD], the default of the [fullcomm] and [comm_world]
    arguments. *)
Variable COMM_WORLD : Comm.

Definition make_comms (n_spokes : Z) (fullcomm : option Comm) : M (Comm * Comm) :=
  let nsp1 := n_spokes + 1 in
  let fullcomm := default COMM_WORLD fullcomm in
  let n_proc := Get_size fullcomm in
  (* [n_proc % nsp1] *)
  (if nsp1 =? 0 then raise ZeroDivisionError else mret ());;
  (if negb (n_proc mod nsp1 =? 0)
   then raise (RuntimeError (need_multiple_msg nsp1 n_proc))
   else mret ());;
  intercomm ← do_Split fullcomm (λ rank_global, rank_global)
                                (λ rank_global, rank_global / nsp1);
  intracomm ← do_Split fullcomm (λ rank_global, rank_global)
                                (λ rank_global, rank_global mod nsp1);
  mret (intercomm, intracomm).

(** ** spin_the_wheel *)

Definition hub_class_msg : string :=
  "The hub_dict must contain a 'hub_class' key specifying the hub class to use".
Definition hub_opt_class_msg : string :=
  "The hub_dict must contain an 'opt_class' key specifying the SPBase class to use (e.g. PHBase, etc.)".
Definition spoke_class_msg : string :=
  "Each spoke_dict must contain a 'spoke_class' key specifying the spoke class to use".
Definition spoke_opt_class_msg : string :=
  "Each spoke_dict must contain an 'opt_class' key specifying the SPBase class to use (e.g. PHBase, etc.)".

(** [if k not in d: raise RuntimeError(msg)] *)
Definition require_key (d : loc) (k msg : string) : M unit :=
  b ← dict_contains d k;
  (if b : bool then mret () else raise (RuntimeError msg)) : M unit.

(** [if k not in d: d[k] = dict()] *)
Definition default_key (d : loc) (k : string) : M unit :=
  b ← dict_contains d k;
  (if b : bool then mret () else (l ← dict_new; dict_set d k (VDict l))) : M unit.

Definition check_spoke (spoke_dict : loc) : M unit :=
  require_key spoke_dict "spoke_class" spoke_class_msg;;
  require_key spoke_dict "opt_class" spoke_opt_class_msg;;
  default_key spoke_dict "spoke_kwargs";;
  default_key spoke_dict "opt_kwargs".

Definition check_dicts (hub_dict : loc) (list_of_spoke_dict : list loc) : M unit :=
  require_key hub_dict "hub_class" hub_class_msg;;
  require_key hub_dict "opt_class" hub_opt_class_msg;;
  default_key hub_dict "hub_kwargs";;
  default_key hub_dict "opt_kwargs";;
  for_each list_of_spoke_dict check_spoke.

(** Modelled from the spec: [tt_timer.toc] of the module [mpisppy.tt_timer],
    which is not among the sources.  It is an optional progress marker at
    a lifecycle point: the call is logged and returns. *)
Definition toc (msg : string) : M unit := emit (EToc msg).

(** Modelled from the spec: the methods of the hub or spoke object, an
    external collaborator that exposes the lifecycle operations
    [make_windows], [setup_hub], [main], [send_terminate], [finalize],
    [hub_finalize] and [free_windows].  A call is logged and returns. *)
Definition spcomm_call (method : string) : M unit := emit (ECall method).

(** [fullcomm.Barrier()] *)
Definition Barrier : M unit := emit EBarrier.

(** The lifecycle of the hub or spoke object, lines 100 to 122. *)
Definition run_lifecycle (rank_inter rank_global : Z) : M unit :=
  spcomm_call "make_windows";;
  when (rank_inter =? 0) (spcomm_call "setup_hub");;
  when (rank_global =? 0) (toc "Starting spcomm.main()");;
  spcomm_call "main";;
  when (rank_inter =? 0) (spcomm_call "send_terminate");;
  spcomm_call "finalize";;
  when (rank_global =? 0)
    (toc "Hub algorithm complete, waiting for termination barrier");;
  Barrier;;
  spcomm_call "hub_finalize";;
  spcomm_call "free_windows";;
  when (rank_global =? 0) (toc "Windows freed").

Definition spin_the_wheel (hub_dict : loc) (list_of_spoke_dict : list loc)
    (comm_world : option Comm) : M (SPObj * loc) :=
  check_dicts hub_dict list_of_spoke_dict;;
  let comm_world := default COMM_WORLD comm_world in
  let n_spokes := len list_of_spoke_dict in
  let fullcomm := comm_world in
  '(intercomm, intracomm) ← make_comms n_spokes (Some fullcomm);
  let rank_inter := Get_rank intercomm in
  let rank_intra := Get_rank intracomm in
  let rank_global := Get_rank fullcomm in
  '(sp_class, sp_kwargs, opt_class, opt_kwargs, opt_dict) ←
    (if rank_inter =? 0 then
       sp_class ← dict_get hub_dict "hub_class";
       sp_kwargs ← dict_get hub_dict "hub_kwargs";
       opt_class ← dict_get hub_dict "opt_class";
       opt_kwargs ← dict_get hub_dict "opt_kwargs";
       mret (sp_class, sp_kwargs, opt_class, opt_kwargs, hub_dict)
     else
       spoke_dict ← lift (getitem list_of_spoke_dict (rank_inter - 1));
       sp_class ← dict_get spoke_dict "spoke_class";
       sp_kwargs ← dict_get spoke_dict "spoke_kwargs";
       opt_class ← dict_get spoke_dict "opt_class";
       opt_kwargs ← dict_get spoke_dict "opt_kwargs";
       mret (sp_class, sp_kwargs, opt_class, opt_kwargs, spoke_dict));
  setitem opt_kwargs "mpicomm" (VComm intracomm);;
  kw ← unpack opt_kwargs;
  let opt := mkOpt opt_class kw in
  emit (ENewOpt opt);;
  skw ← unpack sp_kwargs;
  let spcomm :=
    if rank_inter =? 0
    then mkSP sp_class opt fullcomm intercomm intracomm (Some list_of_spoke_dict) skw
    else mkSP sp_class opt fullcomm intercomm intracomm None skw in
  emit (ENewSP spcomm);;
  run_lifecycle rank_inter rank_global;;
  mret (spcomm, opt_dict).

End WithWorld.

(** ** The scenario tree *)

(** [_TreeNode]: the fields that [__init__] sets. *)
Inductive _TreeNode := mkTreeNode {
  scenfirst : Z;
  scenlast : Z;
  name : string;
  stage : Z;
  kids : list _TreeNode
}.

(** [_TreeNode.__init__].  The constructor reads nothing of [Parent] but
    its stage, so [Parent] is [None] or the parent's stage.  The recursion
    of the source goes one level down per stage; [fuel] bounds its depth
    and [_ScenTree.__init__] supplies enough of it. *)
Fixpoint _TreeNode__init__ (fuel : nat) (Parent : option Z)
    (scenfirst scenlast : Z) (BFs : list Z) (name : string) : result _TreeNode :=
  match fuel with
  | O => Raise RecursionError
  | S fuel =>
    stage ← match Parent with
            | None => if decide (name = "ROOT") then Ok 0 else Raise AssertionError
            | Some parent_stage => Ok (parent_stage + 1)
            end;
    bf ← getitem BFs stage;
    kids ←
      (if stage <? len BFs - 1 then
         let numscens := scenlast - scenfirst + 1 in
         mapM (λ b,
                 let first := b * numscens / bf in
                 let last := (b + 1) * numscens / bf - 1 in
                 _TreeNode__init__ fuel (Some stage) first last BFs
                   (name +:+ "_" +:+ str b))
              (range0 bf)
       else Ok []);
    Ok (mkTreeNode scenfirst scenlast name stage kids)
  end.

Record _ScenTree := mkScenTree {
  ScenNames : list string;
  NumScens : Z;
  NumStages : Z;
  BFs : list Z;
  rootnode : _TreeNode;
  nonleaves : list _TreeNode;
  NonLeafTerminals : list _TreeNode
}.

(** The local function [_nonleaves] of [_ScenTree.__init__]. *)
Fixpoint _nonleaves (BFs : list Z) (nd : _TreeNode) : list _TreeNode :=
  match nd with
  | mkTreeNode _ _ _ stage kids =>
      nd :: (if stage <? len BFs - 1
             then flat_map (_nonleaves BFs) kids
             else [])
  end.

Definition assert (b : bool) : result unit :=
  if b then Ok () else Raise AssertionError.

Section WithProd.

(** [numpy.prod], applied to the list of branching factors. *)
Variable prod : list Z → Z.

Definition _ScenTree__init__ (BFs : list Z) (ScenNames : list string)
    : result _ScenTree :=
  let NumScens := len ScenNames in
  assert (NumScens =? prod BFs);;
  let NumStages := len BFs in
  assert (1 <? NumStages);;
  let first := 0 in
  let last := NumScens - 1 in
  rootnode ← _TreeNode__init__ (length BFs) None first last BFs "ROOT";
  let nonleaves := _nonleaves BFs rootnode in
  let NonLeafTerminals :=
    filter (λ nd, stage nd = len BFs - 1) nonleaves in
  Ok (mkScenTree ScenNames NumScens NumStages BFs rootnode nonleaves
        NonLeafTerminals).

End WithProd.

(** ** scen_names_to_ranks *)

Abbreviation rankmap := (gmap string (gmap string Z)).

Fixpoint foldM {A S} (f : S → A → result S) (s : S) (l : list A) : result S :=
  match l with
  | [] => Ok s
  | x :: l' => s' ← f s x; foldM f s' l'
  end.

(** [d[k]] on a dictionary with string keys. *)
Definition lookup_key {V} (d : gmap string V) (k : string) : result V :=
  match d !! k with
  | Some v => Ok v
  | None => Raise (KeyError k)
  end.

(** [retval[node][scen] = r] *)
Definition set_rank (retval : rankmap) (node scen : string) (r : Z) : result rankmap :=
  sub ← lookup_key retval node;
  Ok (<[node := <[scen := r]> sub]> retval).

(** [[self.ScenNames[s] for s in range(nd.scenfirst, nd.scenlast+1)]] *)
Definition scen_list (ScenNames : list string) (nd : _TreeNode) : result (list string) :=
  mapM (getitem ScenNames) (range_list (Range (scenfirst nd) (scenlast nd + 1))).

(** [{s: myrank for s in self.ScenNames}] *)
Definition all_to_rank (ScenNames : list string) (myrank : Z) : gmap string Z :=
  foldl (λ m s, <[s := myrank]> m) ∅ ScenNames.

(** The two assignments in the innermost loop of the terminal-node pass. *)
Definition assign_scen (nd : _TreeNode) (ndScenList : list string)
    (TermRanks_i : range) (k : Z) (retval : rankmap) (s : Z) : result rankmap :=
  r ← range_getitem TermRanks_i k;
  _ ← lookup_key retval (name nd);
  key ← getitem ndScenList s;
  retval ← set_rank retval (name nd) key r;
  r ← range_getitem TermRanks_i k;
  _ ← lookup_key retval "ROOT";
  key ← getitem ndScenList s;
  set_rank retval "ROOT" key r.

(** The body of [for i, nd in enumerate(TermNodes)]. *)
Definition assign_terminal (ScenNames : list string) (TermRanks : list range)
    (st : rankmap * list (list range)) (ind : Z * _TreeNode)
    : result (rankmap * list (list range)) :=
  let '(retval, masterslices) := st in
  let '(i, nd) := ind in
  let retval := <[name nd := ∅]> retval in
  let ndnumscens := scenlast nd - scenfirst nd + 1 in
  ndScenList ← scen_list ScenNames nd;
  TermRanks_i ← getitem TermRanks i;
  avg ← truediv ndnumscens (range_len TermRanks_i);
  slices ← make_slices 0 avg (range_len TermRanks_i);
  TermRanks_i ← getitem TermRanks i;
  ms ← make_slices (scenfirst nd) avg (range_len TermRanks_i);
  let masterslices := masterslices ++ [ms] in
  retval ← foldM (λ retval '(k, slist),
                    foldM (assign_scen nd ndScenList TermRanks_i k) retval
                          (range_list slist))
                 retval (enumerate slices);
  Ok (retval, masterslices).

(** The body of the last loop, [for nd in self.nonleaves].  [TermNodes] is
    the sub-list of [self.nonleaves] of the nodes at stage [len(BFs)-1] and
    Python compares node objects by identity, so for a node of
    [self.nonleaves] the test [nd not in TermNodes] is the test on its
    stage. *)
Definition assign_inner (BFs : list Z) (ScenNames : list string)
    (st : rankmap * gmap string Z) (nd : _TreeNode)
    : result (rankmap * gmap string Z) :=
  let '(retval, FirstRank) := st in
  if negb (stage nd =? len BFs - 1) && negb (String.eqb (name nd) "ROOT") then
    let retval := <[name nd := ∅]> retval in
    ndScenList ← scen_list ScenNames nd;
    retval ← foldM (λ retval s,
                      root ← lookup_key retval "ROOT";
                      r ← lookup_key root s;
                      set_rank retval (name nd) s r)
                   retval ndScenList;
    firstchild ← getitem (kids nd) 0;
    fr ← lookup_key FirstRank (name firstchild);
    Ok (retval, <[name nd := fr]> FirstRank)
  else Ok st.

Definition not_enough_msg (n_proc n_term : Z) : string :=
  str n_proc +:+ " processors in a cylinder is not enough for " +:+
  str n_term +:+ " terminal non-leaf nodes".

Definition scen_names_to_ranks (self : _ScenTree) (n_proc myrank : Z)
    : result (rankmap * option (list (list range)) * option (gmap string Z)) :=
  let retval : rankmap := ∅ in
  if n_proc =? 1 then
    let retval :=
      foldl (λ retval nd, <[name nd := all_to_rank (ScenNames self) myrank]> retval)
            retval (nonleaves self) in
    Ok (retval, None, None)
  else
    let TermNodes := NonLeafTerminals self in
    avg ← truediv n_proc (len TermNodes);
    (if float_lt_int avg 1
     then Raise (RuntimeError (not_enough_msg n_proc (len TermNodes)))
     else Ok ());;
    TermRanks ← make_slices 0 avg (len TermNodes);
    firsts ← mapM (λ '(i, nd), r ← int_scaled i avg; Ok (name nd, r))
                  (enumerate TermNodes);
    let FirstRank : gmap string Z :=
      foldl (λ m '(n, r), <[n := r]> m) ∅ firsts in
    let masterslices : list (list range) := [] in
    let FirstRank := <["ROOT" := 0]> FirstRank in
    let retval := <["ROOT" := ∅]> retval in
    '(retval, masterslices) ←
      foldM (assign_terminal (ScenNames self) TermRanks)
            (retval, masterslices) (enumerate TermNodes);
    '(retval, FirstRank) ←
      foldM (assign_inner (BFs self) (ScenNames self))
            (retval, FirstRank) (nonleaves self);
    Ok (retval, Some masterslices, Some FirstRank).

(** ** scens_to_ranks *)

(** The first component of what [scens_to_ranks] returns: a list of ranges
    in the two-stage case, whatever [slices] the tree method hands back
    otherwise. *)
Inductive slices_t :=
  | FlatSlices (l : list range)
  | TreeSlices (m : option (list (list range))).

Definition more_ranks_msg (n_proc scen_count : Z) : string :=
  "More MPI ranks (" +:+ str n_proc +:+
  ") supplied than needed given the number of scenarios (" +:+
  str scen_count +:+ ") ".

(** The names that an instance of [_ScenTree] binds to data. *)
Definition _ScenTree_fields : list string :=
  ["ScenNames"; "NumScens"; "NumStages"; "BFs"; "rootnode"; "nonleaves";
   "NonLeafTerminals"].

(** [tree.attr(n_proc, rank)]: attribute lookup on an instance of
    [_ScenTree], followed by the call.  The class defines [__init__] and
    [scen_names_to_ranks]; a field is not callable; any other name is not
    an attribute. *)
Definition call_method (tree : _ScenTree) (attr : string) (n_proc rank : Z)
    : result (rankmap * option (list (list range)) * option (gmap string Z)) :=
  if decide (attr = "scen_names_to_ranks") then scen_names_to_ranks tree n_proc rank
  else if decide (attr = "__init__") then Raise TypeError
  else if decide (attr ∈ _ScenTree_fields) then Raise TypeError
  else Raise (AttributeError attr).

(** [["ID"+str(i) for i in range(scen_count)]] *)
Definition ID_names (scen_count : Z) : list string :=
  (λ i, "ID" +:+ str i) <$> range0 scen_count.

Section WithProd2.

Variable prod : list Z → Z.

Definition scens_to_ranks (scen_count n_proc rank : Z) (BFs : option (list Z))
    : result (slices_t * option rankmap) :=
  (if scen_count <? n_proc
   then Raise (RuntimeError (more_ranks_msg n_proc scen_count))
   else Ok ());;
  match BFs with
  | None =>
      avg ← truediv scen_count n_proc;
      slices ← make_slices 0 avg n_proc;
      Ok (FlatSlices slices, None)
  | Some BFs =>
      let all_scenario_names := ID_names scen_count in
      tree ← _ScenTree__init__ prod BFs all_scenario_names;
      '(scenario_names_to_ranks, slices, _) ←
        call_method tree "scen_name_to_rank" n_proc rank;
      Ok (TreeSlices slices, Some scenario_names_to_ranks)
  end.

End WithProd2.

(** The product of a list of integers, which [numpy.prod] computes on
    branching factors of ordinary size. *)
Definition product (l : list Z) : Z := foldr Z.mul 1 l.

(** ** Notions used to state the properties *)

(** What [make_comms] hands to process [g] of a world of [W] processes. *)
Definition comms_of (n_spokes W g : Z) : result (Comm * Comm) :=
  (make_comms (COMM W g) n_spokes None (mkState ∅ [])).1.

(** The distinct communicators, as member lists, that the [W] processes
    obtain: [groups fst] are the cylinders, [groups snd] the role groups. *)
Definition groups (which : Comm * Comm → Comm) (n_spokes W : Z) : list (list Z) :=
  remove_dups
    (omap (λ g, match comms_of n_spokes W g with
                | Ok p => Some (members (which p))
                | Raise _ => None
                end)
          (seqZ 0 W)).

(** *** The store: what the validation may change *)

(** [d] is a dictionary object of the store; it binds, or does not bind,
    the key [k]. *)
Definition allocated (s : state) (d : loc) : Prop := is_Some (heap s !! d).

Definition has_key (s : state) (d : loc) (k : string) : Prop :=
  ∃ m, heap s !! d = Some m ∧ is_Some (m !! k).

Definition lacks_key (s : state) (d : loc) (k : string) : Prop :=
  ∃ m, heap s !! d = Some m ∧ m !! k = None.

(** The (dictionary, key) pairs that the validation of lines 30 to 60 may
    fill with an empty dictionary. *)
Definition targets (hub_dict : loc) (list_of_spoke_dict : list loc)
    : list (loc * string) :=
  [(hub_dict, "hub_kwargs"); (hub_dict, "opt_kwargs")] ++
  (list_of_spoke_dict ≫= λ d, [(d, "spoke_kwargs"); (d, "opt_kwargs")]).

(** [filled P s s']: from [s] to [s'] nothing was logged, and the store
    changed only in that keys of [P] that were missing were bound to new,
    empty dictionaries. *)
Record filled (P : list (loc * string)) (s s' : state) : Prop := {
  filled_log : log s' = log s;
  filled_old : ∀ d m, heap s !! d = Some m →
    ∃ m', heap s' !! d = Some m' ∧
      ∀ k, m' !! k = m !! k ∨
           (m !! k = None ∧ (d, k) ∈ P ∧
            ∃ l, m' !! k = Some (VDict l) ∧ heap s !! l = None ∧
                 heap s' !! l = Some ∅);
  filled_new : ∀ l, heap s !! l = None →
    heap s' !! l = None ∨ heap s' !! l = Some ∅
}.

(** A spoke dictionary with, or without, its two required keys. *)
Definition spoke_ok (s : state) (d : loc) : Prop :=
  has_key s d "spoke_class" ∧ has_key s d "opt_class".

Definition spoke_bad (s : state) (d : loc) : Prop :=
  lacks_key s d "spoke_class" ∨ lacks_key s d "opt_class".

Definition spoke_msgs : list string := [spoke_class_msg; spoke_opt_class_msg].

(** The configuration passes, or fails, the checks of lines 32 to 56. *)
Definition config_ok (s : state) (hub_dict : loc) (list_of_spoke_dict : list loc) : Prop :=
  has_key s hub_dict "hub_class" ∧ has_key s hub_dict "opt_class" ∧
  Forall (spoke_ok s) list_of_spoke_dict.

Definition config_bad (s : state) (hub_dict : loc) (list_of_spoke_dict : list loc) : Prop :=
  lacks_key s hub_dict "hub_class" ∨ lacks_key s hub_dict "opt_class" ∨
  Exists (λ d, lacks_key s d "spoke_class" ∨ lacks_key s d "opt_class")
         list_of_spoke_dict.

Definition config_msgs : list string :=
  [hub_class_msg; hub_opt_class_msg; spoke_class_msg; spoke_opt_class_msg].

(** The dictionaries handed over are dictionaries, and so is whatever
    they bind to the [..._kwargs] keys. *)
Definition kwargs_are_dicts (s : state) (d : loc) (k : string) : Prop :=
  ∀ m v, heap s !! d = Some m → m !! k = Some v → ∃ l, v = VDict l ∧ allocated s l.

Record well_typed (s : state) (hub_dict : loc) (list_of_spoke_dict : list loc)
    : Prop := {
  wt_hub : allocated s hub_dict;
  wt_spokes : Forall (allocated s) list_of_spoke_dict;
  wt_kwargs : ∀ d k, (d, k) ∈ targets hub_dict list_of_spoke_dict →
                     kwargs_are_dicts s d k
}.

(** The dictionary that configures the process at position [r] of its
    cylinder, and the keys of its class and of its keyword arguments. *)
Definition role_dict (hub_dict : loc) (list_of_spoke_dict : list loc) (r : Z)
    : option loc :=
  if r =? 0 then Some hub_dict else list_of_spoke_dict !! Z.to_nat (r - 1).

Definition class_key (r : Z) : string :=
  if r =? 0 then "hub_class" else "spoke_class".

Definition kwargs_key (r : Z) : string :=
  if r =? 0 then "hub_kwargs" else "spoke_kwargs".

(** *** The lifecycle and the system of all processes *)

(** The calls of lines 100 to 122, in order, for a process at position
    [rank_inter] of its cylinder and of rank [rank_global]. *)
Definition lifecycle_events (rank_inter rank_global : Z) : list event :=
  [ECall "make_windows"] ++
  (if rank_inter =? 0 then [ECall "setup_hub"] else []) ++
  (if rank_global =? 0 then [EToc "Starting spcomm.main()"] else []) ++
  [ECall "main"] ++
  (if rank_inter =? 0 then [ECall "send_terminate"] else []) ++
  [ECall "finalize"] ++
  (if rank_global =? 0
   then [EToc "Hub algorithm complete, waiting for termination barrier"]
   else []) ++
  [EBarrier; ECall "hub_finalize"; ECall "free_windows"] ++
  (if rank_global =? 0 then [EToc "Windows freed"] else []).

(** The calls on the hub or spoke object, and the barrier. *)
Definition lifecycle_call (e : event) : Prop :=
  match e with
  | ECall _ | EBarrier => True
  | _ => False
  end.

#[global] Instance lifecycle_call_dec e : Decision (lifecycle_call e).
Proof. destruct e; simpl; apply _. Defined.

(** The whole system: every process has the calls it has completed and
    the calls it has still to make.  A process advances on its own, except
    at the barrier, which all processes leave together once each of them
    has reached it. *)
Definition proc : Type := list event * list event.

Inductive sys_step : list proc → list proc → Prop :=
  | step_local cfg i done e rest :
      cfg !! i = Some (done, e :: rest) → e ≠ EBarrier →
      sys_step cfg (<[i := (done ++ [e], rest)]> cfg)
  | step_barrier cfg :
      Forall (λ p : proc, head p.2 = Some EBarrier) cfg →
      sys_step cfg ((λ p : proc, (p.1 ++ [EBarrier], tail p.2)) <$> cfg).

Definition sys_init (n_spokes W : Z) : list proc :=
  (λ g, ([], lifecycle_events (g mod (n_spokes + 1)) g)) <$> seqZ 0 W.

(** What every reachable configuration satisfies. *)
Definition sys_inv (cfg : list proc) : Prop :=
  (∀ i done rest, cfg !! i = Some (done, rest) →
     ∃ r g, done ++ rest = lifecycle_events r g) ∧
  (∀ i j di ri dj rj, cfg !! i = Some (di, ri) → cfg !! j = Some (dj, rj) →
     EBarrier ∈ di → EBarrier ∈ dj).

(** *** Nodes, ranges and recorded ranks *)

(** The inclusive range of scenario indices of a node. *)
Definition node_range (nd : _TreeNode) : Z * Z := (scenfirst nd, scenlast nd).

(** The rank recorded for scenario [s] under the node named [node]. *)
Definition rank_under (retval : rankmap) (node s : string) : option Z :=
  retval !! node ≫= (.!! s).

(** The same, read off what [scen_names_to_ranks] returned. *)
Definition recorded
    (res : result (rankmap * option (list (list range)) * option (gmap string Z)))
    (nd s : string) : option Z :=
  match res with
  | Ok (retval, _, _) => rank_under retval nd s
  | Raise _ => None
  end.

(** [s] names a scenario whose index lies in the range of [nd]. *)
Definition in_node_range (ScenNames : list string) (nd : _TreeNode) (s : string)
    : Prop :=
  ∃ i, scenfirst nd <= i <= scenlast nd ∧ 0 <= i ∧
       ScenNames !! Z.to_nat i = Some s.

(** Two nodes with different names and no scenario in common. *)
Definition apart (ScenNames : list string) (t t' : _TreeNode) : Prop :=
  name t ≠ name t' ∧
  ∀ s, in_node_range ScenNames t s → in_node_range ScenNames t' s → False.

(** Nodes that are pairwise apart. *)
Fixpoint separated (ScenNames : list string) (ts : list _TreeNode) : Prop :=
  match ts with
  | [] => True
  | t :: ts => Forall (apart ScenNames t) ts ∧ separated ScenNames ts
  end.

(** The sub-mappings of the nodes of [done] hold only scenarios of the
    node, with the rank that the root records, and the root holds only
    scenarios of these nodes. *)
Definition consistent (ScenNames : list string) (done : list _TreeNode)
    (retval : rankmap) : Prop :=
  ∃ root, retval !! "ROOT" = Some root ∧
    (∀ t, t ∈ done →
       ∃ sub, retval !! name t = Some sub ∧
         ∀ s r, sub !! s = Some r →
           in_node_range ScenNames t s ∧ root !! s = Some r) ∧
    (∀ s r, root !! s = Some r →
       ∃ t, t ∈ done ∧ in_node_range ScenNames t s).

(** The terminal node number [b] below the root of a two-stage tree over
    [N] scenarios. *)
Definition terminal (bf0 N b : Z) : _TreeNode :=
  mkTreeNode (b * N / bf0) ((b + 1) * N / bf0 - 1) ("ROOT" +:+ "_" +:+ str b) 1 [].

Definition terminals (bf0 N : Z) : list _TreeNode :=
  terminal bf0 N <$> range0 bf0.

(** *** Sample inputs *)

(** A hub dictionary (0), two spoke dictionaries (1, 2), the keyword
    dictionary of the second spoke (3), and a hub dictionary without
    ['opt_class'] (4). *)
Definition demo_heap : gmap loc dict :=
  {[ 0%nat := {[ "hub_class" := VObj "Hub"; "opt_class" := VObj "PH" ]};
     1%nat := {[ "spoke_class" := VObj "Lagrangian"; "opt_class" := VObj "PH" ]};
     2%nat := {[ "spoke_class" := VObj "XhatLooper"; "opt_class" := VObj "Xhat";
                 "opt_kwargs" := VDict 3%nat ]};
     3%nat := {[ "verbose" := VObj "False" ]};
     4%nat := {[ "hub_class" := VObj "Hub" ]} ]}.

Definition demo_state : state := mkState demo_heap [].

(** The tree of branching factors [2, 3] over six scenarios. *)
Definition demo_tree : _ScenTree :=
  match _ScenTree__init__ product [2; 3] (ID_names 6) with
  | Ok tree => tree
  | Raise _ => mkScenTree [] 0 0 [] (mkTreeNode 0 0 "" 0 []) [] []
  end.

(** *** Nodes of a constructed tree *)

(** [numscens] of [_TreeNode.__init__], for the node itself. *)
Definition numscens (nd : _TreeNode) : Z := scenlast nd - scenfirst nd + 1.

(** [k] is what the loop of [_TreeNode.__init__] appends for [b] to the
    kids of [p], a node whose branching factor is [bf]. *)
Definition child_of (p : _TreeNode) (bf b : Z) (k : _TreeNode) : Prop :=
  name k = name p +:+ "_" +:+ str b ∧ stage k = stage p + 1 ∧
  scenfirst k = b * numscens p / bf ∧
  scenlast k = (b + 1) * numscens p / bf - 1.

(** A node that some call of the constructor returned. *)
Definition built (BFs : list Z) (nd : _TreeNode) : Prop :=
  ∃ fuel Parent first last nm,
    _TreeNode__init__ fuel Parent first last BFs nm = Ok nd.

(** The number of underscores in a name. *)
Fixpoint underscores (s : string) : nat :=
  match s with
  | EmptyString => 0
  | String c s' => (if Ascii.eqb c "_"%char then 1 else 0) + underscores s'
  end.

(** What may follow a node's name in the name of a descendant. *)
Definition name_tail (r : string) : Prop := r = "" ∨ ∃ r', r = "_" +:+ r'.

(** ** extract_num

    Strings are sequences of the characters with code points 0 to 255.
    Among these [\d] matches exactly ['0'] to ['9'], and integers are
    unbounded, as everywhere in this development. *)

(** [\d] *)
Definition is_digit (c : ascii) : bool :=
  ((48 <=? nat_of_ascii c) && (nat_of_ascii c <=? 57))%nat.

(** [$] without [re.MULTILINE]: at the end of the string, or just before
    a newline that ends the string. *)
Definition at_end (s : string) : bool :=
  match s with
  | EmptyString => true
  | String c EmptyString => Ascii.eqb c "010"%char
  | _ => false
  end.

(** A match of [(\d+)$] starting at the first character of [s], as its
    group 1.  The digits are taken greedily; a shorter run of digits is
    tried when [$] fails after the longer one. *)
Fixpoint match_here (s : string) : option string :=
  match s with
  | EmptyString => None
  | String c s' =>
      if is_digit c then
        match match_here s' with
        | Some g => Some (String c g)
        | None => if at_end s' then Some (String c EmptyString) else None
        end
      else None
  end.

(** [re.compile(r'(\d+)$').search(string)]: the match that starts
    leftmost, or [None]. *)
Fixpoint search (s : string) : option string :=
  match match_here s with
  | Some g => Some g
  | None =>
      match s with
      | EmptyString => None
      | String _ s' => search s'
      end
  end.

(** [int(s)] on a string of decimal digits, the only strings that group
    1 of the pattern can hold. *)
Definition digit_value (c : ascii) : Z := Z.of_nat (nat_of_ascii c) - 48.

Fixpoint int_digits (acc : Z) (s : string) : Z :=
  match s with
  | EmptyString => acc
  | String c s' => int_digits (10 * acc + digit_value c) s'
  end.

(** [int(re.compile(r'(\d+)$').search(string).group(1))]: when [search]
    gives [None] the attribute [group] does not exist. *)
Definition extract_num (string : string) : result Z :=
  match search string with
  | None => Raise (AttributeError "group")
  | Some group_1 => Ok (int_digits 0 group_1)
  end.

(** ** Utilities that read an unbound name

    [NameError] joins the exceptions above: reading a name that is
    neither a local, nor bound in the module, nor a builtin. *)
Inductive uexn :=
  | Builtin (e : exn)
  | NameError (name : string).

Inductive uresult (A : Type) :=
  | UOk (a : A)
  | URaise (e : uexn).
Arguments UOk {A} a.
Arguments URaise {A} e.

#[global] Instance uresult_ret : MRet uresult := λ A a, UOk a.
#[global] Instance uresult_bind : MBind uresult := λ A B f m,
  match m with
  | UOk a => f a
  | URaise e => URaise e
  end.

(** ** get_objs *)

(** The name [sname] in [get_objs]: it is no parameter and no local of
    the function and the module binds no such name, so that reading it
    raises [NameError]. *)
Definition get_objs_sname : uresult string := URaise (NameError "sname").

(** [get_objs], given what [component_data_objects] of Pyomo yields for
    the scenario.  The second component is what is printed. *)
Definition get_objs {Obj} (component_data_objects : list Obj)
    : uresult (list Obj) * list string :=
  let scenario_objs := component_data_objects in
  if len scenario_objs =? 0 then
    (sname ← get_objs_sname;
     URaise (Builtin (RuntimeError
       ("Scenario " +:+ sname +:+ " has no active objective functions."))),
     [])
  else if 1 <? len scenario_objs then
    match get_objs_sname with
    | UOk sname =>
        (UOk scenario_objs,
         ["WARNING: Scenario " +:+ sname +:+
          " has multiple active objectives. Selecting the first objective for inclusion in the extensive form."])
    | URaise e => (URaise e, [])
    end
  else (UOk scenario_objs, []).

(** ** option_string_to_dict *)

(** The whitespace of [str.split()] and [str.strip()] among the
    characters with code points 0 to 255. *)
Definition is_space (c : ascii) : bool :=
  let n := nat_of_ascii c in
  (((9 <=? n) && (n <=? 13)) || ((28 <=? n) && (n <=? 32)) ||
   (n =? 133) || (n =? 160))%nat.

(** [s.split()]: the maximal runs of characters that are not whitespace. *)
Fixpoint split_whitespace (s : string) : list string :=
  match s with
  | EmptyString => []
  | String c s' =>
      if is_space c then split_whitespace s'
      else match s' with
           | String c' _ =>
               if is_space c' then String c EmptyString :: split_whitespace s'
               else match split_whitespace s' with
                    | w :: ws => String c w :: ws
                    | [] => [String c EmptyString]
                    end
           | EmptyString => [String c EmptyString]
           end
  end.

(** [s.lstrip()], [s.rstrip()] and [s.strip()] *)
Fixpoint lstrip (s : string) : string :=
  match s with
  | EmptyString => EmptyString
  | String c s' => if is_space c then lstrip s' else s
  end.

Fixpoint rstrip (s : string) : string :=
  match s with
  | EmptyString => EmptyString
  | String c s' =>
      match rstrip s' with
      | EmptyString => if is_space c then EmptyString else String c EmptyString
      | t => String c t
      end
  end.

Definition strip (s : string) : string := rstrip (lstrip s).

(** [s.split(sep)] for a separator of one character. *)
Fixpoint split_on (sep : ascii) (s : string) : list string :=
  match s with
  | EmptyString => [EmptyString]
  | String c s' =>
      if Ascii.eqb c sep then EmptyString :: split_on sep s'
      else match split_on sep s' with
           | p :: ps => String c p :: ps
           | [] => [String c EmptyString]
           end
  end.

(** The values of the returned dictionary. *)
Inductive option_value :=
  | OFloat (x : float)
  | OInt (i : Z)
  | OStr (s : string)
  | ONone.

(** The name [this_option] in [option_string_to_dict]: the function
    binds [this_option_string] and [this_option_pieces] only. *)
Definition this_option : uresult string := URaise (NameError "this_option").

Section WithParsers.

(** [float(s)] and [int(s)] on a string, [None] standing for their
    [ValueError]. *)
Variable float_of_string : string → option float.
Variable int_of_string : string → option Z.

Definition convert_value_string_to_number (s : string) : option_value :=
  match float_of_string s with
  | Some x => OFloat x
  | None =>
      match int_of_string s with
      | Some i => OInt i
      | None => OStr s
      end
  end.

(** The body of [for this_option_string in ostr.split()]. *)
Definition add_option (solver_options : gmap string option_value)
    (this_option_string : string) : uresult (gmap string option_value) :=
  let this_option_pieces := split_on "="%char (strip this_option_string) in
  match this_option_pieces with
  | [option_key; piece_1] =>
      let option_value := convert_value_string_to_number piece_1 in
      UOk (<[option_key := option_value]> solver_options)
  | [option_key] => UOk (<[option_key := ONone]> solver_options)
  | _ =>
      this_option ← this_option;
      URaise (Builtin (RuntimeError
        ("Illegally formed subsolve directive" +:+
         " option=" +:+ this_option +:+ " detected")))
  end.

Fixpoint add_options (solver_options : gmap string option_value)
    (l : list string) : uresult (gmap string option_value) :=
  match l with
  | [] => UOk solver_options
  | this_option_string :: l' =>
      solver_options ← add_option solver_options this_option_string;
      add_options solver_options l'
  end.

(** [option_string_to_dict]; [ostr] is [None] or a string, and so is the
    result [None] or a dictionary. *)
Definition option_string_to_dict (ostr : option string)
    : uresult (option (gmap string option_value)) :=
  let solver_options : gmap string option_value := ∅ in
  match ostr with
  | None => UOk None
  | Some EmptyString => UOk None
  | Some ostr =>
      solver_options ← add_options solver_options (split_whitespace ostr);
      UOk (Some solver_options)
  end.

End WithParsers.

(** ** _models_have_same_sense *)

Section WithObjectives.

(** The scenario models, and [find_active_objective(scenario,
    True).is_minimizing()] of Pyomo, which raises [ValueError] on a model
    with no or with several active objectives. *)
Variable Model : Type.
Variable is_minimizing : Model → result bool.

(** [pyo.minimize], an integer constant of Pyomo. *)
Variable minimize : Z.

(** [b == i] for a Boolean and an integer: [True] is 1 and [False] is 0. *)
Definition bool_eq_int (b : bool) (i : Z) : bool := (if b then 1 else 0) =? i.

(** [models] is given by [models.values()]. *)
Definition _models_have_same_sense (models : list Model)
    : result (option bool * bool) :=
  if len models =? 0 then Ok (Some true, true)
  else
    senses ← mapM is_minimizing models;
    sense ← getitem senses 0;
    let check := forallb (λ val, Bool.eqb val sense) senses in
    if check then Ok (Some (bool_eq_int sense minimize), check)
    else Ok (None, check).

End WithObjectives.

(** *** Notions for the utilities *)

(** A string of digits. *)
Fixpoint all_digits (s : string) : bool :=
  match s with
  | EmptyString => true
  | String c s' => is_digit c && all_digits s'
  end.

(** The longest run of digits at the right end of a string. *)
Fixpoint digit_suffix (s : string) : string :=
  match s with
  | EmptyString => EmptyString
  | String c s' => if all_digits s then s else digit_suffix s'
  end.

(** The string without the newline that ends it, if one does. *)
Fixpoint chomp (s : string) : string :=
  match s with
  | EmptyString => EmptyString
  | String c EmptyString => if Ascii.eqb c "010"%char then EmptyString else s
  | String c s' => String c (chomp s')
  end.

(** The number of occurrences of a character. *)
Fixpoint count_char (c : ascii) (s : string) : nat :=
  match s with
  | EmptyString => 0
  | String c' s' => (if Ascii.eqb c' c then 1 else 0) + count_char c s'
  end.

(** A string without whitespace. *)
Fixpoint no_space (s : string) : bool :=
  match s with
  | EmptyString => true
  | String c s' => negb (is_space c) && no_space s'
  end.

(** The key and the value that a well-formed option sets. *)
Definition option_key (w : string) : string :=
  default EmptyString (head (split_on "="%char w)).

(** The value that a well-formed option sets, [convert] being
    [convert_value_string_to_number]. *)
Definition option_setting (convert : string → option_value) (w : string)
    : option_value :=
  match split_on "="%char w with
  | [_; piece_1] => convert piece_1
  | _ => ONone
  end.

(** A string of whitespace. *)
Fixpoint all_space (s : string) : bool :=
  match s with
  | EmptyString => true
  | String c s' => is_space c && all_space s'
  end.

(* ================================================================== *)
(** * Part II: properties *)
(* ================================================================== *)

(** ** Lists, ranges and sorting *)

Lemma insert_by_least (key : Z → Z) (x : Z) (l : list Z) :
  Forall (λ y, key x <= key y) l → insert_by key x l = x :: l.
Proof.
  destruct l as [|y l]; [done|].
  intros [Hy _]%Forall_cons. simpl.
  by rewrite (proj2 (Z.leb_le _ _) Hy).
Qed.

Lemma sort_by_sorted (key : Z → Z) (l : list Z) :
  StronglySorted (λ a b, key a <= key b) l → sort_by key l = l.
Proof.
  induction 1 as [|x l Hl IH Hx]; [done|].
  unfold sort_by in *. simpl. rewrite IH. by apply insert_by_least.
Qed.

Lemma StronglySorted_seq a n : StronglySorted lt (seq a n).
Proof.
  revert a. induction n as [|n IH]; intros a; simpl; constructor; [apply IH|].
  apply Forall_forall. intros y Hy%elem_of_seq. lia.
Qed.

Lemma StronglySorted_seqZ m n : StronglySorted Z.lt (seqZ m n).
Proof.
  unfold seqZ. eapply StronglySorted_fmap; [|apply StronglySorted_seq].
  intros x y Hxy. simpl in *. lia.
Qed.

Lemma StronglySorted_filter {A} (R : relation A) (P : A → Prop)
    `{∀ x, Decision (P x)} l :
  StronglySorted R l → StronglySorted R (filter P l).
Proof.
  induction 1 as [|x l Hl IH Hx]; [constructor|].
  rewrite filter_cons. destruct (decide (P x)); [|done].
  constructor; [done|].
  rewrite Forall_forall in Hx. apply Forall_forall.
  intros y [_ Hy]%list_elem_of_filter. auto.
Qed.

Lemma StronglySorted_lt_le (key : Z → Z) (l : list Z) :
  StronglySorted Z.lt (key <$> l) → StronglySorted (λ a b, key a <= key b) l.
Proof.
  induction l as [|x l IH]; [constructor|].
  rewrite fmap_cons. intros [Hx Hl]%StronglySorted_cons.
  constructor; [by apply IH|].
  apply Forall_forall. intros y Hy.
  assert (key x < key y); [|lia].
  rewrite Forall_forall in Hx. apply Hx. by apply list_elem_of_fmap_2.
Qed.

Lemma StronglySorted_lt_NoDup (l : list Z) : StronglySorted Z.lt l → NoDup l.
Proof.
  induction 1 as [|x l Hl IH Hx]; constructor; [|done].
  intros Hin. rewrite Forall_forall in Hx. specialize (Hx _ Hin). lia.
Qed.

#[local] Instance Z_lt_antisymm : AntiSymm (=) Z.lt.
Proof. intros x y ??. lia. Qed.

(** Two strictly ascending lists with the same elements are equal. *)
Lemma ascending_ext (l k : list Z) :
  StronglySorted Z.lt l → StronglySorted Z.lt k →
  (∀ x, x ∈ l ↔ x ∈ k) → l = k.
Proof.
  intros Hl Hk Hlk. apply (StronglySorted_unique Z.lt); [done..|].
  apply NoDup_Permutation; auto using StronglySorted_lt_NoDup.
Qed.

Lemma index_of_fmap_seqZ (f : Z → Z) a n x :
  (∀ y, a <= y < a + n → f y = f x → y = x) →
  a <= x < a + n →
  index_of (f x) (f <$> seqZ a n) = x - a.
Proof.
  intros Hinj Hx.
  assert (∃ k : nat, n = Z.of_nat k) as [k ->] by (exists (Z.to_nat n); lia).
  revert a Hinj Hx. induction k as [|k IH]; intros a Hinj Hx; [lia|].
  rewrite seqZ_cons by lia. rewrite fmap_cons. simpl index_of.
  destruct (decide (x = a)) as [->|Hne].
  - rewrite Z.eqb_refl. lia.
  - destruct (Z.eqb_spec (f x) (f a)) as [Heq|_].
    + exfalso. apply Hne. symmetry. apply Hinj; [lia|done].
    + replace (Z.pred (Z.of_nat (S k))) with (Z.of_nat k) by lia.
      rewrite IH; [lia| |lia]. intros y Hy. apply Hinj. lia.
Qed.

Lemma index_of_seqZ a n x : a <= x < a + n → index_of x (seqZ a n) = x - a.
Proof.
  intros Hx. rewrite <-(list_fmap_id (seqZ a n)).
  by apply (index_of_fmap_seqZ id).
Qed.

(** ** The communicators that [make_comms] builds *)

Lemma Get_size_COMM W g : 0 <= W → Get_size (COMM W g) = W.
Proof. intros HW. unfold Get_size, COMM, len. simpl. rewrite length_seqZ. lia. Qed.

Lemma Get_rank_COMM W g : 0 <= g < W → Get_rank (COMM W g) = g.
Proof.
  intros Hg. unfold Get_rank, COMM. simpl. rewrite index_of_seqZ; lia.
Qed.

Lemma sort_by_rank_ascending (l : list Z) :
  StronglySorted Z.lt l → sort_by (λ rank_global, rank_global) l = l.
Proof.
  intros Hl. apply sort_by_sorted.
  apply (StronglySorted_lt_le (λ r, r)).
  change ((λ r : Z, r) <$> l) with (id <$> l). by rewrite list_fmap_id.
Qed.

Section Topology.

Variables (n W g : Z).
Hypothesis Hn : 0 < n.
Hypothesis HW : 0 <= W.
Hypothesis Hmul : W mod n = 0.
Hypothesis Hg : 0 <= g < W.

Lemma world_rows : W = n * (W / n).
Proof using Hn Hmul. pose proof (Z.div_mod W n). lia. Qed.

Lemma same_cylinder (p : Z) :
  0 <= p < W ∧ p / n = g / n ↔ g / n * n <= p < g / n * n + n.
Proof using Hn HW Hmul Hg.
  pose proof world_rows as HWn.
  pose proof (Z.div_mod g n). pose proof (Z.mod_pos_bound g n Hn).
  pose proof (Z.div_mod p n). pose proof (Z.mod_pos_bound p n Hn).
  split.
  - intros [Hp Heq]. rewrite <-Heq. lia.
  - intros Hp.
    assert (p / n = g / n) as Heq.
    { symmetry. apply (Z.div_unique p n (g / n) (p - g / n * n)); lia. }
    split; [|done].
    assert (g / n < W / n) by (apply Z.div_lt_upper_bound; lia).
    assert (0 <= g / n) by (apply Z.div_pos; lia).
    nia.
Qed.

Lemma members_intercomm :
  members (Split (COMM W g) (λ r, r / n) (λ r, r)) = seqZ (g / n * n) n.
Proof using Hn HW Hmul Hg.
  unfold Split, COMM. simpl.
  rewrite sort_by_rank_ascending
    by (apply StronglySorted_filter, StronglySorted_seqZ).
  apply ascending_ext;
    [apply StronglySorted_filter, StronglySorted_seqZ
    |apply StronglySorted_seqZ|].
  intros p. rewrite list_elem_of_filter, !elem_of_seqZ.
  rewrite <-same_cylinder. split; intros []; split; auto; lia.
Qed.

Lemma same_role (p : Z) :
  0 <= p < W ∧ p mod n = g mod n ↔
  ∃ c, p = c * n + g mod n ∧ 0 <= c < W / n.
Proof using Hn HW Hmul Hg.
  pose proof world_rows as HWn.
  pose proof (Z.mod_pos_bound g n Hn).
  split.
  - intros [Hp Heq]. exists (p / n).
    pose proof (Z.div_mod p n). pose proof (Z.mod_pos_bound p n Hn).
    split; [lia|]. split; [apply Z.div_pos; lia|].
    apply Z.div_lt_upper_bound; lia.
  - intros (c & -> & Hc). split; [nia|].
    rewrite Z.add_comm, Z.mod_add by lia. apply Z.mod_mod. lia.
Qed.

Lemma members_intracomm :
  members (Split (COMM W g) (λ r, r mod n) (λ r, r))
  = (λ c, c * n + g mod n) <$> seqZ 0 (W / n).
Proof using Hn HW Hmul Hg.
  unfold Split, COMM. simpl.
  rewrite sort_by_rank_ascending
    by (apply StronglySorted_filter, StronglySorted_seqZ).
  apply ascending_ext.
  - apply StronglySorted_filter, StronglySorted_seqZ.
  - eapply StronglySorted_fmap; [|apply StronglySorted_seqZ].
    intros x y Hxy. simpl. nia.
  - intros p. rewrite list_elem_of_filter, list_elem_of_fmap, elem_of_seqZ.
    transitivity (0 <= p < W ∧ p mod n = g mod n);
      [split; intros []; split; auto; lia|].
    rewrite same_role. split; intros (c & Hc1 & Hc2); exists c;
      rewrite ?elem_of_seqZ in *; split; auto; lia.
Qed.

Lemma rank_in_intercomm :
  Get_rank (Split (COMM W g) (λ r, r / n) (λ r, r)) = g mod n.
Proof using Hn HW Hmul Hg.
  unfold Get_rank. rewrite members_intercomm. simpl.
  pose proof (Z.div_mod g n). pose proof (Z.mod_pos_bound g n Hn).
  rewrite index_of_seqZ; lia.
Qed.

Lemma rank_in_intracomm :
  Get_rank (Split (COMM W g) (λ r, r mod n) (λ r, r)) = g / n.
Proof using Hn HW Hmul Hg.
  unfold Get_rank. rewrite members_intracomm. simpl.
  pose proof world_rows as HWn.
  pose proof (Z.div_mod g n). pose proof (Z.mod_pos_bound g n Hn).
  assert (0 <= g / n < W / n).
  { split; [apply Z.div_pos; lia|apply Z.div_lt_upper_bound; lia]. }
  replace g with ((λ c, c * n + g mod n) (g / n)) at 1 by (simpl; lia).
  rewrite (index_of_fmap_seqZ (λ c, c * n + g mod n)); [lia| |lia].
  intros y Hy Heq. simpl in Heq. nia.
Qed.

End Topology.

(** How [make_comms] runs: the two cases of its guard. *)
Lemma make_comms_ok CW n_spokes fc s :
  let fullcomm := default CW fc in
  let nsp1 := n_spokes + 1 in
  nsp1 ≠ 0 → Get_size fullcomm mod nsp1 = 0 →
  make_comms CW n_spokes fc s =
    (Ok (Split fullcomm (λ r, r / nsp1) (λ r, r),
         Split fullcomm (λ r, r mod nsp1) (λ r, r)),
     mkState (heap s)
       (log s ++ [ESplit (Get_rank fullcomm) (Get_rank fullcomm / nsp1);
                  ESplit (Get_rank fullcomm) (Get_rank fullcomm mod nsp1)])).
Proof.
  intros fullcomm nsp1 Hnz Hmul. unfold make_comms.
  fold fullcomm. fold nsp1.
  destruct (Z.eqb_spec nsp1 0) as [|_]; [done|].
  rewrite Hmul. simpl.
  unfold mbind, M_bind, do_Split, emit, mret, M_ret; simpl.
  by rewrite <-app_assoc.
Qed.

Lemma make_comms_not_multiple CW n_spokes fc s :
  let fullcomm := default CW fc in
  let nsp1 := n_spokes + 1 in
  nsp1 ≠ 0 → Get_size fullcomm mod nsp1 ≠ 0 →
  make_comms CW n_spokes fc s =
    (Raise (RuntimeError (need_multiple_msg nsp1 (Get_size fullcomm))), s).
Proof.
  intros fullcomm nsp1 Hnz Hmul. unfold make_comms.
  fold fullcomm. fold nsp1.
  destruct (Z.eqb_spec nsp1 0) as [|_]; [done|].
  destruct (Z.eqb_spec (Get_size fullcomm mod nsp1) 0) as [|_]; [done|].
  reflexivity.
Qed.

Section Groups.

Variables (n_spokes W : Z).
Hypothesis Hsp : 0 <= n_spokes.
Hypothesis HW : 0 <= W.
Hypothesis Hmul : W mod (n_spokes + 1) = 0.

Let n := n_spokes + 1.

Lemma comms_of_ok g :
  0 <= g < W →
  comms_of n_spokes W g =
    Ok (Split (COMM W g) (λ r, r / n) (λ r, r),
        Split (COMM W g) (λ r, r mod n) (λ r, r)).
Proof using Hsp HW Hmul.
  intros Hg. unfold comms_of.
  rewrite make_comms_ok; [done|lia|].
  simpl. by rewrite Get_size_COMM.
Qed.

Lemma elem_of_groups (which : Comm * Comm → Comm) (x : list Z) :
  x ∈ groups which n_spokes W ↔
  ∃ g, 0 <= g < W ∧
       x = members (which (Split (COMM W g) (λ r, r / n) (λ r, r),
                           Split (COMM W g) (λ r, r mod n) (λ r, r))).
Proof using Hsp HW Hmul.
  unfold groups. rewrite elem_of_remove_dups, list_elem_of_omap.
  split.
  - intros (g & Hg%elem_of_seqZ & Hx). exists g. split; [lia|].
    rewrite comms_of_ok in Hx by lia. by inversion Hx.
  - intros (g & Hg & ->). exists g. rewrite elem_of_seqZ. split; [lia|].
    by rewrite comms_of_ok.
Qed.

Lemma cylinders_count : len (groups fst n_spokes W) = W / n.
Proof using Hsp HW Hmul.
  assert (0 < n) as Hn by (unfold n; lia).
  pose proof (world_rows n W Hn Hmul) as HWn.
  assert (0 <= W / n) by (apply Z.div_pos; lia).
  assert (groups fst n_spokes W ≡ₚ (λ c, seqZ (c * n) n) <$> seqZ 0 (W / n))
    as Hperm.
  { apply NoDup_Permutation.
    - apply NoDup_remove_dups.
    - apply NoDup_fmap_2_strong; [|apply NoDup_seqZ].
      intros c c' _ _ Heq.
      rewrite (seqZ_cons (c * n)), (seqZ_cons (c' * n)) in Heq by lia.
      inversion Heq. nia.
    - intros x. rewrite elem_of_groups, list_elem_of_fmap. cbn [fst snd]. split.
      + intros (g & Hg & ->). exists (g / n).
        rewrite members_intercomm by done. split; [done|].
        rewrite elem_of_seqZ. split; [apply Z.div_pos; lia|].
        apply Z.div_lt_upper_bound; lia.
      + intros (c & -> & Hc%elem_of_seqZ). exists (c * n). split; [nia|].
        rewrite members_intercomm by (done || nia).
        by rewrite Z.div_mul by lia. }
  unfold len. rewrite (Permutation_length Hperm), length_fmap, length_seqZ. lia.
Qed.

Lemma role_groups_count : 0 < W → len (groups snd n_spokes W) = n.
Proof using Hsp HW Hmul.
  intros Hpos.
  assert (0 < n) as Hn by (unfold n; lia).
  pose proof (world_rows n W Hn Hmul) as HWn.
  assert (0 < W / n) as Hrows by nia.
  assert (groups snd n_spokes W ≡ₚ
          (λ r, (λ c, c * n + r) <$> seqZ 0 (W / n)) <$> seqZ 0 n) as Hperm.
  { apply NoDup_Permutation.
    - apply NoDup_remove_dups.
    - apply NoDup_fmap_2_strong; [|apply NoDup_seqZ].
      intros r r' _ _ Heq.
      rewrite (seqZ_cons 0) in Heq by lia. rewrite !fmap_cons in Heq.
      inversion Heq. lia.
    - intros x. rewrite elem_of_groups, list_elem_of_fmap. cbn [fst snd]. split.
      + intros (g & Hg & ->). exists (g mod n).
        rewrite members_intracomm by done. split; [done|].
        rewrite elem_of_seqZ. pose proof (Z.mod_pos_bound g n Hn). lia.
      + intros (r & -> & Hr%elem_of_seqZ). exists r. split; [nia|].
        rewrite members_intracomm by (done || nia).
        by rewrite Z.mod_small by lia. }
  unfold len. rewrite (Permutation_length Hperm), length_fmap, length_seqZ. lia.
Qed.

Lemma in_one_cylinder p :
  0 <= p < W →
  ∃ c, c ∈ groups fst n_spokes W ∧ p ∈ c ∧
       ∀ c', c' ∈ groups fst n_spokes W → p ∈ c' → c' = c.
Proof using Hsp HW Hmul.
  intros Hp. assert (0 < n) as Hn by (unfold n; lia).
  exists (seqZ (p / n * n) n). split; [|split].
  - apply elem_of_groups. exists p. cbn [fst snd]. by rewrite members_intercomm.
  - rewrite elem_of_seqZ. pose proof (Z.div_mod p n).
    pose proof (Z.mod_pos_bound p n Hn). lia.
  - intros c' (g & Hg & ->)%elem_of_groups. cbn [fst snd].
    rewrite members_intercomm by done. rewrite elem_of_seqZ. intros Hin.
    apply (same_cylinder n W g Hn HW Hmul Hg p) in Hin as [_ ->]. done.
Qed.

Lemma in_one_role_group p :
  0 <= p < W →
  ∃ c, c ∈ groups snd n_spokes W ∧ p ∈ c ∧
       ∀ c', c' ∈ groups snd n_spokes W → p ∈ c' → c' = c.
Proof using Hsp HW Hmul.
  intros Hp. assert (0 < n) as Hn by (unfold n; lia).
  exists ((λ c, c * n + p mod n) <$> seqZ 0 (W / n)). split; [|split].
  - apply elem_of_groups. exists p. cbn [fst snd]. by rewrite members_intracomm.
  - rewrite list_elem_of_fmap.
    destruct (proj1 (same_role n W p Hn HW Hmul Hp p)) as (c & Hc1 & Hc2); [done|].
    exists c. rewrite elem_of_seqZ. split; [done|lia].
  - intros c' (g & Hg & ->)%elem_of_groups. cbn [fst snd].
    rewrite members_intracomm by done. rewrite list_elem_of_fmap.
    intros (c & Hc1 & Hc2%elem_of_seqZ).
    destruct (proj2 (same_role n W g Hn HW Hmul Hg p)) as [_ ->]; [|done].
    exists c. split; [done|lia].
Qed.

End Groups.

(** C1, as amended.  When the world size [W] is a multiple of
    [n_spokes + 1], [make_comms] gives process [g] the cylinder of the
    [n_spokes + 1] processes with the same [g div (n_spokes+1)], in
    ascending rank order, where [g] stands at position
    [g mod (n_spokes+1)] and position 0 holds the hub (role 0); and the
    role group of the [W/(n_spokes+1)] processes with the same
    [g mod (n_spokes+1)], in ascending order.  Every process is in exactly
    one cylinder and exactly one role group.  There are [W/(n_spokes+1)]
    cylinders; the role groups number [n_spokes+1] (for a world that is not
    empty), each of [W/(n_spokes+1)] members. *)
Theorem make_comms_partitions (n_spokes W : Z) :
  0 <= n_spokes → 0 <= W → W mod (n_spokes + 1) = 0 →
  let nsp1 := n_spokes + 1 in
  (∀ g s, 0 <= g < W →
     ∃ intercomm intracomm s',
       make_comms (COMM W g) n_spokes None s = (Ok (intercomm, intracomm), s') ∧
       members intercomm = seqZ (g / nsp1 * nsp1) nsp1 ∧
       len (members intercomm) = nsp1 ∧
       Get_rank intercomm = g mod nsp1 ∧
       (∀ hub, members intercomm !! 0%nat = Some hub → hub mod nsp1 = 0) ∧
       members intracomm = (λ c, c * nsp1 + g mod nsp1) <$> seqZ 0 (W / nsp1) ∧
       len (members intracomm) = W / nsp1 ∧
       Get_rank intracomm = g / nsp1) ∧
  (∀ p, 0 <= p < W →
     ∃ c, c ∈ groups fst n_spokes W ∧ p ∈ c ∧
          ∀ c', c' ∈ groups fst n_spokes W → p ∈ c' → c' = c) ∧
  (∀ p, 0 <= p < W →
     ∃ c, c ∈ groups snd n_spokes W ∧ p ∈ c ∧
          ∀ c', c' ∈ groups snd n_spokes W → p ∈ c' → c' = c) ∧
  len (groups fst n_spokes W) = W / nsp1 ∧
  (0 < W → len (groups snd n_spokes W) = nsp1).
Proof.
  intros Hsp HW Hmul nsp1.
  assert (0 < nsp1) as Hn by (unfold nsp1; lia).
  split; [|split; [|split; [|split]]].
  - intros g s Hg.
    eexists _, _, _. split.
    { apply make_comms_ok; [fold nsp1; lia|].
      cbn [default from_option id]. by rewrite Get_size_COMM. }
    cbn [default from_option id]. fold nsp1.
    rewrite members_intercomm, members_intracomm by done.
    rewrite rank_in_intercomm, rank_in_intracomm by done.
    assert (0 <= W / nsp1) by (apply Z.div_pos; lia).
    unfold len. rewrite length_fmap, !length_seqZ.
    repeat split; try lia.
    intros hub. rewrite seqZ_cons by lia. cbn [lookup list_lookup]. intros [= <-].
    apply Z.mod_mul. lia.
  - by apply in_one_cylinder.
  - by apply in_one_role_group.
  - by apply cylinders_count.
  - by apply role_groups_count.
Qed.

Lemma make_comms_partitions_witness :
  0 <= 2 ∧ 0 <= 6 ∧ 6 mod (2 + 1) = 0 ∧
  len (groups fst 2 6) = 6 / (2 + 1) ∧ (0 < 6 → len (groups snd 2 6) = 2 + 1).
Proof.
  split; [lia|]. split; [lia|]. split; [reflexivity|].
  apply (make_comms_partitions 2 6); [lia|lia|reflexivity].
Defined.

(** C1 as stated fails: with two spokes and three processes there are
    three role groups (one per role), not [3/(2+1) = 1]. *)
Lemma role_group_count_counterexample :
  0 <= 2 ∧ 3 mod (2 + 1) = 0 ∧ len (groups snd 2 3) ≠ 3 / (2 + 1).
Proof. split; [lia|]. split; [reflexivity|]. vm_compute. discriminate. Qed.

(** ** Running the orchestrator: the store *)

Lemma bind_ok {A B} (m : M A) (f : A → M B) s a s1 :
  m s = (Ok a, s1) → (m ≫= f) s = f a s1.
Proof. intros H. unfold mbind, M_bind. by rewrite H. Qed.

Lemma bind_raise {A B} (m : M A) (f : A → M B) s e s1 :
  m s = (Raise e, s1) → (m ≫= f) s = (Raise e, s1).
Proof. intros H. unfold mbind, M_bind. by rewrite H. Qed.

Lemma filled_refl P s : filled P s s.
Proof.
  split; [done| |by left].
  intros d m Hd. exists m. split; [done|]. by left.
Qed.

Lemma filled_allocated P s s' d : filled P s s' → allocated s d → allocated s' d.
Proof.
  intros [_ Hold _] [m Hm]. destruct (Hold d m Hm) as (m' & Hm' & _).
  by exists m'.
Qed.

Lemma filled_trans P s s1 s2 :
  (∀ d k, (d, k) ∈ P → allocated s d) →
  filled P s s1 → filled P s1 s2 → filled P s s2.
Proof.
  intros HP H1 H2.
  assert (∀ l, heap s !! l = None → heap s1 !! l = Some ∅ →
               heap s2 !! l = Some ∅) as Hfresh.
  { intros l Hl Hl1. destruct (filled_old _ _ _ H2 l ∅ Hl1) as (m' & Hm' & Hk).
    rewrite Hm'. f_equal. apply map_eq. intros k. rewrite lookup_empty.
    destruct (Hk k) as [Heq|(_ & Hin & _)]; [by rewrite Heq, lookup_empty|].
    apply HP in Hin as [? Hin]. congruence. }
  split.
  - by rewrite (filled_log _ _ _ H2), (filled_log _ _ _ H1).
  - intros d m Hd.
    destruct (filled_old _ _ _ H1 d m Hd) as (m1 & Hm1 & Hk1).
    destruct (filled_old _ _ _ H2 d m1 Hm1) as (m2 & Hm2 & Hk2).
    exists m2. split; [done|]. intros k.
    destruct (Hk1 k) as [Heq1|(Hnone & Hin & l & Hl1 & Hl2 & Hl3)].
    + destruct (Hk2 k) as [Heq2|(Hnone & Hin & l & Hl1 & Hl2 & Hl3)].
      * left. congruence.
      * right. split; [congruence|]. split; [done|]. exists l.
        split; [done|]. split; [|done].
        destruct (heap s !! l) as [ml|] eqn:Hl; [|done].
        destruct (filled_old _ _ _ H1 l ml Hl) as (? & ? & _). congruence.
    + right. split; [done|]. split; [done|]. exists l.
      destruct (Hk2 k) as [Heq2|(Hnone2 & _)]; [|congruence].
      split; [congruence|]. split; [done|]. by apply Hfresh.
  - intros l Hl. destruct (filled_new _ _ _ H1 l Hl) as [Hl1|Hl1].
    + by apply (filled_new _ _ _ H2).
    + right. by apply Hfresh.
Qed.

Lemma filled_has_key P s s' d k :
  filled P s s' → has_key s d k → has_key s' d k.
Proof.
  intros Hf (m & Hm & Hk). destruct (filled_old _ _ _ Hf d m Hm) as (m' & Hm' & Hk').
  exists m'. split; [done|].
  destruct (Hk' k) as [->|[Hnone _]]; [done|].
  rewrite Hnone in Hk. by destruct Hk.
Qed.

Lemma filled_lacks_key P s s' d k :
  (d, k) ∉ P → filled P s s' → lacks_key s d k → lacks_key s' d k.
Proof.
  intros HP Hf (m & Hm & Hk). destruct (filled_old _ _ _ Hf d m Hm) as (m' & Hm' & Hk').
  exists m'. split; [done|].
  destruct (Hk' k) as [->|(_ & Hin & _)]; done.
Qed.

Lemma has_or_lacks s d k : allocated s d → has_key s d k ∨ lacks_key s d k.
Proof.
  intros [m Hm]. destruct (m !! k) as [v|] eqn:Hk.
  - left. exists m. rewrite Hk. eauto.
  - right. by exists m.
Qed.

Lemma has_not_lacks s d k : has_key s d k → lacks_key s d k → False.
Proof.
  intros (m & Hm & [v Hv]) (m' & Hm' & Hk). congruence.
Qed.

(** The primitive steps. *)
Lemma require_key_has d k msg s :
  has_key s d k → require_key d k msg s = (Ok (), s).
Proof.
  intros (m & Hm & Hk). unfold require_key, mbind, M_bind, dict_contains.
  rewrite Hm. by rewrite bool_decide_eq_true_2.
Qed.

Lemma require_key_lacks d k msg s :
  lacks_key s d k → require_key d k msg s = (Raise (RuntimeError msg), s).
Proof.
  intros (m & Hm & Hk). unfold require_key, mbind, M_bind, dict_contains.
  rewrite Hm. rewrite bool_decide_eq_false_2; [done|].
  rewrite Hk. by intros [].
Qed.

Lemma default_key_run P d k s :
  allocated s d → (d, k) ∈ P →
  ∃ s', default_key d k s = (Ok (), s') ∧ filled P s s' ∧ has_key s' d k.
Proof.
  intros [m Hm] HP. unfold default_key, mbind, M_bind, dict_contains.
  rewrite Hm. destruct (m !! k) as [v|] eqn:Hk.
  - rewrite bool_decide_eq_true_2 by eauto.
    exists s. split; [done|]. split; [apply filled_refl|].
    exists m. rewrite Hk. eauto.
  - rewrite bool_decide_eq_false_2 by (by intros []).
    unfold dict_new, dict_set. cbn [heap log].
    set (l := fresh (dom (heap s))).
    assert (heap s !! l = None) as Hl.
    { apply not_elem_of_dom. apply is_fresh. }
    assert (l ≠ d) as Hne by (intros ->; congruence).
    rewrite lookup_insert_ne by done. rewrite Hm.
    eexists. split; [done|]. split.
    + split; cbn [heap log]; [done| |].
      * intros d' m' Hd'. destruct (decide (d' = d)) as [->|Hd].
        -- rewrite lookup_insert_eq. eexists. split; [done|].
           intros k'. assert (m' = m) as -> by congruence.
           destruct (decide (k' = k)) as [->|Hk'].
           ++ right. split; [done|]. split; [done|]. exists l.
              rewrite lookup_insert_eq. split; [done|]. split; [done|].
              rewrite lookup_insert_ne by done. by rewrite lookup_insert_eq.
           ++ left. by rewrite lookup_insert_ne.
        -- assert (d' ≠ l) by (intros ->; congruence).
           rewrite !lookup_insert_ne by done. exists m'. split; [done|]. by left.
      * intros l' Hl'. assert (l' ≠ d) by (intros ->; congruence).
        rewrite lookup_insert_ne by done.
        destruct (decide (l' = l)) as [->|?].
        -- right. by rewrite lookup_insert_eq.
        -- left. by rewrite lookup_insert_ne.
    + eexists. cbn [heap]. rewrite lookup_insert_eq. split; [done|].
      rewrite lookup_insert_eq. eauto.
Qed.

Section Validation.

Variable P : list (loc * string).

(** The keys that may be filled are never the required ones. *)
Hypothesis P_keys : ∀ d k, (d, k) ∈ P →
  k = "hub_kwargs" ∨ k = "spoke_kwargs" ∨ k = "opt_kwargs".

Lemma spoke_ok_or_bad s d : allocated s d → spoke_ok s d ∨ spoke_bad s d.
Proof.
  intros Hd. unfold spoke_ok, spoke_bad.
  destruct (has_or_lacks s d "spoke_class" Hd), (has_or_lacks s d "opt_class" Hd);
    auto.
Qed.

Lemma filled_spoke_ok s s' d : filled P s s' → spoke_ok s d → spoke_ok s' d.
Proof. intros Hf [??]. split; by eapply filled_has_key. Qed.

Lemma filled_spoke_bad s s' d : filled P s s' → spoke_bad s d → spoke_bad s' d.
Proof using P_keys.
  intros Hf [H|H]; [left|right]; (eapply filled_lacks_key; [|done..]);
    intros Hin%P_keys; naive_solver.
Qed.

Lemma check_spoke_bad d s :
  spoke_bad s d →
  ∃ msg, msg ∈ spoke_msgs ∧ check_spoke d s = (Raise (RuntimeError msg), s).
Proof.
  intros Hbad. unfold check_spoke.
  destruct (has_or_lacks s d "spoke_class") as [Hc|Hc].
  { destruct Hbad as [(m & Hm & _)|(m & Hm & _)]; by exists m. }
  - destruct Hbad as [Hbad|Hbad]; [by destruct (has_not_lacks _ _ _ Hc Hbad)|].
    exists spoke_opt_class_msg. split; [set_solver|].
    erewrite bind_ok by (by apply require_key_has).
    erewrite bind_raise; [done|]. by apply require_key_lacks.
  - exists spoke_class_msg. split; [set_solver|].
    erewrite bind_raise; [done|]. by apply require_key_lacks.
Qed.

Lemma check_spoke_ok d s :
  (d, "spoke_kwargs") ∈ P → (d, "opt_kwargs") ∈ P →
  (∀ d k, (d, k) ∈ P → allocated s d) →
  spoke_ok s d →
  ∃ s', check_spoke d s = (Ok (), s') ∧ filled P s s' ∧
        has_key s' d "spoke_kwargs" ∧ has_key s' d "opt_kwargs".
Proof.
  intros HP1 HP2 Halloc [Hc Ho]. unfold check_spoke.
  assert (allocated s d) as Hd by (by eapply Halloc).
  destruct (default_key_run P d "spoke_kwargs" s Hd HP1) as (s1 & Hr1 & Hf1 & Hk1).
  assert (allocated s1 d) as Hd1 by (by eapply filled_allocated).
  destruct (default_key_run P d "opt_kwargs" s1 Hd1 HP2) as (s2 & Hr2 & Hf2 & Hk2).
  exists s2.
  erewrite bind_ok by (by apply require_key_has).
  erewrite bind_ok by (by apply require_key_has).
  erewrite bind_ok by done.
  split; [done|]. split; [by eapply filled_trans|].
  split; [by eapply filled_has_key|done].
Qed.

(** The loop over [list_of_spoke_dict]: it raises exactly when some spoke
    dictionary lacks a required key, and logs nothing either way. *)
Lemma check_spokes_run (l : list loc) s :
  (∀ d, d ∈ l → (d, "spoke_kwargs") ∈ P ∧ (d, "opt_kwargs") ∈ P) →
  (∀ d k, (d, k) ∈ P → allocated s d) →
  (Exists (spoke_bad s) l ∧
     ∃ msg s', msg ∈ spoke_msgs ∧
       for_each l check_spoke s = (Raise (RuntimeError msg), s') ∧ filled P s s')
  ∨ (Forall (spoke_ok s) l ∧
     ∃ s', for_each l check_spoke s = (Ok (), s') ∧ filled P s s' ∧
       Forall (λ d, has_key s' d "spoke_kwargs" ∧ has_key s' d "opt_kwargs") l).
Proof using P_keys.
  revert s. induction l as [|d l IH]; intros s Hl HP.
  - right. split; [constructor|]. exists s. split; [done|].
    split; [apply filled_refl|constructor].
  - assert (allocated s d) as Hd.
    { destruct (Hl d) as [Hin _]; [set_solver|]. by eapply HP. }
    simpl for_each.
    destruct (spoke_ok_or_bad s d Hd) as [Hok|Hbad].
    + destruct (check_spoke_ok d s) as (s1 & Hr1 & Hf1 & Hk1 & Hk2);
        [apply Hl; set_solver..|done|done|].
      erewrite bind_ok by done.
      destruct (IH s1) as [(Hex & msg & s' & Hmsg & Hr & Hf)
                          |(Hall & s' & Hr & Hf & Hkeys)].
      { intros d' Hd'. apply Hl. set_solver. }
      { intros d' k Hin. eapply filled_allocated; [done|]. by eapply HP. }
      * left. split.
        -- apply Exists_cons_tl. apply Exists_exists in Hex as (d' & Hd' & Hbad).
           apply Exists_exists. exists d'. split; [done|].
           destruct (spoke_ok_or_bad s d') as [Hok'|?]; [|  |done].
           { destruct (Hl d') as [Hin _]; [set_solver|]. by eapply HP. }
           pose proof (filled_spoke_ok _ _ _ Hf1 Hok') as [Hc Ho].
           destruct Hbad as [Hb|Hb];
             [destruct (has_not_lacks _ _ _ Hc Hb)|destruct (has_not_lacks _ _ _ Ho Hb)].
        -- exists msg, s'. split; [done|]. split; [done|]. by eapply filled_trans.
      * right. split.
        -- constructor; [done|]. apply Forall_forall. intros d' Hd'.
           rewrite Forall_forall in Hall.
           destruct (spoke_ok_or_bad s d') as [?|Hbad']; [|done|].
           { destruct (Hl d') as [Hin _]; [set_solver|]. by eapply HP. }
           pose proof (filled_spoke_bad _ _ _ Hf1 Hbad') as Hb.
           destruct (Hall d' Hd') as [Hc Ho].
           destruct Hb as [Hb|Hb];
             [destruct (has_not_lacks _ _ _ Hc Hb)|destruct (has_not_lacks _ _ _ Ho Hb)].
        -- exists s'. split; [done|]. split; [by eapply filled_trans|].
           constructor; [|done]. split; by eapply filled_has_key.
    + left. split; [by apply Exists_cons_hd|].
      destruct (check_spoke_bad d s Hbad) as (msg & Hmsg & Hr).
      exists msg, s. split; [done|].
      erewrite bind_raise by done. split; [done|apply filled_refl].
Qed.

End Validation.

Lemma targets_keys hub spokes d k :
  (d, k) ∈ targets hub spokes →
  k = "hub_kwargs" ∨ k = "spoke_kwargs" ∨ k = "opt_kwargs".
Proof.
  unfold targets. rewrite elem_of_app, !elem_of_cons, list_elem_of_bind.
  rewrite elem_of_nil. intros [Hin|(d' & Hin & _)]; [naive_solver|].
  rewrite !elem_of_cons, elem_of_nil in Hin. naive_solver.
Qed.

Lemma targets_dicts hub spokes d k :
  (d, k) ∈ targets hub spokes → d = hub ∨ d ∈ spokes.
Proof.
  unfold targets. rewrite elem_of_app, !elem_of_cons, list_elem_of_bind.
  rewrite elem_of_nil. intros [Hin|(d' & Hin & Hd')]; [naive_solver|].
  rewrite !elem_of_cons, elem_of_nil in Hin. naive_solver.
Qed.

Lemma targets_hub hub spokes k :
  k = "hub_kwargs" ∨ k = "opt_kwargs" → (hub, k) ∈ targets hub spokes.
Proof.
  unfold targets. rewrite elem_of_app, !elem_of_cons. naive_solver.
Qed.

Lemma targets_spoke hub spokes d k :
  d ∈ spokes → k = "spoke_kwargs" ∨ k = "opt_kwargs" →
  (d, k) ∈ targets hub spokes.
Proof.
  intros Hd Hk. unfold targets. rewrite elem_of_app, list_elem_of_bind.
  right. exists d. split; [|done]. rewrite !elem_of_cons. naive_solver.
Qed.

Lemma config_ok_not_bad s hub spokes :
  config_ok s hub spokes → config_bad s hub spokes → False.
Proof.
  intros (Hc & Ho & Hall) [Hb|[Hb|Hex]];
    [exact (has_not_lacks _ _ _ Hc Hb)|exact (has_not_lacks _ _ _ Ho Hb)|].
  apply Exists_exists in Hex as (d & Hd & Hbad).
  rewrite Forall_forall in Hall. destruct (Hall d Hd) as [Hc' Ho'].
  destruct Hbad as [Hb|Hb];
    [exact (has_not_lacks _ _ _ Hc' Hb)|exact (has_not_lacks _ _ _ Ho' Hb)].
Qed.

(** The validation of lines 30 to 60, as a whole. *)
Lemma check_dicts_run hub spokes s :
  allocated s hub → Forall (allocated s) spokes →
  (config_bad s hub spokes ∧
     ∃ msg s', msg ∈ config_msgs ∧
       check_dicts hub spokes s = (Raise (RuntimeError msg), s') ∧
       filled (targets hub spokes) s s')
  ∨ (config_ok s hub spokes ∧
     ∃ s', check_dicts hub spokes s = (Ok (), s') ∧
       filled (targets hub spokes) s s' ∧
       has_key s' hub "hub_kwargs" ∧ has_key s' hub "opt_kwargs" ∧
       Forall (λ d, has_key s' d "spoke_kwargs" ∧ has_key s' d "opt_kwargs") spokes).
Proof.
  intros Hhub Hspokes. set (P := targets hub spokes).
  assert (∀ d k, (d, k) ∈ P → allocated s d) as HP.
  { intros d k [->|Hd]%targets_dicts; [done|].
    rewrite Forall_forall in Hspokes. auto. }
  unfold check_dicts.
  destruct (has_or_lacks s hub "hub_class" Hhub) as [Hc|Hc]; cycle 1.
  { left. split; [by left|]. exists hub_class_msg, s.
    split; [unfold config_msgs; set_solver|].
    erewrite bind_raise by (by apply require_key_lacks).
    split; [done|apply filled_refl]. }
  erewrite bind_ok by (by apply require_key_has).
  destruct (has_or_lacks s hub "opt_class" Hhub) as [Ho|Ho]; cycle 1.
  { left. split; [right; by left|]. exists hub_opt_class_msg, s.
    split; [unfold config_msgs; set_solver|].
    erewrite bind_raise by (by apply require_key_lacks).
    split; [done|apply filled_refl]. }
  erewrite bind_ok by (by apply require_key_has).
  destruct (default_key_run P hub "hub_kwargs" s Hhub) as (s1 & Hr1 & Hf1 & Hk1);
    [apply targets_hub; auto|].
  erewrite bind_ok by done.
  assert (allocated s1 hub) as Hhub1 by (by eapply filled_allocated).
  destruct (default_key_run P hub "opt_kwargs" s1 Hhub1) as (s2 & Hr2 & Hf2 & Hk2);
    [apply targets_hub; auto|].
  erewrite bind_ok by done.
  assert (filled P s s2) as Hf by (by eapply filled_trans).
  assert (∀ d k, (d, k) ∈ P → allocated s2 d) as HP2.
  { intros d k Hin. eapply filled_allocated; [done|]. by eapply HP. }
  destruct (check_spokes_run P (targets_keys hub spokes) spokes s2)
    as [(Hex & msg & s' & Hmsg & Hr & Hf')|(Hall & s' & Hr & Hf' & Hkeys)].
  { intros d Hd. split; apply targets_spoke; auto. }
  { done. }
  - left. split.
    + right; right. apply Exists_exists in Hex as (d & Hd & Hbad).
      apply Exists_exists. exists d. split; [done|].
      rewrite Forall_forall in Hspokes.
      destruct (spoke_ok_or_bad s d (Hspokes d Hd)) as [Hok|?]; [|done].
      pose proof (filled_spoke_ok P _ _ _ Hf Hok) as [Hc' Ho'].
      destruct Hbad as [Hb|Hb];
        [destruct (has_not_lacks _ _ _ Hc' Hb)|destruct (has_not_lacks _ _ _ Ho' Hb)].
    + exists msg, s'. split.
      { unfold config_msgs, spoke_msgs in *. set_solver. }
      split; [done|]. by eapply filled_trans.
  - right. split.
    + split; [done|]. split; [done|].
      apply Forall_forall. intros d Hd.
      rewrite Forall_forall in Hspokes, Hall.
      destruct (spoke_ok_or_bad s d (Hspokes d Hd)) as [?|Hbad]; [done|].
      pose proof (filled_spoke_bad P (targets_keys hub spokes) _ _ _ Hf Hbad) as Hb.
      destruct (Hall d Hd) as [Hc' Ho'].
      destruct Hb as [Hb|Hb];
        [destruct (has_not_lacks _ _ _ Hc' Hb)|destruct (has_not_lacks _ _ _ Ho' Hb)].
    + exists s'. split; [done|]. split; [by eapply filled_trans|].
      split; [exact (filled_has_key P _ _ _ _ Hf' (filled_has_key P _ _ _ _ Hf2 Hk1))|].
      split; [exact (filled_has_key P _ _ _ _ Hf' Hk2)|done].
Qed.

(** ** Running the orchestrator: the whole call *)

Lemma run_lifecycle_run rank_inter rank_global s :
  run_lifecycle rank_inter rank_global s =
    (Ok (), mkState (heap s) (log s ++ lifecycle_events rank_inter rank_global)).
Proof.
  unfold run_lifecycle, lifecycle_events.
  destruct (rank_inter =? 0), (rank_global =? 0); destruct s as [h l];
    unfold mbind, M_bind, when, spcomm_call, toc, Barrier, emit, mret, M_ret;
    cbn [heap log];
    by rewrite <-?app_assoc.
Qed.

Lemma filled_kwargs P s s' d k m' v :
  kwargs_are_dicts s d k → allocated s d → filled P s s' →
  heap s' !! d = Some m' → m' !! k = Some v →
  ∃ l, v = VDict l ∧ allocated s' l.
Proof.
  intros Hkw [m Hm] Hf Hm' Hv.
  destruct (filled_old _ _ _ Hf d m Hm) as (m'' & Hm'' & Hk).
  assert (m'' = m') as -> by congruence.
  destruct (Hk k) as [Heq|(_ & _ & l & Hl & _ & Hl')].
  - destruct (Hkw m v Hm) as (l & -> & Hl); [congruence|].
    exists l. split; [done|]. by eapply filled_allocated.
  - exists l. split; [congruence|]. by eexists.
Qed.


(** What a run of [spin_the_wheel] that passes validation does, on process
    [g] of [W]: the complete result and final state. *)
Lemma spin_the_wheel_run CW hub spokes comm_world W g s :
  default CW comm_world = COMM W g →
  0 <= g < W → W mod (len spokes + 1) = 0 →
  well_typed s hub spokes → config_ok s hub spokes →
  let nsp1 := len spokes + 1 in
  let fullcomm := COMM W g in
  let intercomm := Split fullcomm (λ r, r / nsp1) (λ r, r) in
  let intracomm := Split fullcomm (λ r, r mod nsp1) (λ r, r) in
  let r := g mod nsp1 in
  ∃ s1 d md sp_class opt_class lskw lkw mkw skw,
    check_dicts hub spokes s = (Ok (), s1) ∧
    filled (targets hub spokes) s s1 ∧
    role_dict hub spokes r = Some d ∧
    heap s1 !! d = Some md ∧
    md !! class_key r = Some sp_class ∧
    md !! kwargs_key r = Some (VDict lskw) ∧
    md !! "opt_class" = Some opt_class ∧
    md !! "opt_kwargs" = Some (VDict lkw) ∧
    heap s1 !! lkw = Some mkw ∧
    let kw := <["mpicomm" := VComm intracomm]> mkw in
    let h2 := <[lkw := kw]> (heap s1) in
    h2 !! lskw = Some skw ∧
    let opt := mkOpt opt_class kw in
    let spcomm :=
      mkSP sp_class opt fullcomm intercomm intracomm
           (if r =? 0 then Some spokes else None) skw in
    spin_the_wheel CW hub spokes comm_world s =
      (Ok (spcomm, d),
       mkState h2
         (log s ++ [ESplit g (g / nsp1); ESplit g (g mod nsp1);
                    ENewOpt opt; ENewSP spcomm] ++ lifecycle_events r g)).
Proof.
  intros Hcw Hg Hmul [Hhub Hspokes Hkw] Hok nsp1 fullcomm intercomm intracomm r.
  assert (0 < nsp1) as Hn by (unfold nsp1, len; lia).
  assert (0 <= W) as HW by lia.
  destruct (check_dicts_run hub spokes s Hhub Hspokes)
    as [[Hbad _]|(_ & s1 & Hr1 & Hf & Hk1 & Hk2 & Hks)];
    [destruct (config_ok_not_bad _ _ _ Hok Hbad)|].
  destruct Hok as (Hc & Ho & Hall).
  pose proof (Z.mod_pos_bound g nsp1 Hn) as Hr. fold r in Hr.
  (* the dictionary of this role and its four entries *)
  assert (∃ d, role_dict hub spokes r = Some d ∧
               (d, kwargs_key r) ∈ targets hub spokes ∧
               (d, "opt_kwargs") ∈ targets hub spokes ∧
               allocated s d ∧
               has_key s1 d (class_key r) ∧ has_key s1 d (kwargs_key r) ∧
               has_key s1 d "opt_class" ∧ has_key s1 d "opt_kwargs")
    as (d & Hd & Ht1 & Ht2 & Hda & Hd1 & Hd2 & Hd3 & Hd4).
  { unfold role_dict, class_key, kwargs_key.
    destruct (Z.eqb_spec r 0) as [Hr0|Hr0].
    - exists hub. split; [done|].
      split; [apply targets_hub; auto|]. split; [apply targets_hub; auto|].
      split; [done|].
      split; [by eapply filled_has_key|]. split; [done|].
      split; [by eapply filled_has_key|done].
    - destruct (lookup_lt_is_Some_2 spokes (Z.to_nat (r - 1))) as [d Hd].
      { unfold nsp1, len in Hr. lia. }
      exists d. split; [done|].
      apply list_elem_of_lookup_2 in Hd as Hin.
      rewrite Forall_forall in Hall, Hks, Hspokes.
      destruct (Hall d Hin) as [Hc' Ho']. destruct (Hks d Hin) as [Hk Hk'].
      split; [apply targets_spoke; auto|]. split; [apply targets_spoke; auto|].
      split; [auto|].
      split; [by eapply filled_has_key|]. split; [done|].
      split; [by eapply filled_has_key|done]. }
  destruct Hd1 as (md & Hmd & [sp_class Hsp]).
  destruct Hd2 as (md' & Hmd' & [vskw Hvskw]).
  destruct Hd3 as (md'' & Hmd'' & [opt_class Hopt]).
  destruct Hd4 as (md''' & Hmd''' & [vkw Hvkw]).
  assert (md' = md) as -> by congruence.
  assert (md'' = md) as -> by congruence.
  assert (md''' = md) as -> by congruence.
  destruct (filled_kwargs _ s s1 d _ md vskw (Hkw _ _ Ht1) Hda Hf Hmd Hvskw)
    as (lskw & -> & [mskw Hmskw]).
  destruct (filled_kwargs _ s s1 d _ md vkw (Hkw _ _ Ht2) Hda Hf Hmd Hvkw)
    as (lkw & -> & [mkw Hmkw]).
  set (kw := <["mpicomm" := VComm intracomm]> mkw).
  set (h2 := <[lkw := kw]> (heap s1)).
  assert (∃ skw, h2 !! lskw = Some skw) as [skw Hskw].
  { unfold h2. destruct (decide (lkw = lskw)) as [->|Hne].
    - rewrite lookup_insert_eq. eauto.
    - rewrite lookup_insert_ne by done. eauto. }
  exists s1, d, md, sp_class, opt_class, lskw, lkw, mkw, skw.
  do 9 (split; [done|]). fold kw h2. split; [done|].
  (* the run itself *)
  unfold spin_the_wheel.
  erewrite bind_ok by exact Hr1.
  rewrite Hcw.
  erewrite bind_ok; cycle 1.
  { apply make_comms_ok; [fold nsp1; lia|].
    cbn [default from_option id]. rewrite Get_size_COMM by done. exact Hmul. }
  cbn [default from_option id]. fold nsp1 fullcomm intercomm intracomm.
  assert (Get_rank fullcomm = g) as -> by (by apply Get_rank_COMM).
  assert (Get_rank intercomm = r) as -> by (by apply rank_in_intercomm).
  set (s2 := mkState (heap s1) _).
  assert (∀ k v, md !! k = Some v → dict_get d k s2 = (Ok v, s2)) as Hget.
  { intros k v Hv. unfold dict_get. cbn [heap s2]. by rewrite Hmd, Hv. }
  erewrite bind_ok; cycle 1.
  { revert Hd Hsp Hvskw. unfold role_dict, class_key, kwargs_key.
    destruct (r =? 0) eqn:Hr0; intros Hd Hsp Hvskw.
    - injection Hd as <-.
      repeat (erewrite bind_ok by (by apply Hget)). reflexivity.
    - erewrite bind_ok; cycle 1.
      { unfold lift, getitem.
        assert (r ≠ 0) by (by apply Z.eqb_neq).
        assert ((r - 1 <? 0) = false) as Hlt by (apply Z.ltb_ge; lia).
        by rewrite !Hlt, Hd. }
      repeat (erewrite bind_ok by (by apply Hget)). reflexivity. }
  cbn beta iota.
  erewrite bind_ok; cycle 1.
  { unfold setitem, dict_set. cbn [heap log s2]. by rewrite Hmkw. }
  fold kw h2.
  erewrite bind_ok; cycle 1.
  { unfold unpack. cbn [heap]. unfold h2. by rewrite lookup_insert_eq. }
  erewrite bind_ok by reflexivity.
  erewrite bind_ok; cycle 1.
  { unfold unpack. cbn [heap log]. fold h2. by rewrite Hskw. }
  erewrite bind_ok by reflexivity.
  erewrite bind_ok by apply run_lifecycle_run.
  unfold mret, M_ret. cbn [heap log s2].
  rewrite (filled_log _ _ _ Hf).
  destruct (r =? 0); by rewrite <-!app_assoc.
Qed.

(** C6.  A hub or spoke dictionary without its class key or its
    ['opt_class'] key makes [spin_the_wheel] raise a [RuntimeError] with
    nothing logged: no communicator was split and no object constructed.
    A world size that is not a multiple of [n_spokes + 1] makes
    [make_comms] raise a [RuntimeError] whose message carries both
    numbers, in the state it was called in: no split was performed. *)
Theorem configuration_errors_come_first :
  (∀ CW hub_dict list_of_spoke_dict comm_world s,
     allocated s hub_dict → Forall (allocated s) list_of_spoke_dict →
     lacks_key s hub_dict "hub_class" ∨ lacks_key s hub_dict "opt_class" ∨
     Exists (λ d, lacks_key s d "spoke_class" ∨ lacks_key s d "opt_class")
            list_of_spoke_dict →
     ∃ msg s',
       spin_the_wheel CW hub_dict list_of_spoke_dict comm_world s
         = (Raise (RuntimeError msg), s') ∧
       msg ∈ config_msgs ∧
       log s' = log s) ∧
  (∀ CW n_spokes fullcomm s,
     let nsp1 := n_spokes + 1 in
     let n_proc := Get_size (default CW fullcomm) in
     0 <= n_spokes → n_proc mod nsp1 ≠ 0 →
     make_comms CW n_spokes fullcomm s =
       (Raise (RuntimeError
                 ("Need a multiple of " +:+ str nsp1 +:+
                  " processes (got " +:+ str n_proc +:+ ")")), s)).
Proof.
  split.
  - intros CW hub spokes cw s Hhub Hspokes Hbad.
    destruct (check_dicts_run hub spokes s Hhub Hspokes)
      as [(_ & msg & s' & Hmsg & Hr & Hf)|[Hok _]];
      [|destruct (config_ok_not_bad _ _ _ Hok Hbad)].
    exists msg, s'. split; [|split; [done|by apply (filled_log _ _ _ Hf)]].
    unfold spin_the_wheel. by erewrite bind_raise.
  - intros CW n_spokes fc s nsp1 n_proc Hsp Hmul.
    apply make_comms_not_multiple; [unfold nsp1; lia|done].
Qed.

Lemma configuration_errors_come_first_witness :
  (∃ msg s',
     spin_the_wheel (COMM 3 0) 4%nat [1%nat; 2%nat] None demo_state
       = (Raise (RuntimeError msg), s') ∧
     msg ∈ config_msgs ∧ log s' = log demo_state) ∧
  make_comms (COMM 5 4) 2 None demo_state =
    (Raise (RuntimeError "Need a multiple of 3 processes (got 5)"), demo_state).
Proof.
  split.
  - apply (proj1 configuration_errors_come_first).
    + by eexists.
    + repeat constructor; by eexists.
    + right; left. eexists. split; [reflexivity|]. reflexivity.
  - apply (proj2 configuration_errors_come_first (COMM 5 4) 2 None demo_state).
    + lia.
    + vm_compute. discriminate.
Defined.

(** Within [spin_the_wheel] too, a world of the wrong size is refused
    before any split. *)
Lemma spin_the_wheel_wrong_world_size CW hub spokes comm_world s :
  allocated s hub → Forall (allocated s) spokes → config_ok s hub spokes →
  Get_size (default CW comm_world) mod (len spokes + 1) ≠ 0 →
  ∃ s', spin_the_wheel CW hub spokes comm_world s =
          (Raise (RuntimeError
                    (need_multiple_msg (len spokes + 1)
                       (Get_size (default CW comm_world)))), s') ∧
        log s' = log s.
Proof.
  intros Hhub Hspokes Hok Hmul.
  destruct (check_dicts_run hub spokes s Hhub Hspokes)
    as [[Hbad _]|(_ & s1 & Hr1 & Hf & _)];
    [destruct (config_ok_not_bad _ _ _ Hok Hbad)|].
  exists s1. split; [|by apply (filled_log _ _ _ Hf)].
  unfold spin_the_wheel. erewrite bind_ok by exact Hr1.
  erewrite bind_raise; [done|].
  apply (make_comms_not_multiple CW (len spokes)
           (Some (default CW comm_world)) s1); [unfold len; lia|done].
Qed.

(** C5.  On a run that passes validation, the process at position 0 of
    its cylinder becomes the hub: its object is built from
    [hub_dict["hub_class"]], [hub_dict["hub_kwargs"]] and an optimisation
    object of [hub_dict["opt_class"]], and receives the full
    [list_of_spoke_dict]; the process at position [r > 0] becomes spoke
    [r], built the same way from [list_of_spoke_dict[r-1]] but without the
    list.  The call returns that object and the dictionary it was
    configured from. *)
Theorem role_selection CW hub_dict list_of_spoke_dict comm_world W g s :
  default CW comm_world = COMM W g →
  0 <= g < W → W mod (len list_of_spoke_dict + 1) = 0 →
  well_typed s hub_dict list_of_spoke_dict →
  config_ok s hub_dict list_of_spoke_dict →
  ∃ spcomm opt_dict s' conf,
    spin_the_wheel CW hub_dict list_of_spoke_dict comm_world s
      = (Ok (spcomm, opt_dict), s') ∧
    let r := Get_rank (sp_intercomm spcomm) in
    r = g mod (len list_of_spoke_dict + 1) ∧
    ENewSP spcomm ∈ log s' ∧
    heap s' !! opt_dict = Some conf ∧
    conf !! "opt_class" = Some (opt_class_of (sp_opt spcomm)) ∧
    (∃ lkw, conf !! "opt_kwargs" = Some (VDict lkw) ∧
            heap s' !! lkw = Some (opt_kwargs_of (sp_opt spcomm))) ∧
    (r = 0 →
       opt_dict = hub_dict ∧
       sp_spokes spcomm = Some list_of_spoke_dict ∧
       conf !! "hub_class" = Some (sp_class_of spcomm) ∧
       ∃ lskw, conf !! "hub_kwargs" = Some (VDict lskw) ∧
               heap s' !! lskw = Some (sp_kwargs_of spcomm)) ∧
    (r ≠ 0 →
       list_of_spoke_dict !! Z.to_nat (r - 1) = Some opt_dict ∧
       sp_spokes spcomm = None ∧
       conf !! "spoke_class" = Some (sp_class_of spcomm) ∧
       ∃ lskw, conf !! "spoke_kwargs" = Some (VDict lskw) ∧
               heap s' !! lskw = Some (sp_kwargs_of spcomm)).
Proof.
  intros Hcw Hg Hmul Hwt Hok.
  destruct (spin_the_wheel_run CW hub_dict list_of_spoke_dict comm_world W g s
              Hcw Hg Hmul Hwt Hok)
    as (s1 & d & md & sp_class & opt_class & lskw & lkw & mkw & skw &
        _ & Hf & Hd & Hmd & Hsp & Hskw & Hopt & Hkw & Hmkw & Hh2 & Hrun).
  cbv zeta in *.
  set (nsp1 := len list_of_spoke_dict + 1) in *.
  assert (0 < nsp1) as Hn by (unfold nsp1, len; lia).
  set (intracomm := Split (COMM W g) (λ r, r mod nsp1) (λ r, r)) in *.
  set (kw := <["mpicomm" := VComm intracomm]> mkw) in *.
  set (h2 := <[lkw := kw]> (heap s1)) in *.
  (* the dictionary of the role, as the call leaves it *)
  assert (∃ conf, h2 !! d = Some conf ∧
            ∀ k, k ≠ "mpicomm" → conf !! k = md !! k) as (conf & Hconf & Hsame).
  { unfold h2. destruct (decide (lkw = d)) as [->|Hne].
    - rewrite lookup_insert_eq. eexists. split; [done|].
      intros k Hk. unfold kw. rewrite lookup_insert_ne by done. congruence.
    - rewrite lookup_insert_ne by done. eauto. }
  eexists _, d, _, conf. split; [exact Hrun|].
  cbn [sp_intercomm sp_opt opt_class_of opt_kwargs_of sp_spokes sp_class_of
       sp_kwargs_of heap log].
  rewrite rank_in_intercomm by (done || lia).
  split; [done|].
  split; [rewrite !elem_of_app, !elem_of_cons; naive_solver|].
  split; [done|].
  split; [by rewrite Hsame|].
  split.
  { exists lkw. rewrite Hsame by done. split; [done|].
    unfold h2. by rewrite lookup_insert_eq. }
  unfold role_dict, class_key, kwargs_key in *.
  split; intros Hr.
  - rewrite Hr in *. cbn [Z.eqb] in *.
    split; [congruence|]. split; [done|].
    split; [by rewrite Hsame|].
    exists lskw. by rewrite Hsame.
  - apply Z.eqb_neq in Hr. rewrite Hr in *.
    split; [done|]. split; [done|].
    split; [by rewrite Hsame|].
    exists lskw. by rewrite Hsame.
Qed.

Lemma demo_well_typed : well_typed demo_state 0%nat [1%nat; 2%nat].
Proof.
  split.
  - by eexists.
  - repeat constructor; by eexists.
  - intros d k Hin m v Hm Hv.
    unfold targets in Hin. cbn in Hin.
    rewrite !elem_of_cons, elem_of_nil in Hin.
    destruct Hin as [?|[?|[?|[?|[?|[?|[]]]]]]]; simplify_eq;
      vm_compute in Hm; injection Hm as <-; vm_compute in Hv;
      try discriminate.
    injection Hv as <-. exists 3%nat. split; [done|]. by eexists.
Qed.

Lemma demo_config_ok : config_ok demo_state 0%nat [1%nat; 2%nat].
Proof.
  unfold config_ok, spoke_ok, has_key.
  repeat split; repeat constructor; eexists; (split; [reflexivity|]);
    vm_compute; eauto.
Qed.

Lemma role_selection_witness :
  ∃ spcomm opt_dict s',
    spin_the_wheel (COMM 6 5) 0%nat [1%nat; 2%nat] None demo_state
      = (Ok (spcomm, opt_dict), s') ∧
    Get_rank (sp_intercomm spcomm) = 2 ∧ opt_dict = 2%nat ∧
    sp_spokes spcomm = None.
Proof.
  destruct (role_selection (COMM 6 5) 0%nat [1%nat; 2%nat] None 6 5 demo_state)
    as (spcomm & opt_dict & s' & conf & Hrun & Hr & _ & _ & _ & _ & _ & Hspoke).
  - reflexivity.
  - lia.
  - reflexivity.
  - exact demo_well_typed.
  - exact demo_config_ok.
  - exists spcomm, opt_dict, s'. split; [exact Hrun|].
    cbv zeta in Hr, Hspoke. rewrite Hr in Hspoke. split; [exact Hr|].
    destruct Hspoke as (Hd & Hsp & _); [discriminate|].
    split; [|exact Hsp]. vm_compute in Hd. congruence.
Defined.

(** C10.  A run that passes validation leaves the caller's dictionaries
    changed in place: every [..._kwargs] key is bound afterwards, a key
    that was missing being bound to a dictionary that did not exist
    before; the ['opt_kwargs'] dictionary of the selected role has
    ['mpicomm'] bound to the role communicator, and the optimisation
    object was constructed from that very content.  Every other key of
    every dictionary that existed before the call is bound as it was. *)
Theorem dictionaries_mutated_in_place
    CW hub_dict list_of_spoke_dict comm_world W g s :
  default CW comm_world = COMM W g →
  0 <= g < W → W mod (len list_of_spoke_dict + 1) = 0 →
  well_typed s hub_dict list_of_spoke_dict →
  config_ok s hub_dict list_of_spoke_dict →
  ∃ spcomm opt_dict s' lkw,
    spin_the_wheel CW hub_dict list_of_spoke_dict comm_world s
      = (Ok (spcomm, opt_dict), s') ∧
    let intracomm := sp_intracomm spcomm in
    intracomm = Split (COMM W g)
                  (λ rank_global, rank_global mod (len list_of_spoke_dict + 1))
                  (λ rank_global, rank_global) ∧
    has_key s' hub_dict "hub_kwargs" ∧ has_key s' hub_dict "opt_kwargs" ∧
    Forall (λ d, has_key s' d "spoke_kwargs" ∧ has_key s' d "opt_kwargs")
           list_of_spoke_dict ∧
    (∃ conf, heap s' !! opt_dict = Some conf ∧
             conf !! "opt_kwargs" = Some (VDict lkw)) ∧
    heap s' !! lkw = Some (opt_kwargs_of (sp_opt spcomm)) ∧
    opt_kwargs_of (sp_opt spcomm) !! "mpicomm" = Some (VComm intracomm) ∧
    ENewOpt (sp_opt spcomm) ∈ log s' ∧
    ∀ d m, heap s !! d = Some m →
      ∃ m', heap s' !! d = Some m' ∧
        ∀ k, m' !! k = m !! k
           ∨ (m !! k = None ∧
              (d, k) ∈ targets hub_dict list_of_spoke_dict ∧
              ∃ l, m' !! k = Some (VDict l) ∧ heap s !! l = None ∧
                   (heap s' !! l = Some ∅ ∨
                    (l = lkw ∧
                     heap s' !! l = Some {[ "mpicomm" := VComm intracomm ]})))
           ∨ (d = lkw ∧ k = "mpicomm" ∧ m' !! k = Some (VComm intracomm)).
Proof.
  intros Hcw Hg Hmul Hwt Hok.
  destruct (spin_the_wheel_run CW hub_dict list_of_spoke_dict comm_world W g s
              Hcw Hg Hmul Hwt Hok)
    as (s1 & d & md & sp_class & opt_class & lskw & lkw & mkw & skw &
        Hchk & Hf & Hd & Hmd & Hsp & Hskw & Hopt & Hkw & Hmkw & Hh2 & Hrun).
  cbv zeta in *.
  set (nsp1 := len list_of_spoke_dict + 1) in *.
  set (intracomm := Split (COMM W g) (λ r, r mod nsp1) (λ r, r)) in *.
  set (kw := <["mpicomm" := VComm intracomm]> mkw) in *.
  set (h2 := <[lkw := kw]> (heap s1)) in *.
  destruct (check_dicts_run hub_dict list_of_spoke_dict s (wt_hub _ _ _ Hwt)
              (wt_spokes _ _ _ Hwt))
    as [[Hbad _]|(_ & s1' & Hr1 & _ & Hk1 & Hk2 & Hks)];
    [destruct (config_ok_not_bad _ _ _ Hok Hbad)|].
  assert (s1' = s1) as -> by congruence.
  (* keys bound after validation stay bound *)
  assert (∀ d' k, has_key s1 d' k →
            ∃ m, h2 !! d' = Some m ∧ is_Some (m !! k)) as Hkeep.
  { intros d' k (m & Hm & [v Hv]). unfold h2.
    destruct (decide (lkw = d')) as [->|Hne].
    - rewrite lookup_insert_eq. eexists. split; [done|].
      assert (m = mkw) as -> by congruence. unfold kw.
      destruct (decide ("mpicomm" = k)) as [<-|?].
      + rewrite lookup_insert_eq. eauto.
      + rewrite lookup_insert_ne by done. eauto.
    - rewrite lookup_insert_ne by done. eauto. }
  eexists _, d, _, lkw. split; [exact Hrun|].
  cbn [sp_intracomm sp_opt opt_kwargs_of heap log has_key].
  split; [done|].
  split; [by apply Hkeep|]. split; [by apply Hkeep|].
  split.
  { eapply Forall_impl; [exact Hks|]. intros d' [??]. split; by apply Hkeep. }
  split.
  { unfold h2. destruct (decide (lkw = d)) as [->|Hne].
    - rewrite lookup_insert_eq. eexists. split; [done|].
      unfold kw. rewrite lookup_insert_ne by done. congruence.
    - rewrite lookup_insert_ne by done. eauto. }
  split; [unfold h2; by rewrite lookup_insert_eq|].
  split; [unfold kw; by rewrite lookup_insert_eq|].
  split; [rewrite !elem_of_app, !elem_of_cons; naive_solver|].
  (* the frame *)
  intros d0 m Hm.
  destruct (filled_old _ _ _ Hf d0 m Hm) as (m1 & Hm1 & Hk).
  assert (∀ l, heap s1 !! l = Some ∅ →
            h2 !! l = Some ∅ ∨
            (l = lkw ∧ h2 !! l = Some {[ "mpicomm" := VComm intracomm ]}))
    as Hnew.
  { intros l Hl. unfold h2. destruct (decide (lkw = l)) as [->|Hne].
    - right. split; [done|]. rewrite lookup_insert_eq.
      assert (mkw = ∅) as Hmt by congruence.
      unfold kw. rewrite Hmt. reflexivity.
    - left. by rewrite lookup_insert_ne. }
  unfold h2 at 1. destruct (decide (lkw = d0)) as [->|Hne].
  - rewrite lookup_insert_eq. eexists. split; [done|].
    assert (m1 = mkw) as -> by congruence.
    intros k. unfold kw. destruct (decide ("mpicomm" = k)) as [<-|Hkne].
    + right; right. by rewrite lookup_insert_eq.
    + rewrite lookup_insert_ne by done.
      destruct (Hk k) as [Heq|(Hnone & Hin & l & Hl1 & Hl2 & Hl3)]; [by left|].
      right; left. split; [done|]. split; [done|]. exists l.
      split; [done|]. split; [done|]. by apply Hnew.
  - rewrite lookup_insert_ne by done. exists m1. split; [done|].
    intros k.
    destruct (Hk k) as [Heq|(Hnone & Hin & l & Hl1 & Hl2 & Hl3)]; [by left|].
    right; left. split; [done|]. split; [done|]. exists l.
    split; [done|]. split; [done|]. by apply Hnew.
Qed.

Lemma dictionaries_mutated_in_place_witness :
  ∃ spcomm opt_dict s' lkw,
    spin_the_wheel (COMM 6 5) 0%nat [1%nat; 2%nat] None demo_state
      = (Ok (spcomm, opt_dict), s') ∧
    has_key s' 0%nat "hub_kwargs" ∧
    heap s' !! lkw = Some (opt_kwargs_of (sp_opt spcomm)) ∧
    opt_kwargs_of (sp_opt spcomm) !! "mpicomm"
      = Some (VComm (sp_intracomm spcomm)).
Proof.
  destruct (dictionaries_mutated_in_place
              (COMM 6 5) 0%nat [1%nat; 2%nat] None 6 5 demo_state)
    as (spcomm & opt_dict & s' & lkw & Hrun & _ & Hk & _ & _ & _ & Hl & Hmp & _).
  - reflexivity.
  - lia.
  - reflexivity.
  - exact demo_well_typed.
  - exact demo_config_ok.
  - exists spcomm, opt_dict, s', lkw. repeat split; assumption.
Defined.

(** ** The order of the lifecycle calls *)

Lemma lifecycle_calls_in_order r g :
  filter lifecycle_call (lifecycle_events r g) =
    [ECall "make_windows"] ++
    (if r =? 0 then [ECall "setup_hub"] else []) ++
    [ECall "main"] ++
    (if r =? 0 then [ECall "send_terminate"] else []) ++
    [ECall "finalize"; EBarrier; ECall "hub_finalize"; ECall "free_windows"].
Proof.
  unfold lifecycle_events. by destruct (r =? 0), (g =? 0).
Qed.

(** In a prefix of [A ++ x :: B], whatever does not occur in [A] and is
    not [x] comes after [x]. *)
Lemma prefix_order {T} (done rest A B : list T) (x y : T) :
  done ++ rest = A ++ x :: B → y ∈ done → y ∉ A → x ∈ done.
Proof.
  intros Heq Hy HA.
  apply app_eq_inv in Heq as [(k & -> & Hk)|(k & -> & Hk)].
  - destruct k as [|z k].
    + rewrite app_nil_r in Hy. done.
    + injection Hk as -> _. rewrite elem_of_app, elem_of_cons. auto.
  - exfalso. apply HA. rewrite elem_of_app. auto.
Qed.

Lemma barrier_before_free_windows r g done rest :
  done ++ rest = lifecycle_events r g →
  ECall "free_windows" ∈ done → EBarrier ∈ done.
Proof.
  intros Heq Hin.
  eapply (prefix_order done rest
            ([ECall "make_windows"] ++
             (if r =? 0 then [ECall "setup_hub"] else []) ++
             (if g =? 0 then [EToc "Starting spcomm.main()"] else []) ++
             [ECall "main"] ++
             (if r =? 0 then [ECall "send_terminate"] else []) ++
             [ECall "finalize"] ++
             (if g =? 0
              then [EToc "Hub algorithm complete, waiting for termination barrier"]
              else []))
            ([ECall "hub_finalize"; ECall "free_windows"] ++
             (if g =? 0 then [EToc "Windows freed"] else []))
            EBarrier); [|exact Hin|].
  - rewrite Heq. unfold lifecycle_events. by destruct (r =? 0), (g =? 0).
  - destruct (r =? 0), (g =? 0); cbn;
      rewrite ?elem_of_cons, ?elem_of_nil; naive_solver.
Qed.

Lemma finalize_before_barrier r g done rest :
  done ++ rest = lifecycle_events r g →
  EBarrier ∈ done → ECall "finalize" ∈ done.
Proof.
  intros Heq Hin.
  eapply (prefix_order done rest
            ([ECall "make_windows"] ++
             (if r =? 0 then [ECall "setup_hub"] else []) ++
             (if g =? 0 then [EToc "Starting spcomm.main()"] else []) ++
             [ECall "main"] ++
             (if r =? 0 then [ECall "send_terminate"] else []))
            ((if g =? 0
              then [EToc "Hub algorithm complete, waiting for termination barrier"]
              else []) ++
             [EBarrier; ECall "hub_finalize"; ECall "free_windows"] ++
             (if g =? 0 then [EToc "Windows freed"] else []))
            (ECall "finalize")); [|exact Hin|].
  - rewrite Heq. unfold lifecycle_events. by destruct (r =? 0), (g =? 0).
  - destruct (r =? 0), (g =? 0); cbn;
      rewrite ?elem_of_cons, ?elem_of_nil; naive_solver.
Qed.

Lemma sys_inv_init n_spokes W : sys_inv (sys_init n_spokes W).
Proof.
  unfold sys_init. split.
  - intros i done rest Hi. apply list_lookup_fmap_Some in Hi as (g & Heq & _).
    injection Heq as -> ->. eauto.
  - intros i j di ri dj rj Hi _ Hin.
    apply list_lookup_fmap_Some in Hi as (g & Heq & _).
    injection Heq as -> ->. by apply elem_of_nil in Hin.
Qed.

Lemma sys_inv_step cfg cfg' : sys_inv cfg → sys_step cfg cfg' → sys_inv cfg'.
Proof.
  intros [Hprog Hbar] Hstep. destruct Hstep as [cfg i done e rest Hi He|cfg Hall].
  - assert (∀ j d r, <[i := (done ++ [e], rest)]> cfg !! j = Some (d, r) →
              ∃ d0 r0, cfg !! j = Some (d0, r0) ∧ d ++ r = d0 ++ r0 ∧
                       (EBarrier ∈ d ↔ EBarrier ∈ d0)) as Hback.
    { intros j d r Hj. destruct (decide (i = j)) as [<-|Hne].
      - rewrite list_lookup_insert_eq in Hj by (by eapply lookup_lt_Some).
        injection Hj as <- <-. exists done, (e :: rest).
        split; [done|]. split; [by rewrite <-app_assoc|].
        rewrite elem_of_app, list_elem_of_singleton. naive_solver.
      - rewrite list_lookup_insert_ne in Hj by done. eauto. }
    split.
    + intros j d r (d0 & r0 & Hj & Heq & _)%Hback. rewrite Heq. eauto.
    + intros j1 j2 d1 r1 d2 r2 (d01 & r01 & Hj1 & _ & Hb1)%Hback
                               (d02 & r02 & Hj2 & _ & Hb2)%Hback Hin.
      apply Hb2. eapply Hbar; [exact Hj1|exact Hj2|]. by apply Hb1.
  - split.
    + intros j d r Hj. apply list_lookup_fmap_Some in Hj as ([d0 r0] & Heq & Hj).
      injection Heq as -> ->. cbn [fst snd].
      rewrite Forall_forall in Hall.
      specialize (Hall _ (list_elem_of_lookup_2 _ _ _ Hj)). cbn [snd] in Hall.
      destruct r0 as [|e r0]; [done|]. injection Hall as ->.
      cbn [tail]. rewrite <-app_assoc. eauto.
    + intros j1 j2 d1 r1 d2 r2 _ Hj2 _.
      apply list_lookup_fmap_Some in Hj2 as ([d0 r0] & Heq & _).
      injection Heq as -> ->. rewrite elem_of_app, list_elem_of_singleton. auto.
Qed.

Lemma sys_inv_reachable n_spokes W cfg :
  rtc sys_step (sys_init n_spokes W) cfg → sys_inv cfg.
Proof.
  revert cfg. apply rtc_ind_r.
  - apply sys_inv_init.
  - intros cfg0 cfg _ Hstep IH. by eapply sys_inv_step.
Qed.

(** C2.  On a run that passes validation, the calls that a process makes
    on its hub or spoke object are, in this order: [make_windows], for the
    hub [setup_hub], [main], for the hub [send_terminate], [finalize], the
    barrier on the full communicator, [hub_finalize], [free_windows]; the
    hub is the process at position 0 of its cylinder, and each call
    occurs once.  In the system of all processes, where the barrier lets
    the processes go on only once all of them have reached it, a process
    that has called [free_windows] has passed the barrier and by then
    every process has called [finalize] and passed the barrier. *)
Theorem lifecycle_order :
  (∀ CW hub_dict list_of_spoke_dict comm_world W g s,
     default CW comm_world = COMM W g →
     0 <= g < W → W mod (len list_of_spoke_dict + 1) = 0 →
     well_typed s hub_dict list_of_spoke_dict →
     config_ok s hub_dict list_of_spoke_dict →
     ∃ spcomm opt_dict s' before,
       spin_the_wheel CW hub_dict list_of_spoke_dict comm_world s
         = (Ok (spcomm, opt_dict), s') ∧
       let r := Get_rank (sp_intercomm spcomm) in
       r = g mod (len list_of_spoke_dict + 1) ∧
       log s' = log s ++ before ++ lifecycle_events r g ∧
       filter lifecycle_call before = [] ∧
       filter lifecycle_call (lifecycle_events r g) =
         [ECall "make_windows"] ++
         (if r =? 0 then [ECall "setup_hub"] else []) ++
         [ECall "main"] ++
         (if r =? 0 then [ECall "send_terminate"] else []) ++
         [ECall "finalize"; EBarrier; ECall "hub_finalize";
          ECall "free_windows"]) ∧
  (∀ n_spokes W cfg,
     rtc sys_step (sys_init n_spokes W) cfg →
     ∀ i done rest, cfg !! i = Some (done, rest) →
       ECall "free_windows" ∈ done →
       EBarrier ∈ done ∧
       ∀ j done' rest', cfg !! j = Some (done', rest') →
         ECall "finalize" ∈ done' ∧ EBarrier ∈ done').
Proof.
  split.
  - intros CW hub spokes cw W g s Hcw Hg Hmul Hwt Hok.
    destruct (spin_the_wheel_run CW hub spokes cw W g s Hcw Hg Hmul Hwt Hok)
      as (s1 & d & md & sp_class & opt_class & lskw & lkw & mkw & skw &
          _ & _ & _ & _ & _ & _ & _ & _ & _ & _ & Hrun).
    cbv zeta in Hrun.
    eexists _, _, _, [_; _; _; _]. split; [exact Hrun|].
    cbn [sp_intercomm log].
    assert (0 < len spokes + 1) by (unfold len; lia).
    rewrite rank_in_intercomm by (done || lia).
    split; [done|]. split; [reflexivity|]. split; [reflexivity|].
    apply lifecycle_calls_in_order.
  - intros n_spokes W cfg Hreach i done rest Hi Hfree.
    destruct (sys_inv_reachable _ _ _ Hreach) as [Hprog Hbar].
    destruct (Hprog i done rest Hi) as (r & g & Heq).
    assert (EBarrier ∈ done) as Hb
      by exact (barrier_before_free_windows r g done rest Heq Hfree).
    split; [done|].
    intros j done' rest' Hj.
    assert (EBarrier ∈ done') as Hb' by exact (Hbar i j _ _ _ _ Hi Hj Hb).
    split; [|done].
    destruct (Hprog j done' rest' Hj) as (r' & g' & Heq').
    exact (finalize_before_barrier r' g' done' rest' Heq' Hb').
Qed.

Lemma lifecycle_order_witness :
  ∃ spcomm opt_dict s' before,
    spin_the_wheel (COMM 6 3) 0%nat [1%nat; 2%nat] None demo_state
      = (Ok (spcomm, opt_dict), s') ∧
    log s' = log demo_state ++ before ++ lifecycle_events 0 3 ∧
    filter lifecycle_call (lifecycle_events 0 3) =
      [ECall "make_windows"; ECall "setup_hub"; ECall "main";
       ECall "send_terminate"; ECall "finalize"; EBarrier;
       ECall "hub_finalize"; ECall "free_windows"].
Proof.
  destruct (proj1 lifecycle_order
              (COMM 6 3) 0%nat [1%nat; 2%nat] None 6 3 demo_state)
    as (spcomm & opt_dict & s' & before & Hrun & Hr & Hlog & _ & Hcalls).
  - reflexivity.
  - lia.
  - reflexivity.
  - exact demo_well_typed.
  - exact demo_config_ok.
  - exists spcomm, opt_dict, s', before. split; [exact Hrun|].
    cbv zeta in Hr, Hlog, Hcalls. rewrite Hr in Hlog, Hcalls.
    split; [exact Hlog|exact Hcalls].
Defined.

(** ** The flat partition of [scens_to_ranks] *)

Lemma scens_to_ranks_too_few prod scen_count n_proc rank BFs :
  scen_count < n_proc →
  scens_to_ranks prod scen_count n_proc rank BFs
    = Raise (RuntimeError (more_ranks_msg n_proc scen_count)).
Proof.
  intros Hlt. unfold scens_to_ranks.
  by rewrite (proj2 (Z.ltb_lt _ _) Hlt).
Qed.

(** [flatPartition(6, 3)]: three ranges that cover 0 to 5. *)
Lemma flat_partition_6_3 prod rank :
  scens_to_ranks prod 6 3 rank None
    = Ok (FlatSlices [Range 0 2; Range 2 4; Range 4 6], None).
Proof. reflexivity. Qed.

(** C8, at a failing input.  For 61 scenarios and 7 ranks the quotient
    [61/7] is rounded down to the nearest float and [7 * (61/7)] rounds to
    a float below 61, so the last range stops at 60: the seven ranges are
    contiguous and start at 0, but scenario index 60 is in none. *)
Theorem flat_partition_drops_a_scenario prod rank :
  ∃ slices,
    scens_to_ranks prod 61 7 rank None = Ok (FlatSlices slices, None) ∧
    slices = [Range 0 8; Range 8 17; Range 17 26; Range 26 34; Range 34 43;
              Range 43 52; Range 52 60] ∧
    0 <= 60 < 61 ∧
    Forall (λ r, ¬ in_range 60 r) slices.
Proof.
  eexists. split; [vm_compute; reflexivity|]. split; [reflexivity|].
  split; [lia|].
  repeat constructor; unfold in_range; simpl; lia.
Qed.

(** A zero rank count passes the guard and fails in the division. *)
Lemma flat_partition_no_ranks prod rank :
  scens_to_ranks prod 0 0 rank None = Raise ZeroDivisionError.
Proof. reflexivity. Qed.

(** ** The multi-stage branch of [scens_to_ranks] *)

Lemma no_method_scen_name_to_rank tree n_proc rank :
  call_method tree "scen_name_to_rank" n_proc rank
    = Raise (AttributeError "scen_name_to_rank").
Proof. reflexivity. Qed.

(** C9, as amended.  With [BFs] given and [scen_count >= n_proc] the call
    never returns: when [_ScenTree] is constructed the lookup of
    [scen_name_to_rank] raises [AttributeError], and when the constructor
    raises, that exception is the outcome. *)
Theorem multistage_branch_never_returns prod scen_count n_proc rank BFs :
  scen_count >= n_proc →
  let all_scenario_names := ID_names scen_count in
  raises (scens_to_ranks prod scen_count n_proc rank (Some BFs)) ∧
  (∀ tree, _ScenTree__init__ prod BFs all_scenario_names = Ok tree →
     scens_to_ranks prod scen_count n_proc rank (Some BFs)
       = Raise (AttributeError "scen_name_to_rank")) ∧
  (∀ e, _ScenTree__init__ prod BFs all_scenario_names = Raise e →
     scens_to_ranks prod scen_count n_proc rank (Some BFs) = Raise e).
Proof.
  intros Hge names.
  assert ((scen_count <? n_proc) = false) as Hlt by (apply Z.ltb_ge; lia).
  unfold scens_to_ranks, raises. rewrite Hlt. fold names.
  cbn [mbind result_bind].
  destruct (_ScenTree__init__ prod BFs names) as [tree|e].
  - split; [by eexists|]. split; [done|]. intros ? [=].
  - split; [by eexists|]. split; [intros ? [=]|]. by intros ? [= ->].
Qed.

Lemma multistage_branch_never_returns_witness :
  6 >= 3 ∧
  scens_to_ranks product 6 3 0 (Some [2; 3])
    = Raise (AttributeError "scen_name_to_rank").
Proof.
  split; [lia|].
  destruct (multistage_branch_never_returns product 6 3 0 [2; 3])
    as (_ & Hattr & _); [lia|].
  eapply Hattr. vm_compute. reflexivity.
Defined.

(** C9 as stated fails where the constructor raises first: five scenarios
    are not [prod([2, 3])]. *)
Lemma multistage_branch_counterexample :
  5 >= 2 ∧ scens_to_ranks product 5 2 0 (Some [2; 3]) = Raise AssertionError.
Proof. split; [lia|reflexivity]. Qed.

(** ** The scenario tree: the ranges of the children *)

(** C3, at a failing input.  With branching factors [2, 2, 2] the node
    [ROOT_1] is not terminal and spans the scenarios 4 to 7, but its
    children span 0 to 1 and 2 to 3: [__init__] computes [first] and
    [last] of a child from [numscens] alone, without adding the parent's
    [scenfirst]. *)
Theorem child_ranges_ignore_parent_offset :
  len [2; 2; 2] > 1 ∧ len (ID_names 8) = product [2; 2; 2] ∧
  ∃ tree nd,
    _ScenTree__init__ product [2; 2; 2] (ID_names 8) = Ok tree ∧
    nd ∈ nonleaves tree ∧ (nd ∉ NonLeafTerminals tree) ∧
    name nd = "ROOT_1" ∧ node_range nd = (4, 7) ∧
    node_range <$> kids nd = [(0, 1); (2, 3)].
Proof.
  split; [done|]. split; [done|].
  eexists _, (mkTreeNode 4 7 "ROOT_1" 1
                [mkTreeNode 0 1 "ROOT_1_0" 2 []; mkTreeNode 2 3 "ROOT_1_1" 2 []]).
  split; [vm_compute; reflexivity|].
  cbn [nonleaves NonLeafTerminals].
  split; [rewrite !elem_of_cons; right; right; right; right; by left|].
  split; [|done].
  rewrite !elem_of_cons, elem_of_nil. intros [[=]|[[=]|[[=]|[[=]|[]]]]].
Qed.

(** ** [scen_names_to_ranks]: the role of [myrank] *)

Lemma lookup_foldl_insert {A V} (f : A → string) (v : V) (l : list A)
    (m0 : gmap string V) (k : string) :
  foldl (λ m x, <[f x := v]> m) m0 l !! k =
    if decide (k ∈ f <$> l) then Some v else m0 !! k.
Proof.
  revert m0. induction l as [|x l IH]; intros m0; [done|].
  cbn [foldl]. rewrite IH. rewrite fmap_cons.
  destruct (decide (k ∈ f <$> l)) as [Hin|Hin].
  - rewrite decide_True; [done|]. rewrite elem_of_cons. auto.
  - destruct (decide (k = f x)) as [->|Hne].
    + rewrite lookup_insert_eq. rewrite decide_True; [done|].
      rewrite elem_of_cons. auto.
    + rewrite lookup_insert_ne by done. rewrite decide_False; [done|].
      rewrite elem_of_cons. naive_solver.
Qed.

Lemma all_to_rank_lookup ScenNames myrank s r :
  all_to_rank ScenNames myrank !! s = Some r ↔ s ∈ ScenNames ∧ r = myrank.
Proof.
  unfold all_to_rank. rewrite (lookup_foldl_insert (λ s, s)).
  change ((λ s0 : string, s0) <$> ScenNames) with (id <$> ScenNames).
  rewrite list_fmap_id.
  destruct (decide (s ∈ ScenNames)); [naive_solver|].
  rewrite lookup_empty. naive_solver.
Qed.

(** With a single rank the result is the same dictionary under every
    node name. *)
Lemma scen_names_to_ranks_single self myrank :
  ∃ retval,
    scen_names_to_ranks self 1 myrank = Ok (retval, None, None) ∧
    ∀ n, retval !! n =
      if decide (n ∈ name <$> nonleaves self)
      then Some (all_to_rank (ScenNames self) myrank) else None.
Proof.
  unfold scen_names_to_ranks. cbn [Z.eqb Pos.eqb].
  eexists. split; [done|]. intros n.
  rewrite (lookup_foldl_insert name). by rewrite lookup_empty.
Qed.


Lemma demo_tree_ok : _ScenTree__init__ product [2; 3] (ID_names 6) = Ok demo_tree.
Proof. reflexivity. Qed.



(** ** The two-stage tree *)

Lemma mapM_Ok {A B} (f : A → result B) (g : A → B) (l : list A) :
  (∀ x, x ∈ l → f x = Ok (g x)) → mapM f l = Ok (g <$> l).
Proof.
  induction l as [|x l IH]; intros Hf; [done|].
  cbn [mapM]. rewrite Hf by (rewrite elem_of_cons; auto).
  cbn [mbind result_bind]. rewrite IH; [done|].
  intros y Hy. apply Hf. rewrite elem_of_cons. auto.
Qed.

Lemma mapM_Ok_inv {A B} (f : A → result B) (l : list A) (k : list B) :
  mapM f l = Ok k → Forall2 (λ x y, f x = Ok y) l k.
Proof.
  revert k. induction l as [|x l IH]; intros k.
  - intros [= <-]. constructor.
  - cbn [mapM]. destruct (f x) as [y|] eqn:Hfx; [|done].
    cbn [mbind result_bind]. destruct (mapM f l) as [k'|]; [|done].
    intros [= <-]. constructor; auto.
Qed.

Lemma two_stage_tree prod bf0 bf1 names self :
  _ScenTree__init__ prod [bf0; bf1] names = Ok self →
  let N := len names in
  ScenNames self = names ∧ BFs self = [bf0; bf1] ∧
  rootnode self = mkTreeNode 0 (N - 1) "ROOT" 0 (terminals bf0 N) ∧
  nonleaves self = rootnode self :: terminals bf0 N ∧
  NonLeafTerminals self = terminals bf0 N.
Proof.
  intros Hinit N. unfold _ScenTree__init__ in Hinit. fold N in Hinit.
  destruct (assert (N =? prod [bf0; bf1])); [|done].
  cbn [mbind result_bind] in Hinit.
  change (len [bf0; bf1]) with 2 in Hinit. cbn [assert Z.ltb Z.compare Pos.compare Pos.compare_cont] in Hinit.
  cbn [mbind result_bind] in Hinit.
  assert (_TreeNode__init__ (length [bf0; bf1]) None 0 (N - 1) [bf0; bf1] "ROOT"
          = Ok (mkTreeNode 0 (N - 1) "ROOT" 0 (terminals bf0 N))) as Hroot.
  { cbn [length _TreeNode__init__]. rewrite decide_True by done.
    cbn [mbind result_bind]. change (getitem [bf0; bf1] 0) with (Ok bf0).
    cbn [mbind result_bind]. change (len [bf0; bf1]) with 2.
    change (0 <? 2 - 1) with true. cbn iota.
    rewrite (mapM_Ok _ (terminal bf0 N)); [done|].
    intros b _. change (getitem [bf0; bf1] (0 + 1)) with (Ok bf1).
    cbn [mbind result_bind]. change (0 + 1 <? 2 - 1) with false. cbn iota.
    cbn [mbind result_bind]. unfold terminal.
    replace (N - 1 - 0 + 1) with N by lia. reflexivity. }
  rewrite Hroot in Hinit. cbn [mbind result_bind] in Hinit.
  injection Hinit as <-. cbn [ScenNames BFs rootnode nonleaves NonLeafTerminals].
  assert (flat_map (_nonleaves [bf0; bf1]) (terminals bf0 N) = terminals bf0 N)
    as Hfm.
  { unfold terminals. induction (range0 bf0) as [|b l IH]; [done|].
    rewrite fmap_cons. cbn [flat_map]. rewrite IH.
    cbn [terminal _nonleaves]. change (1 <? len [bf0; bf1] - 1) with false.
    done. }
  change (len [bf0; bf1]) with 2. change (0 <? 2 - 1) with true. cbn iota.
  rewrite Hfm. repeat split; try done.
  rewrite filter_cons. cbn [stage].
  rewrite decide_False by done.
  unfold terminals. induction (range0 bf0) as [|b l IH]; [done|].
  rewrite fmap_cons, filter_cons. cbn [terminal stage].
  rewrite decide_True by done. by rewrite IH.
Qed.

(** ** [scen_names_to_ranks] on a two-stage tree *)

Lemma apart_sym names t t' : apart names t t' → apart names t' t.
Proof. intros [Hn Hr]. split; [done|]. intros s ??. by eapply Hr. Qed.

Lemma getitem_elem {A} (l : list A) i x : getitem l i = Ok x → x ∈ l.
Proof.
  unfold getitem. destruct (_ <? 0); [done|].
  destruct (l !! _) as [y|] eqn:Hl; [|done].
  intros [= <-]. by eapply list_elem_of_lookup_2.
Qed.

Lemma getitem_nonneg {A} (l : list A) i x :
  0 <= i → getitem l i = Ok x → l !! Z.to_nat i = Some x.
Proof.
  intros Hi. unfold getitem.
  rewrite (proj2 (Z.ltb_ge i 0)) by lia. rewrite (proj2 (Z.ltb_ge i 0)) by lia.
  destruct (l !! _) as [y|]; [|done]. by intros [= <-].
Qed.

Lemma scen_list_in_range names nd l :
  0 <= scenfirst nd → scen_list names nd = Ok l →
  ∀ x, x ∈ l → in_node_range names nd x.
Proof.
  intros Hfirst Hl%mapM_Ok_inv x Hx.
  apply list_elem_of_lookup_1 in Hx as [j Hj].
  destruct (Forall2_lookup_r _ _ _ _ _ Hl Hj) as (i & Hi & Hget).
  apply list_elem_of_lookup_2 in Hi. unfold range_list in Hi. cbn in Hi.
  apply elem_of_seqZ in Hi.
  exists i. split; [lia|]. split; [lia|]. apply getitem_nonneg; [lia|done].
Qed.

Lemma set_rank_Ok retval node scen r retval' :
  set_rank retval node scen r = Ok retval' →
  ∃ sub, retval !! node = Some sub ∧
         retval' = <[node := <[scen := r]> sub]> retval.
Proof.
  unfold set_rank, lookup_key. destruct (retval !! node) as [sub|]; [|done].
  cbn. intros [= <-]. eauto.
Qed.

Section Terminals.

Variable names : list string.
Variable done : list _TreeNode.
Variable t : _TreeNode.

Hypothesis t_not_root : name t ≠ "ROOT".
Hypothesis done_not_root : Forall (λ t', name t' ≠ "ROOT") done.
Hypothesis t_apart : Forall (apart names t) done.

Lemma consistent_start retval :
  consistent names done retval →
  consistent names (t :: done) (<[name t := ∅]> retval).
Proof using t_not_root t_apart.
  intros (root & Hroot & Hdone & Hrm). exists root.
  split; [by rewrite lookup_insert_ne|]. split.
  - intros t' [->|Hin]%elem_of_cons.
    + exists ∅. rewrite lookup_insert_eq. split; [done|].
      intros s r. by rewrite lookup_empty.
    + destruct (Hdone t' Hin) as (sub & Hsub & Hent). exists sub.
      rewrite Forall_forall in t_apart. destruct (t_apart t' Hin) as [Hne _].
      by rewrite lookup_insert_ne.
  - intros s r Hs. destruct (Hrm s r Hs) as (t' & Hin & Hr).
    exists t'. rewrite elem_of_cons. auto.
Qed.

Lemma consistent_assign retval x r sub root :
  in_node_range names t x →
  retval !! name t = Some sub → retval !! "ROOT" = Some root →
  consistent names (t :: done) retval →
  consistent names (t :: done)
    (<["ROOT" := <[x := r]> root]> (<[name t := <[x := r]> sub]> retval)).
Proof using t_not_root t_apart done_not_root.
  intros Hx Hsub Hroot (root' & Hroot' & Hdone & Hrm).
  assert (root' = root) as -> by congruence.
  exists (<[x := r]> root). split; [by rewrite lookup_insert_eq|].
  rewrite Forall_forall in t_apart, done_not_root.
  split.
  - intros t' Hin.
    destruct (Hdone t' Hin) as (sub' & Hsub' & Hent).
    destruct (decide (name t' = name t)) as [Heq|Hne].
    + exists (<[x := r]> sub).
      rewrite lookup_insert_ne by congruence. rewrite Heq, lookup_insert_eq.
      split; [done|]. intros s r0.
      assert (sub' = sub) as -> by congruence.
      assert (t' = t) as ->.
      { apply elem_of_cons in Hin as [->|Hin]; [done|].
        destruct (t_apart t' Hin) as [Hne _]. congruence. }
      destruct (decide (x = s)) as [->|Hxs].
      * rewrite !lookup_insert_eq. intros [= ->]. auto.
      * rewrite !lookup_insert_ne by done. apply Hent.
    + exists sub'.
      assert (name t' ≠ "ROOT").
      { apply elem_of_cons in Hin as [->|Hin]; [done|]. auto. }
      rewrite !lookup_insert_ne by done. split; [done|].
      intros s r0 Hs. destruct (Hent s r0 Hs) as [Hrange Hr0].
      split; [done|].
      assert (x ≠ s) as Hxs.
      { intros ->. apply elem_of_cons in Hin as [->|Hin]; [done|].
        destruct (t_apart t' Hin) as [_ Hdis]. by eapply Hdis. }
      by rewrite lookup_insert_ne.
  - intros s r0. destruct (decide (x = s)) as [->|Hxs].
    + intros _. exists t. rewrite elem_of_cons. auto.
    + rewrite lookup_insert_ne by done. apply Hrm.
Qed.

Lemma assign_scen_consistent ndScenList TermRanks_i k retval s retval' :
  (∀ x, x ∈ ndScenList → in_node_range names t x) →
  consistent names (t :: done) retval →
  assign_scen t ndScenList TermRanks_i k retval s = Ok retval' →
  consistent names (t :: done) retval'.
Proof using t_not_root t_apart done_not_root.
  intros Hlist Hcons. unfold assign_scen.
  destruct (range_getitem TermRanks_i k) as [r|]; [|done].
  cbn [mbind result_bind].
  destruct (lookup_key retval (name t)) as [sub0|]; [|done].
  cbn [mbind result_bind].
  destruct (getitem ndScenList s) as [x|] eqn:Hx; [|done].
  cbn [mbind result_bind].
  destruct (set_rank retval (name t) x r) as [retval1|] eqn:H1; [|done].
  cbn [mbind result_bind].
  apply set_rank_Ok in H1 as (sub & Hsub & ->).
  destruct (lookup_key _ "ROOT") as [root0|]; [|done].
  cbn [mbind result_bind].
  intros (root & Hroot & ->)%set_rank_Ok.
  rewrite lookup_insert_ne in Hroot by done.
  apply consistent_assign; [|done..].
  apply Hlist. by eapply getitem_elem.
Qed.

End Terminals.

Lemma foldM_invariant {A S} (P : S → Prop) (f : S → A → result S) l s s' :
  (∀ s x s', x ∈ l → P s → f s x = Ok s' → P s') →
  P s → foldM f s l = Ok s' → P s'.
Proof.
  revert s. induction l as [|x l IH]; intros s Hf Hs; cbn [foldM].
  - by intros [= <-].
  - destruct (f s x) as [s1|] eqn:Hfx; [|done]. cbn [mbind result_bind].
    apply IH.
    + intros s0 y s0' Hy. apply Hf. rewrite elem_of_cons. auto.
    + eapply Hf; [|done..]. rewrite elem_of_cons. auto.
Qed.

Lemma foldM_id {A S} (f : S → A → result S) l s :
  (∀ x, x ∈ l → f s x = Ok s) → foldM f s l = Ok s.
Proof.
  induction l as [|x l IH]; intros Hf; [done|]. cbn [foldM].
  rewrite Hf by (rewrite elem_of_cons; auto). cbn [mbind result_bind].
  apply IH. intros y Hy. apply Hf. rewrite elem_of_cons. auto.
Qed.

Lemma assign_terminal_consistent names TermRanks done t i retval ms retval' ms' :
  name t ≠ "ROOT" → Forall (λ t', name t' ≠ "ROOT") done →
  Forall (apart names t) done → 0 <= scenfirst t →
  consistent names done retval →
  assign_terminal names TermRanks (retval, ms) (i, t) = Ok (retval', ms') →
  consistent names (t :: done) retval'.
Proof.
  intros Hroot Hdone Hapart Hfirst Hcons. unfold assign_terminal.
  destruct (scen_list names t) as [ndScenList|] eqn:Hlist; [|done].
  cbn [mbind result_bind].
  destruct (getitem TermRanks i) as [TermRanks_i|]; [|done].
  cbn [mbind result_bind].
  destruct (truediv _ _) as [avg|]; [|done]. cbn [mbind result_bind].
  destruct (make_slices 0 avg _) as [slices|]; [|done].
  cbn [mbind result_bind].
  destruct (make_slices (scenfirst t) avg _) as [mslices|]; [|done].
  cbn [mbind result_bind].
  destruct (foldM _ _ (enumerate slices)) as [retval1|] eqn:Hfold; [|done].
  cbn [mbind result_bind]. intros [= <- _].
  revert Hfold. apply foldM_invariant.
  - intros r0 [k slist] r1 _ Hr0. apply foldM_invariant; [|done].
    intros r2 s r3 _ Hr2. eapply assign_scen_consistent; [done..| |done].
    by apply scen_list_in_range.
  - by apply consistent_start.
Qed.

Lemma assign_terminals_consistent names TermRanks
    (l : list (Z * _TreeNode)) done retval ms retval' ms' :
  Forall (λ t, name t ≠ "ROOT" ∧ 0 <= scenfirst t) l.*2 →
  Forall (λ t', name t' ≠ "ROOT") done →
  Forall (λ t, Forall (apart names t) done) l.*2 →
  separated names l.*2 →
  consistent names done retval →
  foldM (assign_terminal names TermRanks) (retval, ms) l = Ok (retval', ms') →
  consistent names (reverse l.*2 ++ done) retval'.
Proof.
  revert done retval ms.
  induction l as [|[i t] l IH]; intros done retval ms Hl Hdone Hapart Hsep Hcons.
  - cbn. by intros [= <- _].
  - cbn [foldM]. rewrite fmap_cons in *. cbn [snd] in *.
    apply Forall_cons in Hl as [[Hroot Hfirst] Hl].
    apply Forall_cons in Hapart as [Ht Hapart].
    destruct Hsep as [Htl Hsep].
    destruct (assign_terminal _ _ _ _) as [[retval1 ms1]|] eqn:Hstep; [|done].
    cbn [mbind result_bind]. intros Hfold.
    rewrite reverse_cons, <-app_assoc. cbn [app].
    eapply IH; [done| | |done| |done].
    + by constructor.
    + rewrite Forall_forall in Hapart, Htl. apply Forall_forall.
      intros t' Hin. constructor; [|by apply Hapart].
      apply apart_sym. by apply Htl.
    + by eapply assign_terminal_consistent.
Qed.

Lemma append_inj_l (p a b : string) : p +:+ a = p +:+ b → a = b.
Proof. induction p as [|c p IH]; cbn; [done|]. intros [= H]. auto. Qed.

Lemma terminal_name_inj bf0 N b b' :
  name (terminal bf0 N b) = name (terminal bf0 N b') → b = b'.
Proof.
  cbn [terminal name]. intros H%append_inj_l%append_inj_l.
  by apply (inj pretty) in H.
Qed.

Lemma terminal_not_root bf0 N b : name (terminal bf0 N b) ≠ "ROOT".
Proof. cbn. discriminate. Qed.

Lemma terminal_first_nonneg bf0 N b :
  0 <= N → 0 <= b < bf0 → 0 <= scenfirst (terminal bf0 N b).
Proof. intros HN Hb. cbn. apply Z.div_pos; nia. Qed.

Lemma terminal_apart names bf0 b b' :
  NoDup names → 0 <= b < b' → b' < bf0 →
  apart names (terminal bf0 (len names) b) (terminal bf0 (len names) b').
Proof.
  intros Hnd Hb Hb'. split.
  - intros Heq%terminal_name_inj. lia.
  - intros s (i & Hi & Hi0 & Hsi) (j & Hj & Hj0 & Hsj). cbn in Hi, Hj.
    assert (Z.to_nat i = Z.to_nat j) by (by eapply NoDup_lookup).
    assert (0 <= len names) by (unfold len; lia).
    assert ((b + 1) * len names / bf0 <= b' * len names / bf0).
    { apply Z.div_le_mono; [lia|nia]. }
    lia.
Qed.

Lemma separated_fmap names (f : Z → _TreeNode) (l : list Z) :
  StronglySorted Z.lt l →
  (∀ b b', b ∈ l → b' ∈ l → b < b' → apart names (f b) (f b')) →
  separated names (f <$> l).
Proof.
  induction 1 as [|b l Hl IH Hb]; intros Hf; [done|].
  rewrite fmap_cons. cbn [separated]. split.
  - apply Forall_fmap, Forall_forall. intros b' Hb'. cbn.
    rewrite Forall_forall in Hb.
    apply Hf; rewrite ?elem_of_cons; auto.
  - apply IH. intros b1 b2 H1 H2. apply Hf; rewrite elem_of_cons; auto.
Qed.

Lemma terminals_separated names bf0 :
  NoDup names → separated names (terminals bf0 (len names)).
Proof.
  intros Hnd. apply separated_fmap; [apply StronglySorted_seqZ|].
  intros b b' Hb%elem_of_seqZ Hb'%elem_of_seqZ Hlt.
  apply terminal_apart; [done|lia|lia].
Qed.

Lemma enumerate_snd {A} (l : list A) : (enumerate l).*2 = l.
Proof.
  unfold enumerate. apply snd_zip.
  unfold range0, len. rewrite length_seqZ. lia.
Qed.

(** On a two-stage tree the call, when it returns, has recorded under
    every node only scenarios of that node, each with the rank recorded
    under the root. *)
Lemma two_stage_assignment prod bf0 bf1 names self n_proc myrank retval ms fr :
  NoDup names →
  _ScenTree__init__ prod [bf0; bf1] names = Ok self →
  n_proc ≠ 1 →
  scen_names_to_ranks self n_proc myrank = Ok (retval, ms, fr) →
  ∀ nd, nd ∈ nonleaves self →
    ∀ s r, rank_under retval (name nd) s = Some r →
      in_node_range (ScenNames self) nd s ∧ rank_under retval "ROOT" s = Some r.
Proof.
  intros Hnd Hinit Hne Hrun.
  destruct (two_stage_tree _ _ _ _ _ Hinit)
    as (Hnames & Hbfs & Hrootnode & Hnl & Hterm).
  set (N := len names) in *.
  assert (0 <= N) as HN by (unfold N, len; lia).
  unfold scen_names_to_ranks in Hrun.
  rewrite (proj2 (Z.eqb_neq n_proc 1) Hne) in Hrun.
  rewrite Hterm, Hnl, Hnames, Hbfs in Hrun.
  destruct (truediv _ _) as [avg|]; [|done]. cbn [mbind result_bind] in Hrun.
  destruct (float_lt_int avg 1); [done|]. cbn [mbind result_bind] in Hrun.
  destruct (make_slices 0 avg _) as [TermRanks|]; [|done].
  cbn [mbind result_bind] in Hrun.
  destruct (mapM _ (enumerate (terminals bf0 N))) as [firsts|]; [|done].
  cbn [mbind result_bind] in Hrun.
  destruct (foldM (assign_terminal names TermRanks) _ _)
    as [[retval1 ms1]|] eqn:Hfold1; [|done].
  cbn [mbind result_bind] in Hrun.
  rewrite foldM_id in Hrun; cycle 1.
  { intros nd [->|Hin]%elem_of_cons.
    - rewrite Hrootnode. reflexivity.
    - unfold terminals in Hin. apply list_elem_of_fmap in Hin as (b & -> & _).
      reflexivity. }
  cbn [mbind result_bind] in Hrun. injection Hrun as <- _ _.
  apply (assign_terminals_consistent _ _ _ []) in Hfold1; cycle 1.
  - rewrite enumerate_snd. apply Forall_fmap, Forall_forall.
    intros b Hb%elem_of_seqZ. split; [apply terminal_not_root|].
    apply terminal_first_nonneg; lia.
  - constructor.
  - rewrite enumerate_snd. apply Forall_forall. intros; constructor.
  - rewrite enumerate_snd. by apply terminals_separated.
  - exists ∅. split; [by rewrite lookup_insert_eq|].
    split; [by intros ? ?%elem_of_nil|]. intros s r. by rewrite lookup_empty.
  - rewrite enumerate_snd, app_nil_r in Hfold1.
    destruct Hfold1 as (root & Hroot & Hdone & Hrm).
    intros nd Hin s r Hrec. unfold rank_under in *. rewrite Hroot. cbn.
    rewrite Hnl in Hin. apply elem_of_cons in Hin as [->|Hin].
    + rewrite Hrootnode in *. cbn [name] in Hrec. rewrite Hroot in Hrec.
      cbn in Hrec. split; [|done].
      destruct (Hrm s r Hrec) as (t & _ & i & Hi & Hi0 & Hs).
      exists i. cbn [scenfirst scenlast]. rewrite Hnames.
      apply lookup_lt_Some in Hs as Hlt. unfold N, len. split; [lia|done].
    + destruct (Hdone nd) as (sub & Hsub & Hent);
        [by rewrite elem_of_reverse|].
      rewrite Hsub in Hrec. cbn in Hrec. rewrite Hnames. by apply Hent.
Qed.




(** *** What the amended statement leaves out *)

(** Inside a terminal node the slices are computed as in the flat
    partition, with the same rounding: for one terminal node of 61
    scenarios and 7 ranks, scenario 59 gets rank 6 and scenario 60 none. *)
Lemma rounding_omits_a_scenario :
  (tree ← _ScenTree__init__ product [1; 61] (ID_names 61);
   '(retval, _, _) ← scen_names_to_ranks tree 7 0;
   Ok (rank_under retval "ROOT" "ID59", rank_under retval "ROOT" "ID60"))
  = Ok (Some 6, None).
Proof. vm_compute. reflexivity. Qed.

(** On a three-stage tree the terminal nodes below [ROOT_1] carry the
    ranges of those below [ROOT_0], so the root never learns the
    scenarios 4 to 7 and copying them for [ROOT_1] fails. *)
Lemma three_stage_assignment_raises :
  (tree ← _ScenTree__init__ product [2; 2; 2] (ID_names 8);
   scen_names_to_ranks tree 4 0)
  = Raise (KeyError "ID4").
Proof. vm_compute. reflexivity. Qed.

(** With four stages the first rank of an inner node is read from its
    first child before that child, itself an inner node, has one. *)
Lemma four_stage_assignment_raises :
  (tree ← _ScenTree__init__ product [1; 1; 2; 2] (ID_names 4);
   scen_names_to_ranks tree 4 0)
  = Raise (KeyError "ROOT_0_0").
Proof. vm_compute. reflexivity. Qed.

(** ** Construction of the tree always succeeds under its assertions *)

Lemma mapM_returns {A B} (f : A → result B) (l : list A) :
  (∀ x, x ∈ l → returns (f x)) → returns (mapM f l).
Proof.
  induction l as [|x l IH]; intros Hf; [by eexists|].
  cbn [mapM]. destruct (Hf x) as [y ->]; [rewrite elem_of_cons; auto|].
  cbn [mbind result_bind]. destruct IH as [k ->]; [|by eexists].
  intros z Hz. apply Hf. rewrite elem_of_cons. auto.
Qed.

Lemma getitem_returns {A} (l : list A) i : 0 <= i < len l → returns (getitem l i).
Proof.
  intros Hi. unfold getitem. rewrite !(proj2 (Z.ltb_ge i 0)) by lia.
  destruct (lookup_lt_is_Some_2 l (Z.to_nat i)) as [x ->]; [|by eexists].
  unfold len in Hi. lia.
Qed.

(** A node at stage [parent_stage + 1] below the last stage is built,
    whatever its range and name, when the fuel covers the stages left. *)
Lemma _TreeNode__init___returns fuel parent_stage first last BFs nm :
  0 <= parent_stage + 1 < len BFs →
  len BFs - (parent_stage + 1) <= Z.of_nat fuel →
  returns (_TreeNode__init__ fuel (Some parent_stage) first last BFs nm).
Proof.
  revert parent_stage first last nm.
  induction fuel as [|fuel IH]; intros ps first last nm Hs Hfuel; [lia|].
  cbn [_TreeNode__init__ mbind result_bind].
  destruct (getitem_returns BFs (ps + 1) Hs) as [bf ->].
  cbn [mbind result_bind].
  destruct (Z.ltb_spec (ps + 1) (len BFs - 1)) as [Hlt|Hge].
  - destruct (mapM_returns
                (λ b, _TreeNode__init__ fuel (Some (ps + 1))
                        (b * (last - first + 1) / bf)
                        ((b + 1) * (last - first + 1) / bf - 1) BFs
                        (nm +:+ "_" +:+ str b)) (range0 bf)) as [ks Hks].
    { intros b _. apply IH; lia. }
    rewrite Hks. by eexists.
  - by eexists.
Qed.

Lemma _ScenTree__init___returns prod BFs ScenNames :
  len ScenNames = prod BFs → 1 < len BFs →
  returns (_ScenTree__init__ prod BFs ScenNames).
Proof.
  intros Hprod Hlen. unfold _ScenTree__init__.
  rewrite (proj2 (Z.eqb_eq _ _) Hprod). cbn [assert mbind result_bind].
  rewrite (proj2 (Z.ltb_lt _ _) Hlen). cbn [assert mbind result_bind].
  assert (returns (_TreeNode__init__ (length BFs) None 0 (len ScenNames - 1)
                     BFs "ROOT")) as [root ->]; [|by eexists].
  destruct BFs as [|bf BFs'] eqn:HBFs; [unfold len in Hlen; cbn in Hlen; lia|].
  rewrite <-HBFs in *.
  assert (length BFs = S (length BFs')) as -> by (by rewrite HBFs).
  cbn [_TreeNode__init__]. rewrite decide_True by done.
  cbn [mbind result_bind].
  destruct (getitem_returns BFs 0) as [bf0 ->]; [lia|].
  cbn [mbind result_bind].
  rewrite (proj2 (Z.ltb_lt 0 (len BFs - 1))) by lia.
  destruct (mapM_returns
              (λ b, _TreeNode__init__ (length BFs') (Some 0)
                      (b * (len ScenNames - 1 - 0 + 1) / bf0)
                      ((b + 1) * (len ScenNames - 1 - 0 + 1) / bf0 - 1) BFs
                      ("ROOT" +:+ "_" +:+ str b)) (range0 bf0)) as [ks Hks].
  { intros b _. apply _TreeNode__init___returns; [lia|].
    rewrite HBFs. unfold len. cbn [length]. lia. }
  rewrite Hks. by eexists.
Qed.

(** On a two-stage tree the children of the root do partition its range:
    they are consecutive, from 0 to the last scenario. *)
Lemma two_stage_children_partition bf0 N :
  0 < bf0 →
  scenfirst (terminal bf0 N 0) = 0 ∧
  scenlast (terminal bf0 N (bf0 - 1)) = N - 1 ∧
  ∀ b, scenfirst (terminal bf0 N (b + 1)) = scenlast (terminal bf0 N b) + 1.
Proof.
  intros Hbf. cbn [terminal scenfirst scenlast].
  split; [done|]. split.
  - replace (bf0 - 1 + 1) with bf0 by lia. rewrite Z.mul_comm, Z.div_mul; lia.
  - intros b. lia.
Qed.

(** ** The shape of a flat partition *)

(** Whatever the rounding, the ranges that [make_slices] returns are as
    many as requested and each starts where the previous one stops. *)
Lemma make_slices_contiguous offset avg n slices :
  make_slices offset avg n = Ok slices →
  len slices = Z.max 0 n ∧
  ∀ (i : nat) r r', slices !! i = Some r → slices !! S i = Some r' →
    start r' = stop r.
Proof.
  intros Hm%mapM_Ok_inv. split.
  - apply Forall2_length in Hm. unfold len. rewrite <-Hm.
    unfold range0. rewrite length_seqZ. lia.
  - intros i r r' Hr Hr'.
    destruct (Forall2_lookup_r _ _ _ _ _ Hm Hr) as (b & Hb & Hsl).
    destruct (Forall2_lookup_r _ _ _ _ _ Hm Hr') as (b' & Hb' & Hsl').
    apply lookup_seqZ in Hb as [-> _]. apply lookup_seqZ in Hb' as [-> _].
    unfold slice_at in *.
    replace (0 + Z.of_nat (S i)) with (0 + Z.of_nat i + 1) in Hsl' by lia.
    destruct (int_scaled (0 + Z.of_nat i) avg) as [lo|]; [|done].
    cbn [mbind result_bind] in Hsl.
    destruct (int_scaled (0 + Z.of_nat i + 1) avg) as [hi|]; [|done].
    cbn [mbind result_bind] in Hsl, Hsl'.
    destruct (int_scaled (0 + Z.of_nat i + 1 + 1) avg) as [hi'|]; [|done].
    cbn [mbind result_bind] in Hsl'.
    injection Hsl as <-. injection Hsl' as <-. done.
Qed.

(* ================================================================== *)
(** * Part III: further properties of the code *)
(* ================================================================== *)

(** ** The orchestrator on its error paths *)

Lemma default_key_present d k s :
  has_key s d k → default_key d k s = (Ok (), s).
Proof.
  intros (m & Hm & Hk). unfold default_key, mbind, M_bind, dict_contains.
  rewrite Hm. by rewrite bool_decide_eq_true_2.
Qed.

(** X1.  A world whose size is not a multiple of [len(list_of_spoke_dict) + 1]
    makes [spin_the_wheel] raise the error of [make_comms] with no split
    and no constructor call logged; by then the validation has bound
    every [..._kwargs] key in the caller's dictionaries. *)
Theorem wrong_world_size_after_defaults CW hub_dict list_of_spoke_dict comm_world s :
  allocated s hub_dict → Forall (allocated s) list_of_spoke_dict →
  config_ok s hub_dict list_of_spoke_dict →
  Get_size (default CW comm_world) mod (len list_of_spoke_dict + 1) ≠ 0 →
  ∃ s',
    spin_the_wheel CW hub_dict list_of_spoke_dict comm_world s =
      (Raise (RuntimeError
                ("Need a multiple of " +:+ str (len list_of_spoke_dict + 1) +:+
                 " processes (got " +:+
                 str (Get_size (default CW comm_world)) +:+ ")")), s') ∧
    log s' = log s ∧
    has_key s' hub_dict "hub_kwargs" ∧ has_key s' hub_dict "opt_kwargs" ∧
    Forall (λ d, has_key s' d "spoke_kwargs" ∧ has_key s' d "opt_kwargs")
           list_of_spoke_dict.
Proof.
  intros Hhub Hspokes Hok Hmul.
  destruct (check_dicts_run hub_dict list_of_spoke_dict s Hhub Hspokes)
    as [[Hbad _]|(_ & s1 & Hr1 & Hf & Hk1 & Hk2 & Hks)];
    [destruct (config_ok_not_bad _ _ _ Hok Hbad)|].
  exists s1. split; [|split; [by apply (filled_log _ _ _ Hf)|done]].
  unfold spin_the_wheel. erewrite bind_ok by exact Hr1.
  erewrite bind_raise; [done|].
  apply (make_comms_not_multiple CW (len list_of_spoke_dict)
           (Some (default CW comm_world)) s1); [unfold len; lia|done].
Qed.

Lemma demo_allocated :
  allocated demo_state 0%nat ∧ Forall (allocated demo_state) [1%nat; 2%nat].
Proof. split; [by eexists|]. repeat constructor; by eexists. Qed.

Lemma wrong_world_size_after_defaults_witness :
  ∃ s',
    spin_the_wheel (COMM 5 4) 0%nat [1%nat; 2%nat] None demo_state =
      (Raise (RuntimeError "Need a multiple of 3 processes (got 5)"), s') ∧
    log s' = log demo_state ∧ has_key s' 0%nat "hub_kwargs".
Proof.
  destruct (wrong_world_size_after_defaults
              (COMM 5 4) 0%nat [1%nat; 2%nat] None demo_state)
    as (s' & Hrun & Hlog & Hk & _).
  - exact (proj1 demo_allocated).
  - exact (proj2 demo_allocated).
  - exact demo_config_ok.
  - vm_compute. discriminate.
  - exists s'. split; [exact Hrun|]. split; [exact Hlog|exact Hk].
Defined.

(** X2.  The validation is not atomic: when the hub dictionary passes and a
    spoke dictionary lacks a required key, [spin_the_wheel] raises, yet
    the hub dictionary has already received its [..._kwargs] defaults. *)
Theorem failed_validation_keeps_defaults CW hub_dict list_of_spoke_dict comm_world s :
  allocated s hub_dict → Forall (allocated s) list_of_spoke_dict →
  has_key s hub_dict "hub_class" → has_key s hub_dict "opt_class" →
  Exists (λ d, lacks_key s d "spoke_class" ∨ lacks_key s d "opt_class")
         list_of_spoke_dict →
  ∃ msg s',
    spin_the_wheel CW hub_dict list_of_spoke_dict comm_world s
      = (Raise (RuntimeError msg), s') ∧
    msg ∈ spoke_msgs ∧
    has_key s' hub_dict "hub_kwargs" ∧ has_key s' hub_dict "opt_kwargs".
Proof.
  intros Hhub Hspokes Hc Ho Hex. set (P := targets hub_dict list_of_spoke_dict).
  assert (∀ d k, (d, k) ∈ P → allocated s d) as HP.
  { intros d k [->|Hd]%targets_dicts; [done|].
    rewrite Forall_forall in Hspokes. auto. }
  destruct (default_key_run P hub_dict "hub_kwargs" s Hhub) as (s1 & Hr1 & Hf1 & Hk1);
    [apply targets_hub; auto|].
  assert (allocated s1 hub_dict) as Hhub1 by (by eapply filled_allocated).
  destruct (default_key_run P hub_dict "opt_kwargs" s1 Hhub1) as (s2 & Hr2 & Hf2 & Hk2);
    [apply targets_hub; auto|].
  assert (filled P s s2) as Hf by (by eapply filled_trans).
  assert (∀ d k, (d, k) ∈ P → allocated s2 d) as HP2.
  { intros d k Hin. eapply filled_allocated; [done|]. by eapply HP. }
  destruct (check_spokes_run P (targets_keys hub_dict list_of_spoke_dict)
              list_of_spoke_dict s2)
    as [(_ & msg & s' & Hmsg & Hr & Hf')|(Hall & _)].
  { intros d Hd. split; apply targets_spoke; auto. }
  { done. }
  - exists msg, s'. split.
    + unfold spin_the_wheel, check_dicts.
      erewrite bind_raise; [done|].
      erewrite bind_ok by (by apply require_key_has).
      erewrite bind_ok by (by apply require_key_has).
      erewrite bind_ok by exact Hr1.
      erewrite bind_ok by exact Hr2. exact Hr.
    + split; [done|]. split.
      * exact (filled_has_key P _ _ _ _ Hf' (filled_has_key P _ _ _ _ Hf2 Hk1)).
      * exact (filled_has_key P _ _ _ _ Hf' Hk2).
  - exfalso. apply Exists_exists in Hex as (d & Hd & Hbad).
    rewrite Forall_forall in Hall. destruct (Hall d Hd) as [Hc' Ho'].
    pose proof (filled_spoke_bad P (targets_keys hub_dict list_of_spoke_dict)
                  _ _ _ Hf Hbad) as [Hb|Hb];
      [exact (has_not_lacks _ _ _ Hc' Hb)|exact (has_not_lacks _ _ _ Ho' Hb)].
Qed.

Lemma failed_validation_keeps_defaults_witness :
  ∃ msg s',
    spin_the_wheel (COMM 6 4) 0%nat [1%nat; 4%nat] None demo_state
      = (Raise (RuntimeError msg), s') ∧
    msg ∈ spoke_msgs ∧
    has_key s' 0%nat "hub_kwargs" ∧ has_key s' 0%nat "opt_kwargs".
Proof.
  apply (failed_validation_keeps_defaults (COMM 6 4) 0%nat [1%nat; 4%nat] None
           demo_state).
  - by eexists.
  - repeat constructor; by eexists.
  - eexists. split; [reflexivity|]. vm_compute. eauto.
  - eexists. split; [reflexivity|]. vm_compute. eauto.
  - apply Exists_cons_tl, Exists_cons_hd. left.
    eexists. split; [reflexivity|]. vm_compute. reflexivity.
Defined.

Lemma check_spoke_complete d s :
  spoke_ok s d → has_key s d "spoke_kwargs" → has_key s d "opt_kwargs" →
  check_spoke d s = (Ok (), s).
Proof.
  intros [Hc Ho] Hk1 Hk2. unfold check_spoke.
  erewrite bind_ok by (by apply require_key_has).
  erewrite bind_ok by (by apply require_key_has).
  erewrite bind_ok by (by apply default_key_present).
  by apply default_key_present.
Qed.

Lemma check_spokes_complete l s :
  Forall (λ d, spoke_ok s d ∧ has_key s d "spoke_kwargs" ∧ has_key s d "opt_kwargs") l →
  for_each l check_spoke s = (Ok (), s).
Proof.
  induction 1 as [|d l (Hok & Hk1 & Hk2) _ IH]; [done|].
  cbn [for_each]. erewrite bind_ok by (by apply check_spoke_complete). exact IH.
Qed.

(** X3.  The validation reaches a fixed point in one pass: on the state left
    by a successful [check_dicts], a second [check_dicts] over the same
    dictionaries succeeds and changes nothing. *)
Theorem check_dicts_idempotent hub_dict list_of_spoke_dict s :
  allocated s hub_dict → Forall (allocated s) list_of_spoke_dict →
  config_ok s hub_dict list_of_spoke_dict →
  ∃ s1, check_dicts hub_dict list_of_spoke_dict s = (Ok (), s1) ∧
        check_dicts hub_dict list_of_spoke_dict s1 = (Ok (), s1).
Proof.
  intros Hhub Hspokes Hok.
  destruct (check_dicts_run hub_dict list_of_spoke_dict s Hhub Hspokes)
    as [[Hbad _]|(_ & s1 & Hr1 & Hf & Hk1 & Hk2 & Hks)];
    [destruct (config_ok_not_bad _ _ _ Hok Hbad)|].
  exists s1. split; [done|]. destruct Hok as (Hc & Ho & Hsp).
  unfold check_dicts.
  erewrite bind_ok by (eapply require_key_has, filled_has_key; eauto).
  erewrite bind_ok by (eapply require_key_has, filled_has_key; eauto).
  erewrite bind_ok by (by apply default_key_present).
  erewrite bind_ok by (by apply default_key_present).
  apply check_spokes_complete.
  rewrite Forall_forall in Hsp, Hks. apply Forall_forall. intros d Hd.
  destruct (Hsp d Hd) as [H1 H2]. destruct (Hks d Hd) as [H3 H4].
  repeat split; try done; eapply filled_has_key; eauto.
Qed.

Lemma check_dicts_idempotent_witness :
  ∃ s1, check_dicts 0%nat [1%nat; 2%nat] demo_state = (Ok (), s1) ∧
        check_dicts 0%nat [1%nat; 2%nat] s1 = (Ok (), s1).
Proof.
  apply (check_dicts_idempotent 0%nat [1%nat; 2%nat] demo_state).
  - exact (proj1 demo_allocated).
  - exact (proj2 demo_allocated).
  - exact demo_config_ok.
Defined.

(** ** The two communicators together *)

(** X4.  The cylinder communicator and the role communicator of a process
    have exactly that process in common, and its world rank is recovered
    from its two ranks: [rank_intra * (n_spokes + 1) + rank_inter]. *)
Theorem make_comms_orthogonal (n_spokes W g : Z) s :
  0 <= n_spokes → W mod (n_spokes + 1) = 0 → 0 <= g < W →
  ∃ intercomm intracomm s',
    make_comms (COMM W g) n_spokes None s = (Ok (intercomm, intracomm), s') ∧
    (∀ p, p ∈ members intercomm ∧ p ∈ members intracomm ↔ p = g) ∧
    g = Get_rank intracomm * (n_spokes + 1) + Get_rank intercomm.
Proof.
  intros Hsp Hmul Hg. set (n := n_spokes + 1).
  assert (0 < n) as Hn by (unfold n; lia).
  assert (0 <= W) as HW by lia.
  eexists _, _, _. split.
  { apply make_comms_ok; [fold n; lia|].
    cbn [default from_option id]. by rewrite Get_size_COMM. }
  cbn [default from_option id]. fold n.
  rewrite members_intercomm, members_intracomm by done.
  rewrite rank_in_intercomm, rank_in_intracomm by done.
  pose proof (Z.div_mod g n ltac:(lia)) as Hdm.
  pose proof (Z.mod_pos_bound g n Hn) as Hmod.
  split; [|lia]. intros p. rewrite elem_of_seqZ, list_elem_of_fmap. split.
  - intros [Hp (c & -> & Hc)].
    assert (c = g / n) as -> by nia. lia.
  - intros ->. split; [nia|]. exists (g / n). split; [lia|].
    apply elem_of_seqZ.
    assert (0 <= g / n) by (apply Z.div_pos; lia).
    assert (g / n < W / n); [|lia].
    apply Z.div_lt_upper_bound; [lia|].
    pose proof (world_rows n W Hn Hmul). nia.
Qed.

Lemma make_comms_orthogonal_witness :
  ∃ intercomm intracomm s',
    make_comms (COMM 6 4) 2 None demo_state = (Ok (intercomm, intracomm), s') ∧
    (∀ p, p ∈ members intercomm ∧ p ∈ members intracomm ↔ p = 4) ∧
    4 = Get_rank intracomm * (2 + 1) + Get_rank intercomm.
Proof.
  apply (make_comms_orthogonal 2 6 4 demo_state); [lia|reflexivity|lia].
Defined.

(** ** Progress of the lifecycle *)

Lemma lifecycle_events_NoDup r g : NoDup (lifecycle_events r g).
Proof.
  unfold lifecycle_events.
  destruct (r =? 0), (g =? 0); by apply (bool_decide_unpack _); vm_compute.
Qed.

Lemma lifecycle_events_barrier r g : EBarrier ∈ lifecycle_events r g.
Proof.
  unfold lifecycle_events.
  destruct (r =? 0), (g =? 0); by apply (bool_decide_unpack _); vm_compute.
Qed.



(** ** The flat partition in general *)

Lemma int_scaled_0 avg v : int_scaled 0 avg = Ok v → v = 0.
Proof.
  unfold int_scaled, int_mul_float, float_of_int.
  cbn [binary_normalize mbind result_bind].
  destruct avg as [sg|sg| |sg m e]; cbn; by intros [= <-].
Qed.

(** X6.  Whenever the two-stage branch of [scens_to_ranks] returns, it returns
    no rank map and one range per process, [max(0, n_proc)] of them; the
    first range starts at 0 and every range starts where the one before
    it stops. *)
Theorem flat_partition_shape prod scen_count n_proc rank sl rm :
  scens_to_ranks prod scen_count n_proc rank None = Ok (sl, rm) →
  rm = None ∧ n_proc <= scen_count ∧ n_proc ≠ 0 ∧
  ∃ slices, sl = FlatSlices slices ∧ len slices = Z.max 0 n_proc ∧
    (∀ r, slices !! 0%nat = Some r → start r = 0) ∧
    (∀ (i : nat) r r', slices !! i = Some r → slices !! S i = Some r' →
       start r' = stop r).
Proof.
  unfold scens_to_ranks.
  destruct (Z.ltb_spec scen_count n_proc) as [|Hge]; [done|].
  cbn [mbind result_bind].
  destruct (truediv scen_count n_proc) as [avg|] eqn:Havg; [|done].
  cbn [mbind result_bind].
  destruct (make_slices 0 avg n_proc) as [slices|] eqn:Hsl; [|done].
  cbn [mbind result_bind]. intros [= <- <-].
  split; [done|]. split; [done|].
  split; [by intros ->; destruct scen_count|].
  exists slices. split; [done|].
  destruct (make_slices_contiguous _ _ _ _ Hsl) as [Hlen Hnext].
  split; [done|]. split; [|done].
  intros r Hr. apply mapM_Ok_inv in Hsl.
  destruct (Forall2_lookup_r _ _ _ _ _ Hsl Hr) as (b & Hb & Hs).
  apply lookup_seqZ in Hb as [-> _]. unfold slice_at in Hs.
  change (0 + Z.of_nat 0) with 0 in Hs.
  destruct (int_scaled 0 avg) as [lo|] eqn:Hlo; [|done].
  apply int_scaled_0 in Hlo as ->. cbn [mbind result_bind] in Hs.
  destruct (int_scaled _ avg); [|done]. by injection Hs as <-.
Qed.

Lemma flat_partition_shape_witness :
  scens_to_ranks product 6 3 0 None
    = Ok (FlatSlices [Range 0 2; Range 2 4; Range 4 6], None) ∧
  ∃ slices, FlatSlices [Range 0 2; Range 2 4; Range 4 6] = FlatSlices slices ∧
            len slices = Z.max 0 3.
Proof.
  split; [reflexivity|].
  destruct (flat_partition_shape product 6 3 0
              (FlatSlices [Range 0 2; Range 2 4; Range 4 6]) None eq_refl)
    as (_ & _ & _ & slices & Hs & Hlen & _).
  exists slices. split; [exact Hs|exact Hlen].
Defined.

(** X7.  With no process at all, and a scenario count that is not negative,
    the two-stage branch of [scens_to_ranks] divides by zero. *)
Theorem flat_partition_zero_processes prod scen_count rank :
  0 <= scen_count →
  scens_to_ranks prod scen_count 0 rank None = Raise ZeroDivisionError.
Proof.
  intros Hge. unfold scens_to_ranks.
  by rewrite (proj2 (Z.ltb_ge scen_count 0) Hge).
Qed.

Lemma flat_partition_zero_processes_witness :
  0 <= 5 ∧ scens_to_ranks product 5 0 0 None = Raise ZeroDivisionError.
Proof. split; [lia|]. apply (flat_partition_zero_processes product 5 0). lia. Defined.

(** ** Construction of the tree in general *)

(** X8.  [_ScenTree.__init__] returns a tree exactly when its two assertions
    hold, and raises [AssertionError] otherwise: building the nodes
    never fails. *)
Theorem _ScenTree__init___outcome prod BFs ScenNames :
  (len ScenNames = prod BFs ∧ 1 < len BFs ↔
     returns (_ScenTree__init__ prod BFs ScenNames)) ∧
  (¬ (len ScenNames = prod BFs ∧ 1 < len BFs) ↔
     _ScenTree__init__ prod BFs ScenNames = Raise AssertionError).
Proof.
  assert (¬ (len ScenNames = prod BFs ∧ 1 < len BFs) →
          _ScenTree__init__ prod BFs ScenNames = Raise AssertionError) as Hbad.
  { intros Hn. unfold _ScenTree__init__.
    destruct (Z.eqb_spec (len ScenNames) (prod BFs)) as [He|]; [|done].
    cbn [assert mbind result_bind].
    destruct (Z.ltb_spec 1 (len BFs)); [|done]. by destruct Hn. }
  split; split.
  - intros [? ?]. by apply _ScenTree__init___returns.
  - intros [t Ht].
    destruct (decide (len ScenNames = prod BFs ∧ 1 < len BFs)) as [|Hn]; [done|].
    rewrite (Hbad Hn) in Ht. done.
  - done.
  - intros Hr [He Hl].
    destruct (_ScenTree__init___returns prod BFs ScenNames He Hl) as [t Ht].
    rewrite Hr in Ht. done.
Qed.

(** ** Every node of a constructed tree *)

Lemma flat_map_bind {A B} (f : A → list B) (l : list A) : flat_map f l = l ≫= f.
Proof. induction l as [|x l IH]; [done|]. csimpl. by rewrite <-IH. Qed.

Lemma _nonleaves_unfold bfs nd :
  _nonleaves bfs nd =
    nd :: (if stage nd <? len bfs - 1 then kids nd ≫= _nonleaves bfs else []).
Proof.
  destruct nd as [f l n s ks]. cbn [_nonleaves stage kids].
  by rewrite flat_map_bind.
Qed.

Lemma _TreeNode__init___unfold fuel Parent first last bfs nm nd :
  _TreeNode__init__ (S fuel) Parent first last bfs nm = Ok nd →
  let st := from_option (λ p, p + 1) 0 Parent in
  scenfirst nd = first ∧ scenlast nd = last ∧ name nd = nm ∧ stage nd = st ∧
  (Parent = None → nm = "ROOT") ∧
  ∃ bf, getitem bfs st = Ok bf ∧
    if st <? len bfs - 1
    then Forall2 (λ b k,
           _TreeNode__init__ fuel (Some st)
             (b * (last - first + 1) / bf) ((b + 1) * (last - first + 1) / bf - 1)
             bfs (nm +:+ "_" +:+ str b) = Ok k) (range0 bf) (kids nd)
    else kids nd = [].
Proof.
  intros Hnd st. cbn [_TreeNode__init__] in Hnd.
  assert (match Parent with
          | Some parent_stage => Ok (parent_stage + 1)
          | None => if decide (nm = "ROOT") then Ok 0 else Raise AssertionError
          end = Ok st ∧ (Parent = None → nm = "ROOT")) as [Hst Hroot].
  { destruct Parent as [ps|]; [done|].
    destruct (decide (nm = "ROOT")); [done|]. done. }
  rewrite Hst in Hnd. cbn [mbind result_bind] in Hnd.
  destruct (getitem bfs st) as [bf|] eqn:Hbf; [|done].
  cbn [mbind result_bind] in Hnd.
  destruct (st <? len bfs - 1) eqn:Hlt.
  - destruct (mapM _ (range0 bf)) as [ks|] eqn:Hks; [|done].
    cbn [mbind result_bind] in Hnd. injection Hnd as <-.
    cbn [scenfirst scenlast name stage kids].
    repeat (split; [done|]). exists bf. split; [done|].
    by apply mapM_Ok_inv in Hks.
  - cbn [mbind result_bind] in Hnd. injection Hnd as <-.
    cbn [scenfirst scenlast name stage kids].
    repeat (split; [done|]). by exists bf.
Qed.

Lemma _TreeNode__init___root fuel Parent first last bfs nm nd :
  _TreeNode__init__ fuel Parent first last bfs nm = Ok nd →
  scenfirst nd = first ∧ scenlast nd = last ∧ name nd = nm ∧
  stage nd = from_option (λ p, p + 1) 0 Parent.
Proof.
  destruct fuel as [|fuel]; [done|].
  intros H. by apply _TreeNode__init___unfold in H as (? & ? & ? & ? & _).
Qed.

(** Induction over the nodes that the constructor returns: a property
    holds of such a node when it follows from the node's branching
    factor and from the property of the kids that were appended. *)
Lemma built_ind bfs (Q : _TreeNode → Prop) :
  (∀ nd bf, built bfs nd → getitem bfs (stage nd) = Ok bf →
     (if stage nd <? len bfs - 1
      then Forall2 (λ b k, child_of nd bf b k ∧ built bfs k ∧ Q k)
                   (range0 bf) (kids nd)
      else kids nd = []) → Q nd) →
  ∀ nd, built bfs nd → Q nd.
Proof.
  intros HQ nd (fuel & Parent & first & last & nm & Hnd).
  revert Parent first last nm nd Hnd.
  induction fuel as [|fuel IH]; [done|]. intros Parent first last nm nd Hnd.
  pose proof (_TreeNode__init___unfold _ _ _ _ _ _ _ Hnd)
    as (Hf & Hl & Hn & Hs & _ & bf & Hbf & Hkids).
  rewrite <-Hs in Hbf, Hkids.
  apply (HQ nd bf); [by eexists _, _, _, _, _|done|].
  destruct (stage nd <? len bfs - 1); [|done].
  eapply Forall2_impl; [exact Hkids|]. intros b k Hk. cbn beta in Hk.
  split; [|split; [by eexists _, _, _, _, _|by eapply IH]].
  apply _TreeNode__init___root in Hk as (Hkf & Hkl & Hkn & Hks).
  unfold child_of, numscens. cbn [from_option] in Hks.
  rewrite Hkf, Hkl, Hkn, Hks, Hf, Hl, Hn. done.
Qed.

Lemma built_shape bfs nd :
  built bfs nd →
  ∃ bf, getitem bfs (stage nd) = Ok bf ∧
    if stage nd <? len bfs - 1
    then Forall2 (λ b k, child_of nd bf b k ∧ built bfs k) (range0 bf) (kids nd)
    else kids nd = [].
Proof.
  revert nd. apply built_ind. intros nd bf _ Hbf Hkids. exists bf. split; [done|].
  destruct (stage nd <? len bfs - 1); [|done].
  eapply Forall2_impl; [exact Hkids|]. naive_solver.
Qed.

Lemma built_kid bfs nd bf (i : nat) k :
  built bfs nd → stage nd < len bfs - 1 → getitem bfs (stage nd) = Ok bf →
  kids nd !! i = Some k →
  0 <= Z.of_nat i < bf ∧ child_of nd bf (Z.of_nat i) k ∧ built bfs k.
Proof.
  intros (bf' & Hbf' & Hkids)%built_shape Hlt Hbf Hk.
  rewrite Hbf in Hbf'. injection Hbf' as <-.
  rewrite (proj2 (Z.ltb_lt _ _) Hlt) in Hkids.
  destruct (Forall2_lookup_r _ _ _ _ _ Hkids Hk) as (b & Hb & Hc & Hbuilt).
  apply lookup_seqZ in Hb as [-> Hi]. split; [lia|]. done.
Qed.

Lemma built_kids_length bfs nd bf :
  built bfs nd → stage nd < len bfs - 1 → getitem bfs (stage nd) = Ok bf →
  len (kids nd) = Z.max 0 bf.
Proof.
  intros (bf' & Hbf' & Hkids)%built_shape Hlt Hbf.
  rewrite Hbf in Hbf'. injection Hbf' as <-.
  rewrite (proj2 (Z.ltb_lt _ _) Hlt) in Hkids.
  apply Forall2_length in Hkids. unfold len. rewrite <-Hkids.
  unfold range0. rewrite length_seqZ. lia.
Qed.

(** A property of the root that passes from every node to its kids holds
    of all the nodes that [_nonleaves] lists. *)
Lemma nonleaves_closure bfs (P : _TreeNode → Prop) :
  (∀ p bf b k, P p → built bfs p → stage p < len bfs - 1 →
     getitem bfs (stage p) = Ok bf → 0 <= b < bf → child_of p bf b k → P k) →
  ∀ nd, built bfs nd → P nd → Forall P (_nonleaves bfs nd).
Proof.
  intros Hstep.
  apply (built_ind bfs (λ nd, P nd → Forall P (_nonleaves bfs nd))).
  intros nd bf Hb Hbf Hkids HP. rewrite _nonleaves_unfold. constructor; [done|].
  destruct (Z.ltb_spec (stage nd) (len bfs - 1)); [|constructor].
  apply Forall_bind, Forall_forall. intros k Hk.
  apply list_elem_of_lookup_1 in Hk as [i Hi].
  destruct (Forall2_lookup_r _ _ _ _ _ Hkids Hi) as (b & Hbi & Hc & _ & HQ).
  apply HQ. apply lookup_seqZ in Hbi as [-> ?].
  eapply (Hstep nd bf); eauto; lia.
Qed.

Lemma nonleaves_built bfs nd :
  built bfs nd → Forall (built bfs) (_nonleaves bfs nd).
Proof.
  revert nd. apply built_ind. intros nd bf Hb Hbf Hkids.
  rewrite _nonleaves_unfold. constructor; [done|].
  destruct (stage nd <? len bfs - 1); [|constructor].
  apply Forall_bind, Forall_forall. intros k Hk.
  apply list_elem_of_lookup_1 in Hk as [i Hi].
  by destruct (Forall2_lookup_r _ _ _ _ _ Hkids Hi) as (b & _ & _ & _ & HQ).
Qed.

Lemma nonleaves_self bfs nd : nd ∈ _nonleaves bfs nd.
Proof. rewrite _nonleaves_unfold. apply list_elem_of_here. Qed.

Lemma nonleaves_kids bfs nd :
  built bfs nd →
  ∀ p k, p ∈ _nonleaves bfs nd → stage p < len bfs - 1 → k ∈ kids p →
         k ∈ _nonleaves bfs nd.
Proof.
  revert nd.
  apply (built_ind bfs (λ nd, ∀ p k, p ∈ _nonleaves bfs nd →
           stage p < len bfs - 1 → k ∈ kids p → k ∈ _nonleaves bfs nd)).
  intros nd bf Hb Hbf Hkids p k Hp Hlt Hk.
  rewrite _nonleaves_unfold in Hp |- *.
  apply elem_of_cons in Hp as [->|Hp].
  - rewrite (proj2 (Z.ltb_lt _ _) Hlt). apply list_elem_of_further.
    apply list_elem_of_bind. exists k. split; [apply nonleaves_self|done].
  - destruct (stage nd <? len bfs - 1); [|by apply elem_of_nil in Hp].
    apply list_elem_of_further.
    apply list_elem_of_bind in Hp as (kid & Hp & Hkid).
    apply list_elem_of_bind. exists kid. split; [|done].
    apply list_elem_of_lookup_1 in Hkid as [i Hi].
    destruct (Forall2_lookup_r _ _ _ _ _ Hkids Hi) as (b & _ & _ & _ & HQ).
    by eapply HQ.
Qed.

Lemma _ScenTree__init___fields prod bfs names tree :
  _ScenTree__init__ prod bfs names = Ok tree →
  len names = prod bfs ∧ 1 < len bfs ∧
  ScenNames tree = names ∧ BFs tree = bfs ∧
  built bfs (rootnode tree) ∧
  name (rootnode tree) = "ROOT" ∧ stage (rootnode tree) = 0 ∧
  scenfirst (rootnode tree) = 0 ∧ scenlast (rootnode tree) = len names - 1 ∧
  nonleaves tree = _nonleaves bfs (rootnode tree) ∧
  NonLeafTerminals tree = filter (λ nd, stage nd = len bfs - 1) (nonleaves tree).
Proof.
  unfold _ScenTree__init__.
  destruct (Z.eqb_spec (len names) (prod bfs)) as [He|]; [|done].
  cbn [assert mbind result_bind].
  destruct (Z.ltb_spec 1 (len bfs)) as [Hl|]; [|done].
  cbn [assert mbind result_bind].
  destruct (_TreeNode__init__ _ None 0 _ bfs "ROOT") as [root|] eqn:Hroot; [|done].
  cbn [mbind result_bind]. intros [= <-].
  cbn [ScenNames BFs rootnode nonleaves NonLeafTerminals].
  pose proof (_TreeNode__init___root _ _ _ _ _ _ _ Hroot) as (Hf & Hla & Hn & Hs).
  repeat (split; [done|]). split; [by eexists _, _, _, _, _|]. done.
Qed.

(** *** Names count the stage *)

Lemma underscores_app a b : underscores (a +:+ b) = (underscores a + underscores b)%nat.
Proof.
  induction a as [|c a IH]; [done|].
  change (String c a +:+ b) with (String c (a +:+ b)).
  cbn [underscores]. rewrite IH. lia.
Qed.

Lemma underscores_pretty_N_go (x : N) s :
  underscores (pretty_N_go x s) = underscores s.
Proof.
  revert s. induction (N.lt_wf_0 x) as [x _ IH]; intros s.
  assert (x = 0 ∨ 0 < x)%N as [->|Hx] by lia; [by rewrite pretty_N_go_0|].
  rewrite pretty_N_go_step by done. rewrite IH by (by apply N.div_lt).
  cbn [underscores]. unfold pretty_N_char. by repeat case_match.
Qed.

Lemma underscores_str b : underscores (str b) = 0%nat.
Proof.
  unfold str, pretty, pretty_Z. destruct b as [|p|p]; [done| |].
  - unfold pretty, pretty_positive, pretty, pretty_N.
    rewrite decide_False by done. by rewrite underscores_pretty_N_go.
  - rewrite underscores_app.
    unfold pretty, pretty_positive, pretty, pretty_N.
    rewrite decide_False by done. by rewrite underscores_pretty_N_go.
Qed.

Lemma nonleaves_stage_name bfs nd :
  built bfs nd → 0 <= stage nd →
  underscores (name nd) = Z.to_nat (stage nd) →
  Forall (λ p, 0 <= stage p ∧ underscores (name p) = Z.to_nat (stage p))
         (_nonleaves bfs nd).
Proof.
  intros Hb H0 Hu. apply nonleaves_closure; [|done|done].
  intros p bf b k [Hp0 Hpu] _ _ _ _ (Hn & Hs & _).
  rewrite Hn, Hs, !underscores_app, underscores_str, Hpu. cbn. lia.
Qed.

(** X9.  The shape of a constructed tree.  Every listed node is at a stage
    for which there is a branching factor, and its name has one
    underscore per stage.  A node at the last stage has no kids and is a
    terminal node; a node at an earlier stage [s] has [max(0, BFs[s])]
    kids, and kid number [b] is listed, is one stage further and is
    named after its parent with [_b] appended. *)
Theorem tree_nodes_shape prod bfs names tree nd :
  _ScenTree__init__ prod bfs names = Ok tree → nd ∈ nonleaves tree →
  0 <= stage nd <= len bfs - 1 ∧
  underscores (name nd) = Z.to_nat (stage nd) ∧
  (stage nd = len bfs - 1 → kids nd = [] ∧ nd ∈ NonLeafTerminals tree) ∧
  (stage nd < len bfs - 1 →
     ∃ bf, bfs !! Z.to_nat (stage nd) = Some bf ∧
       len (kids nd) = Z.max 0 bf ∧
       ∀ (b : nat) k, kids nd !! b = Some k →
         k ∈ nonleaves tree ∧ stage k = stage nd + 1 ∧
         name k = name nd +:+ "_" +:+ str (Z.of_nat b)).
Proof.
  intros Htree Hnd.
  destruct (_ScenTree__init___fields _ _ _ _ Htree)
    as (_ & Hlen & _ & _ & Hroot & Hname & Hstage & _ & _ & Hnl & Hterm).
  rewrite Hnl in Hnd.
  pose proof (nonleaves_built _ _ Hroot) as Hbuilt.
  pose proof (nonleaves_stage_name bfs (rootnode tree) Hroot) as Hsn.
  rewrite Hstage, Hname in Hsn. specialize (Hsn ltac:(lia) eq_refl).
  rewrite Forall_forall in Hbuilt, Hsn.
  specialize (Hbuilt nd Hnd). destruct (Hsn nd Hnd) as [H0 Hu].
  destruct (built_shape _ _ Hbuilt) as (bf & Hbf & Hkids).
  pose proof (getitem_nonneg _ _ _ H0 Hbf) as Hlook.
  pose proof (lookup_lt_Some _ _ _ Hlook) as Hlt. unfold len at 1.
  split; [lia|]. split; [done|]. split.
  - intros Hlast. split.
    + rewrite (proj2 (Z.ltb_ge _ _)) in Hkids by lia. done.
    + rewrite Hterm, Hnl. apply list_elem_of_filter. done.
  - intros Hinner. exists bf. split; [done|].
    split; [by eapply built_kids_length|].
    intros b k Hk.
    destruct (built_kid _ _ _ _ _ Hbuilt Hinner Hbf Hk) as (_ & (Hn & Hs & _) & _).
    split; [|done]. rewrite Hnl.
    eapply nonleaves_kids; eauto. by eapply list_elem_of_lookup_2.
Qed.

Lemma tree_nodes_shape_witness :
  ∃ nd, nd ∈ nonleaves demo_tree ∧ 0 <= stage nd <= len [2; 3] - 1.
Proof.
  exists (rootnode demo_tree). split; [apply list_elem_of_here|].
  apply (tree_nodes_shape product [2; 3] (ID_names 6) demo_tree
           (rootnode demo_tree) demo_tree_ok).
  apply list_elem_of_here.
Defined.

Lemma balanced_share (n bf b : Z) :
  0 < bf → n / bf <= (b + 1) * n / bf - b * n / bf <= n / bf + 1.
Proof.
  intros Hbf.
  pose proof (Z.div_mod n bf ltac:(lia)) as Hn.
  pose proof (Z.mod_pos_bound n bf Hbf) as Hr.
  pose proof (Z.div_mod (b * n) bf ltac:(lia)) as H0.
  pose proof (Z.mod_pos_bound (b * n) bf Hbf) as Hr0.
  pose proof (Z.div_mod ((b + 1) * n) bf ltac:(lia)) as H1.
  pose proof (Z.mod_pos_bound ((b + 1) * n) bf Hbf) as Hr1.
  set (q := n / bf) in *. set (q0 := b * n / bf) in *.
  set (q1 := (b + 1) * n / bf) in *.
  assert (bf * (q1 - q0 - q) = n mod bf - ((b + 1) * n) mod bf + (b * n) mod bf)
    as Hd by lia.
  nia.
Qed.

(** X10.  The scenario ranges of the kids of a node tile the node's scenario
    count, counted from 0 and not from the node's own first scenario: the
    first kid starts at 0, each kid starts right after the one before it,
    the last kid ends at [numscens - 1], and every kid holds the quotient
    of [numscens] by the number of kids, or one more. *)
Theorem children_ranges_tile_parent prod bfs names tree nd :
  _ScenTree__init__ prod bfs names = Ok tree → nd ∈ nonleaves tree →
  (∀ k, kids nd !! 0%nat = Some k → scenfirst k = 0) ∧
  (∀ (b : nat) k k', kids nd !! b = Some k → kids nd !! S b = Some k' →
     scenfirst k' = scenlast k + 1) ∧
  (∀ k, last (kids nd) = Some k → scenlast k = numscens nd - 1) ∧
  (∀ k, k ∈ kids nd →
     numscens nd / len (kids nd) <= numscens k <= numscens nd / len (kids nd) + 1).
Proof.
  intros Htree Hnd.
  destruct (_ScenTree__init___fields _ _ _ _ Htree)
    as (_ & _ & _ & _ & Hroot & _ & _ & _ & _ & Hnl & _).
  rewrite Hnl in Hnd.
  pose proof (nonleaves_built _ _ Hroot) as Hbuilt.
  rewrite Forall_forall in Hbuilt. specialize (Hbuilt nd Hnd).
  destruct (built_shape _ _ Hbuilt) as (bf & Hbf & Hkids).
  destruct (Z.ltb_spec (stage nd) (len bfs - 1)) as [Hlt|Hge];
    [|rewrite Hkids; repeat split; intros; try done;
      match goal with H : _ ∈ [] |- _ => by apply elem_of_nil in H end].
  clear Hkids.
  pose proof (built_kids_length _ _ _ Hbuilt Hlt Hbf) as Hlen.
  assert (∀ (i : nat) k, kids nd !! i = Some k →
            0 <= Z.of_nat i < bf ∧ len (kids nd) = bf ∧
            scenfirst k = Z.of_nat i * numscens nd / bf ∧
            scenlast k = (Z.of_nat i + 1) * numscens nd / bf - 1) as Hkid.
  { intros i k Hk.
    destruct (built_kid _ _ _ _ _ Hbuilt Hlt Hbf Hk) as (Hi & (_ & _ & Hf & Hl) & _).
    repeat split; try done; lia. }
  split; [|split; [|split]].
  - intros k Hk. destruct (Hkid _ _ Hk) as (_ & _ & -> & _). done.
  - intros b k k' Hk Hk'.
    destruct (Hkid _ _ Hk) as (_ & _ & _ & ->).
    destruct (Hkid _ _ Hk') as (_ & _ & -> & _).
    replace (Z.of_nat (S b)) with (Z.of_nat b + 1) by lia. lia.
  - intros k Hk. rewrite last_lookup in Hk.
    destruct (Hkid _ _ Hk) as (Hi & Hl & _ & ->).
    assert (Z.of_nat (pred (length (kids nd))) + 1 = bf) as ->
      by (unfold len in Hl; lia).
    rewrite Z.mul_comm, Z.div_mul by lia. done.
  - intros k Hk. apply list_elem_of_lookup_1 in Hk as [i Hi].
    destruct (Hkid _ _ Hi) as (Hb & -> & Hf & Hl).
    change (numscens k) with (scenlast k - scenfirst k + 1). rewrite Hf, Hl.
    pose proof (balanced_share (numscens nd) bf (Z.of_nat i) ltac:(lia)). lia.
Qed.

Lemma children_ranges_tile_parent_witness :
  ∃ nd, nd ∈ nonleaves demo_tree ∧
        ∀ k, kids nd !! 0%nat = Some k → scenfirst k = 0.
Proof.
  exists (rootnode demo_tree). split; [apply list_elem_of_here|].
  apply (children_ranges_tile_parent product [2; 3] (ID_names 6) demo_tree
           (rootnode demo_tree) demo_tree_ok).
  apply list_elem_of_here.
Defined.

(** *** Node names are distinct *)

Lemma append_assoc (a b c : string) : (a +:+ b) +:+ c = a +:+ b +:+ c.
Proof.
  induction a as [|x a IH]; [done|].
  change (String x ((a +:+ b) +:+ c) = String x (a +:+ b +:+ c)).
  by rewrite IH.
Qed.

Lemma append_nil_r (a : string) : a +:+ "" = a.
Proof.
  induction a as [|x a IH]; [done|].
  change (String x a +:+ "") with (String x (a +:+ "")). by rewrite IH.
Qed.

Lemma fmap_bind_list {A B C} (f : B → C) (g : A → list B) (l : list A) :
  f <$> (l ≫= g) = l ≫= (λ x, f <$> g x).
Proof. induction l as [|x l IH]; [done|]. csimpl. by rewrite fmap_app, IH. Qed.

Lemma name_tail_extend r b : name_tail r → name_tail (r +:+ "_" +:+ str b).
Proof.
  intros [->|[r' ->]]; right.
  - by exists (str b).
  - exists (r' +:+ "_" +:+ str b). by rewrite append_assoc.
Qed.

Lemma name_split d d' r r' :
  underscores d = 0%nat → underscores d' = 0%nat →
  name_tail r → name_tail r' → d +:+ r = d' +:+ r' → d = d'.
Proof.
  revert d'. induction d as [|c d IH]; intros [|c' d'] Hd Hd' Hr Hr' Heq.
  - done.
  - exfalso. change ("" +:+ r) with r in Heq.
    change (String c' d' +:+ r') with (String c' (d' +:+ r')) in Heq.
    destruct Hr as [->|[r0 ->]]; [done|].
    change ("_" +:+ r0) with (String "_" r0) in Heq. injection Heq as <- _.
    cbn in Hd'. lia.
  - exfalso. change ("" +:+ r') with r' in Heq.
    change (String c d +:+ r) with (String c (d +:+ r)) in Heq.
    destruct Hr' as [->|[r0 ->]]; [done|].
    change ("_" +:+ r0) with (String "_" r0) in Heq. injection Heq as -> _.
    cbn in Hd. lia.
  - change (String c d +:+ r) with (String c (d +:+ r)) in Heq.
    change (String c' d' +:+ r') with (String c' (d' +:+ r')) in Heq.
    injection Heq as -> Heq. f_equal. cbn [underscores] in Hd, Hd'.
    apply IH; [lia|lia|done|done|done].
Qed.

Lemma nonleaves_names_prefix bfs nd :
  built bfs nd →
  Forall (λ p, ∃ r, name p = name nd +:+ r ∧ name_tail r) (_nonleaves bfs nd).
Proof.
  intros Hb. apply nonleaves_closure; [|done|].
  - intros p bf b k (r & Hp & Hr) _ _ _ _ (Hn & _).
    exists (r +:+ "_" +:+ str b). split; [|by apply name_tail_extend].
    by rewrite Hn, Hp, append_assoc.
  - exists "". split; [by rewrite append_nil_r|by left].
Qed.

Lemma kid_name_index nd (i j : Z) k k' r r' :
  name k = name nd +:+ "_" +:+ str i → name k' = name nd +:+ "_" +:+ str j →
  name_tail r → name_tail r' → name k +:+ r = name k' +:+ r' → i = j.
Proof.
  intros -> -> Hr Hr'. rewrite !append_assoc.
  intros Heq%append_inj_l%append_inj_l.
  apply name_split in Heq; [|apply underscores_str|apply underscores_str|done|done].
  by apply (inj pretty) in Heq.
Qed.

Lemma nonleaves_names_NoDup bfs nd :
  built bfs nd → NoDup (name <$> _nonleaves bfs nd).
Proof.
  revert nd. apply (built_ind bfs (λ nd, NoDup (name <$> _nonleaves bfs nd))).
  intros nd bf Hb Hbf Hkids. rewrite _nonleaves_unfold, fmap_cons.
  destruct (Z.ltb_spec (stage nd) (len bfs - 1)) as [Hlt|];
    [|apply NoDup_singleton].
  assert (∀ (i : nat) k, kids nd !! i = Some k →
            name k = name nd +:+ "_" +:+ str (Z.of_nat i) ∧ built bfs k ∧
            NoDup (name <$> _nonleaves bfs k)) as Hkid.
  { intros i k Hk.
    destruct (Forall2_lookup_r _ _ _ _ _ Hkids Hk) as (b & Hbi & (Hn & _) & Hbk & HQ).
    apply lookup_seqZ in Hbi as [-> _]. by rewrite Z.add_0_l in Hn. }
  assert (∀ k y, k ∈ kids nd → y ∈ name <$> _nonleaves bfs k →
            ∃ (i : nat) r, kids nd !! i = Some k ∧
              name k = name nd +:+ "_" +:+ str (Z.of_nat i) ∧
              y = name k +:+ r ∧ name_tail r) as Hsub.
  { intros k y [i Hi]%list_elem_of_lookup_1 (p & -> & Hp)%list_elem_of_fmap.
    destruct (Hkid _ _ Hi) as (Hn & Hbk & _).
    pose proof (nonleaves_names_prefix _ _ Hbk) as Hpre.
    rewrite Forall_forall in Hpre. destruct (Hpre p Hp) as (r & Hpr & Hr).
    by exists i, r. }
  apply NoDup_cons. split.
  - intros (p & Hp & (k & Hpk & Hk)%list_elem_of_bind)%list_elem_of_fmap.
    destruct (Hsub k (name p) Hk) as (i & r & _ & Hn & Hy & _);
      [by apply list_elem_of_fmap_2|].
    assert (underscores (name nd) = underscores (name p)) as Hu by (by rewrite Hp).
    rewrite Hy, Hn, !underscores_app in Hu. cbn in Hu. lia.
  - rewrite fmap_bind_list. apply NoDup_bind.
    + intros k1 k2 y Hk1 Hk2 Hy1 Hy2.
      destruct (Hsub _ _ Hk1 Hy1) as (i1 & r1 & Hi1 & Hn1 & -> & Hr1).
      destruct (Hsub _ _ Hk2 Hy2) as (i2 & r2 & Hi2 & Hn2 & Heq & Hr2).
      pose proof (kid_name_index _ _ _ _ _ _ _ Hn1 Hn2 Hr1 Hr2 Heq) as Hi.
      assert (i1 = i2) as -> by lia. rewrite Hi1 in Hi2. by injection Hi2.
    + intros k [i Hi]%list_elem_of_lookup_1. by destruct (Hkid _ _ Hi) as (_ & _ & ?).
    + apply NoDup_alt. intros i j k Hi Hj.
      destruct (Hkid _ _ Hi) as (Hn1 & _). destruct (Hkid _ _ Hj) as (Hn2 & _).
      assert (Z.of_nat i = Z.of_nat j); [|lia].
      eapply (kid_name_index nd _ _ k k "" ""); eauto; by left.
Qed.

(** X11.  No two nodes of a constructed tree have the same name, so the
    mappings and first ranks that [scen_names_to_ranks] keeps under node
    names never overwrite one another. *)
Theorem node_names_distinct prod bfs names tree :
  _ScenTree__init__ prod bfs names = Ok tree →
  NoDup (name <$> nonleaves tree) ∧ NoDup (name <$> NonLeafTerminals tree).
Proof.
  intros Htree.
  destruct (_ScenTree__init___fields _ _ _ _ Htree)
    as (_ & _ & _ & _ & Hroot & _ & _ & _ & _ & Hnl & Hterm).
  assert (NoDup (name <$> nonleaves tree)) as Hnd
    by (rewrite Hnl; by apply nonleaves_names_NoDup).
  split; [done|]. rewrite Hterm.
  apply NoDup_fmap_2_strong.
  - intros x y Hx%list_elem_of_filter Hy%list_elem_of_filter Hxy.
    destruct Hx as [_ Hx], Hy as [_ Hy].
    apply list_elem_of_lookup_1 in Hx as [i Hi], Hy as [j Hj].
    assert (i = j) as ->.
    { eapply NoDup_lookup; [exact Hnd| |];
        rewrite list_lookup_fmap; [by rewrite Hi|by rewrite Hj, Hxy]. }
    rewrite Hi in Hj. by injection Hj.
  - apply NoDup_filter. by eapply NoDup_fmap_1.
Qed.

Lemma node_names_distinct_witness :
  NoDup (name <$> nonleaves demo_tree) ∧
  NoDup (name <$> NonLeafTerminals demo_tree).
Proof.
  apply (node_names_distinct product [2; 3] (ID_names 6) demo_tree demo_tree_ok).
Defined.

(** ** Trees of four stages or more *)

Lemma lookup_foldl_pairs (l : list (string * Z)) (m0 : gmap string Z) k v :
  foldl (λ m '(n, r), <[n := r]> m) m0 l !! k = Some v →
  k ∈ l.*1 ∨ m0 !! k = Some v.
Proof.
  revert m0. induction l as [|[n r] l IH]; intros m0 H; [by right|].
  cbn [foldl] in H. apply IH in H as [H|H].
  - left. rewrite fmap_cons. by apply list_elem_of_further.
  - destruct (decide (k = n)) as [->|Hne].
    + left. rewrite fmap_cons. apply list_elem_of_here.
    + rewrite lookup_insert_ne in H by done. by right.
Qed.

Lemma first_ranks_keys avg (TermNodes : list _TreeNode) firsts k :
  mapM (λ '(i, nd), r ← int_scaled i avg; Ok (name nd, r)) (enumerate TermNodes)
    = Ok firsts →
  k ∈ firsts.*1 → ∃ t, t ∈ TermNodes ∧ name t = k.
Proof.
  intros Hm%mapM_Ok_inv (y & -> & Hy)%list_elem_of_fmap.
  apply list_elem_of_lookup_1 in Hy as [j Hj].
  destruct (Forall2_lookup_r _ _ _ _ _ Hm Hj) as ([i t] & Hit & Hr).
  exists t. split.
  - apply list_elem_of_lookup_2 in Hit. unfold enumerate in Hit.
    by apply elem_of_zip_r in Hit.
  - destruct (int_scaled i avg); [|done]. by injection Hr as <-.
Qed.

Lemma assign_inner_unset bfs names retval (FirstRank : gmap string Z) nd :
  stage nd ≠ len bfs - 1 → name nd ≠ "ROOT" →
  (∀ k, kids nd !! 0%nat = Some k → FirstRank !! name k = None) →
  raises (assign_inner bfs names (retval, FirstRank) nd).
Proof.
  intros Hs Hn Hfr. unfold assign_inner, raises.
  rewrite (proj2 (Z.eqb_neq _ _) Hs), (proj2 (String.eqb_neq _ _) Hn).
  cbn [negb andb].
  destruct (scen_list names nd); [|by eexists]. cbn [mbind result_bind].
  destruct (foldM _ _ _); [|by eexists]. cbn [mbind result_bind].
  destruct (getitem (kids nd) 0) as [k|] eqn:Hk; [|by eexists].
  cbn [mbind result_bind].
  apply getitem_nonneg in Hk; [|done]. unfold lookup_key.
  rewrite (Hfr k Hk). by eexists.
Qed.

(** X12.  On a tree of four stages or more whose root has a kid,
    [scen_names_to_ranks] with [n_proc] other than 1 never returns: at
    the latest, the last loop reads the first rank of the first kid of
    [ROOT_0], a node that is not terminal and so has none yet. *)
Theorem deep_tree_assignment_raises prod bfs names tree bf0 n_proc myrank :
  _ScenTree__init__ prod bfs names = Ok tree →
  4 <= len bfs → bfs !! 0%nat = Some bf0 → 1 <= bf0 → n_proc ≠ 1 →
  raises (scen_names_to_ranks tree n_proc myrank).
Proof.
  intros Htree Hdeep Hbf0 Hpos Hn.
  destruct (_ScenTree__init___fields _ _ _ _ Htree)
    as (_ & _ & HSN & HBF & Hroot & Hname & Hstage & _ & _ & Hnl & Hterm).
  pose proof (nonleaves_stage_name bfs (rootnode tree) Hroot) as Hsn.
  rewrite Hstage, Hname in Hsn. specialize (Hsn ltac:(lia) eq_refl).
  rewrite <-Hnl, Forall_forall in Hsn.
  (* the list of nodes starts with the root and its first kid *)
  assert (getitem bfs (stage (rootnode tree)) = Ok bf0) as Hg0.
  { rewrite Hstage. unfold getitem. cbn.
    change (Z.to_nat 0) with 0%nat. by rewrite Hbf0. }
  assert (stage (rootnode tree) < len bfs - 1) as Hlt0 by lia.
  pose proof (built_kids_length _ _ _ Hroot Hlt0 Hg0) as Hlen.
  destruct (kids (rootnode tree)) as [|kid0 ks] eqn:Hkids;
    [unfold len in Hlen; cbn in Hlen; lia|].
  destruct (built_kid bfs (rootnode tree) bf0 0 kid0 Hroot Hlt0 Hg0)
    as (_ & (Hn0 & Hs0 & _) & Hb0); [by rewrite Hkids|].
  rewrite Hname in Hn0. rewrite Hstage in Hs0.
  assert (∃ rest, nonleaves tree = rootnode tree :: kid0 :: rest) as [rest Hlist].
  { rewrite Hnl, _nonleaves_unfold, (proj2 (Z.ltb_lt _ _) Hlt0), Hkids.
    csimpl. rewrite (_nonleaves_unfold bfs kid0). by eexists. }
  unfold scen_names_to_ranks, raises.
  rewrite (proj2 (Z.eqb_neq _ _) Hn).
  destruct (truediv _ _) as [avg|]; [|by eexists]. cbn [mbind result_bind].
  destruct (float_lt_int avg 1); [by eexists|]. cbn [mbind result_bind].
  destruct (make_slices 0 avg _) as [TermRanks|]; [|by eexists].
  cbn [mbind result_bind].
  destruct (mapM _ (enumerate (NonLeafTerminals tree))) as [firsts|] eqn:Hfirsts;
    [|by eexists].
  cbn [mbind result_bind].
  destruct (foldM (assign_terminal _ _) _ _) as [[retval ms]|]; [|by eexists].
  cbn [mbind result_bind].
  rewrite Hlist, HBF, HSN. cbn [foldM].
  assert (assign_inner bfs names
            (retval, <["ROOT" := 0]> (foldl (λ m '(n, r), <[n := r]> m) ∅ firsts))
            (rootnode tree)
          = Ok (retval, <["ROOT" := 0]> (foldl (λ m '(n, r), <[n := r]> m) ∅ firsts)))
    as ->.
  { unfold assign_inner. rewrite Hname. cbn [String.eqb negb].
    by rewrite andb_false_r. }
  cbn [mbind result_bind].
  destruct (assign_inner_unset bfs names retval
              (<["ROOT" := 0]> (foldl (λ m '(n, r), <[n := r]> m) ∅ firsts)) kid0)
    as [e ->]; [lia| | |by eexists].
  { rewrite Hn0. intros H. apply (f_equal underscores) in H.
    rewrite !underscores_app in H. cbn in H. lia. }
  intros k Hk.
  destruct (built_shape _ _ Hb0) as (bf1 & Hg1 & _).
  destruct (built_kid bfs kid0 bf1 0 k Hb0 ltac:(lia) Hg1 Hk)
    as (_ & (Hnk & Hsk & _) & _).
  assert (underscores (name k) = 2%nat) as Hu.
  { rewrite Hnk, Hn0, !underscores_app, !underscores_str. done. }
  rewrite lookup_insert_ne by (intros H; rewrite <-H in Hu; cbn in Hu; lia).
  destruct (foldl _ ∅ firsts !! name k) as [v|] eqn:Hv; [|done].
  exfalso. apply lookup_foldl_pairs in Hv as [Hin|Hv]; [|done].
  destruct (first_ranks_keys _ _ _ _ Hfirsts Hin) as (t & Ht & Htn).
  rewrite Hterm in Ht. apply list_elem_of_filter in Ht as [Hst Ht].
  destruct (Hsn t Ht) as [_ Hut]. rewrite Htn, Hu, Hst in Hut. lia.
Qed.

Lemma deep_tree_assignment_raises_witness :
  (∃ tree, _ScenTree__init__ product [1; 1; 2; 2] (ID_names 4) = Ok tree ∧
           raises (scen_names_to_ranks tree 4 0)) ∧
  4 <= len [1; 1; 2; 2] ∧ 1 <= 1 ∧ 4 ≠ 1.
Proof.
  split; [|split; [done|split; [lia|lia]]].
  destruct (_ScenTree__init___returns product [1; 1; 2; 2] (ID_names 4))
    as [tree Htree]; [reflexivity|reflexivity|].
  exists tree. split; [exact Htree|].
  apply (deep_tree_assignment_raises product [1; 1; 2; 2] (ID_names 4) tree 1 4 0
           Htree); [done|reflexivity|lia|lia].
Defined.

(** ** extract_num *)

Lemma is_digit_not_newline c : is_digit c = true → Ascii.eqb c "010"%char = false.
Proof. destruct (Ascii.eqb_spec c "010"%char) as [->|]; [by cbv|done]. Qed.

Lemma at_end_chomp s : at_end s = true ↔ chomp s = "".
Proof.
  destruct s as [|c [|c' s]]; cbn [at_end chomp]; [done| |done].
  by destruct (Ascii.eqb c "010"%char).
Qed.

Lemma chomp_cons c s :
  Ascii.eqb c "010"%char = false ∨ s ≠ "" → chomp (String c s) = String c (chomp s).
Proof.
  destruct s as [|c' s]; [|done]. cbn [chomp]. intros [->|]; done.
Qed.

Lemma all_digits_app a b : all_digits (a +:+ b) = all_digits a && all_digits b.
Proof.
  induction a as [|c a IH]; [done|].
  change (String c a +:+ b) with (String c (a +:+ b)).
  cbn [all_digits]. rewrite IH. by rewrite andb_assoc.
Qed.

Lemma digit_suffix_all s : all_digits s = true → digit_suffix s = s.
Proof. destruct s as [|c s]; [done|]. cbn [digit_suffix]. by intros ->. Qed.

Lemma match_here_chomp s :
  match_here s =
    match chomp s with
    | EmptyString => None
    | t => if all_digits t then Some t else None
    end.
Proof.
  induction s as [|c s IH]; [done|]. cbn [match_here].
  destruct (is_digit c) eqn:Hc.
  - rewrite chomp_cons by (left; by apply is_digit_not_newline).
    cbn [all_digits]. rewrite Hc, andb_true_l, IH.
    destruct (chomp s) as [|c1 t1] eqn:Ht; cbv zeta.
    + by rewrite (proj2 (at_end_chomp s) Ht).
    + destruct (all_digits (String c1 t1)); [done|].
      destruct (at_end s) eqn:He; [|done].
      apply at_end_chomp in He. by rewrite He in Ht.
  - destruct s as [|c' s]; cbn [chomp].
    + destruct (Ascii.eqb c "010"%char); [done|]. cbn [all_digits]. by rewrite Hc.
    + cbn [all_digits]. by rewrite Hc.
Qed.

Lemma search_suffix s :
  search s =
    match digit_suffix (chomp s) with
    | EmptyString => None
    | t => Some t
    end.
Proof.
  induction s as [|c s IH]; [done|].
  change (search (String c s))
    with (match match_here (String c s) with
          | Some g => Some g
          | None => search s
          end).
  rewrite match_here_chomp.
  destruct (chomp (String c s)) as [|c1 t1] eqn:Ht; cbv zeta.
  - destruct s as [|c' s]; [done|]. by cbn [chomp] in Ht.
  - destruct (all_digits (String c1 t1)) eqn:Hall.
    + by rewrite digit_suffix_all.
    + cbn [digit_suffix]. rewrite Hall, IH.
      destruct s as [|c' s].
      * cbn [chomp] in Ht. destruct (Ascii.eqb c "010"%char); [done|].
        by injection Ht as <- <-.
      * injection Ht as <- <-. done.
Qed.

Lemma extract_num_none s :
  digit_suffix (chomp s) = "" → extract_num s = Raise (AttributeError "group").
Proof. intros H. unfold extract_num. by rewrite search_suffix, H. Qed.

Lemma extract_num_some s :
  digit_suffix (chomp s) ≠ "" →
  extract_num s = Ok (int_digits 0 (digit_suffix (chomp s))).
Proof.
  intros H. unfold extract_num. rewrite search_suffix.
  by destruct (digit_suffix (chomp s)).
Qed.

(** X14.  [extract_num] reads the longest run of digits at the right end of
    the string, a newline that ends the string set aside; when that run
    is empty it raises [AttributeError], and it raises nothing else. *)
Theorem extract_num_digit_suffix s :
  extract_num s =
    if decide (digit_suffix (chomp s) = "")
    then Raise (AttributeError "group")
    else Ok (int_digits 0 (digit_suffix (chomp s))).
Proof.
  destruct (decide (digit_suffix (chomp s) = "")).
  - by apply extract_num_none.
  - by apply extract_num_some.
Qed.

Lemma chomp_digits d : d ≠ "" → all_digits d = true → chomp d = d.
Proof.
  induction d as [|c d IH]; [done|]. intros _. cbn [all_digits].
  intros [Hc Hd]%andb_true_iff.
  rewrite chomp_cons by (left; by apply is_digit_not_newline).
  destruct d as [|c' d]; [done|]. by rewrite IH.
Qed.

Lemma append_not_empty a b : b ≠ "" → a +:+ b ≠ "".
Proof. by destruct a. Qed.

Lemma chomp_app a d : d ≠ "" → chomp d = d → chomp (a +:+ d) = a +:+ d.
Proof.
  intros Hd Hc. induction a as [|c a IH]; [done|].
  change (String c a +:+ d) with (String c (a +:+ d)).
  rewrite chomp_cons by (right; by apply append_not_empty). by rewrite IH.
Qed.

Lemma chomp_newline a : chomp (a +:+ String "010"%char "") = a.
Proof.
  induction a as [|c a IH]; [done|].
  change (String c a +:+ String "010"%char "")
    with (String c (a +:+ String "010"%char "")).
  rewrite chomp_cons by (right; by apply append_not_empty). by rewrite IH.
Qed.

Lemma digit_suffix_app a d :
  all_digits d = true → digit_suffix (a +:+ d) = digit_suffix a +:+ d.
Proof.
  intros Hd. induction a as [|c a IH]; [by apply digit_suffix_all|].
  change (String c a +:+ d) with (String c (a +:+ d)).
  cbn [digit_suffix].
  change (all_digits (String c (a +:+ d))) with (all_digits (String c a +:+ d)).
  rewrite all_digits_app, Hd, andb_true_r.
  by destruct (all_digits (String c a)).
Qed.

Lemma all_digits_pretty_N_go (x : N) s :
  all_digits (pretty_N_go x s) = all_digits s.
Proof.
  revert s. induction (N.lt_wf_0 x) as [x _ IH]; intros s.
  assert (x = 0 ∨ 0 < x)%N as [->|Hx] by lia; [by rewrite pretty_N_go_0|].
  rewrite pretty_N_go_step by done. rewrite IH by (by apply N.div_lt).
  cbn [all_digits]. unfold pretty_N_char. by repeat case_match.
Qed.

Lemma digit_value_pretty_N_char (d : N) :
  (d < 10)%N → digit_value (pretty_N_char d) = Z.of_N d.
Proof.
  intros Hd.
  assert (d = 0 ∨ d = 1 ∨ d = 2 ∨ d = 3 ∨ d = 4 ∨ d = 5 ∨ d = 6 ∨ d = 7 ∨
          d = 8 ∨ d = 9)%N as Hcases by lia.
  repeat (destruct Hcases as [->|Hcases]; [done|]). by subst.
Qed.

Lemma int_digits_pretty_N_go (x : N) s :
  ∃ k, ∀ acc,
    int_digits acc (pretty_N_go x s) = int_digits (acc * 10 ^ k + Z.of_N x) s ∧
    0 <= k.
Proof.
  revert s. induction (N.lt_wf_0 x) as [x _ IH]; intros s.
  assert (x = 0 ∨ 0 < x)%N as [->|Hx] by lia.
  - exists 0. intros acc. rewrite pretty_N_go_0. split; [f_equal; lia|done].
  - destruct (IH (x `div` 10)%N (N.div_lt x 10 Hx eq_refl)
                 (String (pretty_N_char (x `mod` 10)) s)) as [k Hk].
    exists (k + 1). intros acc. rewrite pretty_N_go_step by done.
    destruct (Hk acc) as [-> H0].
    split; [|lia]. cbn [int_digits].
    rewrite digit_value_pretty_N_char by (by apply N.mod_lt).
    f_equal. rewrite Z.pow_add_r, Z.pow_1_r by lia.
    rewrite N2Z.inj_mod, N2Z.inj_div. change (Z.of_N 10) with 10.
    pose proof (Z.div_mod (Z.of_N x) 10 ltac:(lia)). lia.
Qed.

Lemma str_digits n :
  0 <= n → all_digits (str n) = true ∧ str n ≠ "" ∧ int_digits 0 (str n) = n.
Proof.
  intros Hn. unfold str, pretty, pretty_Z. destruct n as [|p|p]; [done| |lia].
  unfold pretty, pretty_positive, pretty, pretty_N.
  rewrite decide_False by done. split; [|split].
  - by rewrite all_digits_pretty_N_go.
  - intros H. pose proof (pretty_N_go_ne_0 (N.pos p) "" ltac:(done)) as Hne.
    assert (String.length (pretty_N_go (N.pos p) "") = 0%nat) as Hl by (by rewrite H).
    rewrite pretty_N_go_step in Hl by done.
    destruct (int_digits_pretty_N_go (N.pos p) "") as [k Hk].
    destruct (Hk 0) as [Hv _]. rewrite H in Hv. cbn in Hv. lia.
  - destruct (int_digits_pretty_N_go (N.pos p) "") as [k Hk].
    destruct (Hk 0) as [-> _]. cbn. lia.
Qed.

(** X15.  Round trip: a name made of a prefix that does not end in a digit and
    of the decimal form of a number that is not negative gives the
    number back, also when a newline follows. *)
Theorem extract_num_round_trip prefix n :
  0 <= n → digit_suffix prefix = "" →
  extract_num (prefix +:+ str n) = Ok n ∧
  extract_num ((prefix +:+ str n) +:+ String "010"%char "") = Ok n.
Proof.
  intros Hn Hp. destruct (str_digits n Hn) as (Hall & Hne & Hval).
  assert (digit_suffix (prefix +:+ str n) = str n) as Hs
    by (by rewrite digit_suffix_app, Hp).
  assert (chomp (prefix +:+ str n) = prefix +:+ str n) as Hc
    by (apply chomp_app; [done|by apply chomp_digits]).
  split.
  - rewrite extract_num_some; rewrite Hc, Hs; [by rewrite Hval|done].
  - rewrite extract_num_some; rewrite chomp_newline, Hs;
      [by rewrite Hval|done].
Qed.

Lemma extract_num_round_trip_witness :
  0 <= 324 ∧ digit_suffix "scenario" = "" ∧
  extract_num "scenario324" = Ok 324.
Proof.
  split; [lia|]. split; [reflexivity|].
  apply (extract_num_round_trip "scenario" 324); [lia|reflexivity].
Defined.

Lemma digit_suffix_nondigit a c :
  is_digit c = false → digit_suffix (a +:+ String c "") = "".
Proof.
  intros Hc. induction a as [|c' a IH].
  - change ("" +:+ String c "") with (String c "").
    cbn [digit_suffix all_digits]. by rewrite Hc.
  - change (String c' a +:+ String c "") with (String c' (a +:+ String c "")).
    cbn [digit_suffix].
    change (all_digits (String c' (a +:+ String c "")))
      with (all_digits (String c' a +:+ String c "")).
    rewrite all_digits_app. cbn [all_digits]. rewrite Hc.
    by rewrite andb_false_r.
Qed.

(** X16.  A string that is empty, or whose last character is neither a digit
    nor a newline, makes [extract_num] raise [AttributeError]: the
    search finds nothing and [group] is read from [None]. *)
Theorem extract_num_no_number s c :
  is_digit c = false → Ascii.eqb c "010"%char = false →
  extract_num "" = Raise (AttributeError "group") ∧
  extract_num (s +:+ String c "") = Raise (AttributeError "group").
Proof.
  intros Hc Hnl. split; [done|].
  apply extract_num_none.
  rewrite chomp_app; [|done|by cbn [chomp]; rewrite Hnl].
  by apply digit_suffix_nondigit.
Qed.

Lemma extract_num_no_number_witness :
  extract_num "scenario" = Raise (AttributeError "group").
Proof.
  apply (extract_num_no_number "scenari" "o"%char); reflexivity.
Defined.

(** ** get_objs *)

(** X17.  [get_objs] returns the objectives only when exactly one is active.
    With none or with several it raises [NameError] for the unbound
    [sname], so that neither the [RuntimeError] nor the warning that the
    code spells out is ever produced. *)
Theorem get_objs_outcome {Obj} (scenario_objs : list Obj) :
  get_objs scenario_objs =
    if decide (length scenario_objs = 1%nat)
    then (UOk scenario_objs, [])
    else (URaise (NameError "sname"), []).
Proof.
  destruct scenario_objs as [|o [|o' l]]; [done|done|].
  unfold get_objs.
  destruct (Z.eqb_spec (len (o :: o' :: l)) 0) as [H|_];
    [unfold len in H; cbn in H; lia|].
  destruct (Z.ltb_spec 1 (len (o :: o' :: l))) as [_|H];
    [|unfold len in H; cbn in H; lia].
  done.
Qed.

(** ** option_string_to_dict *)

Lemma split_on_length sep s : length (split_on sep s) = S (count_char sep s).
Proof.
  induction s as [|c s IH]; [done|]. cbn [split_on count_char].
  destruct (Ascii.eqb c sep); cbn [length]; [by rewrite IH|].
  destruct (split_on sep s); cbn [length] in *; lia.
Qed.

Lemma split_whitespace_words s :
  Forall (λ w, no_space w = true ∧ w ≠ "") (split_whitespace s).
Proof.
  induction s as [|c s IH]; [constructor|]. cbn [split_whitespace].
  destruct (is_space c) eqn:Hc; [done|].
  destruct s as [|c' s']; [repeat constructor; cbn; by rewrite ?Hc|].
  destruct (is_space c') eqn:Hc'.
  - constructor; [|done]. cbn. by rewrite Hc.
  - destruct (split_whitespace (String c' s')) as [|w ws];
      [repeat constructor; cbn; by rewrite ?Hc|].
    apply Forall_cons in IH as [[Hw _] Hws]. constructor; [|done].
    cbn [no_space]. by rewrite Hc, Hw.
Qed.

Lemma rstrip_no_space w : no_space w = true → rstrip w = w.
Proof.
  induction w as [|c w IH]; [done|]. cbn [no_space rstrip].
  intros [Hc Hw]%andb_true_iff. rewrite IH by done.
  destruct w; [|done]. by destruct (is_space c).
Qed.

Lemma strip_no_space w : no_space w = true → strip w = w.
Proof.
  intros Hw. unfold strip.
  assert (lstrip w = w) as ->; [|by apply rstrip_no_space].
  destruct w as [|c w]; [done|]. cbn [no_space lstrip] in *.
  by destruct (is_space c).
Qed.

Section OptionStrings.

Variable float_of_string : string → option float.
Variable int_of_string : string → option Z.

Local Abbreviation convert :=
  (convert_value_string_to_number float_of_string int_of_string).
Local Abbreviation add_one := (add_option float_of_string int_of_string).
Local Abbreviation add_all := (add_options float_of_string int_of_string).

Lemma add_option_word d w :
  no_space w = true →
  add_one d w =
    if decide (count_char "="%char w < 2)%nat
    then UOk (<[option_key w := option_setting convert w]> d)
    else URaise (NameError "this_option").
Proof.
  intros Hw. unfold add_option, option_key, option_setting.
  rewrite strip_no_space by done.
  pose proof (split_on_length "="%char w) as Hlen.
  destruct (split_on "="%char w) as [|k [|v [|x l]]]; cbn [length] in Hlen.
  - lia.
  - rewrite decide_True by lia. done.
  - rewrite decide_True by lia. done.
  - rewrite decide_False by lia. done.
Qed.

Lemma add_options_malformed d l :
  Forall (λ w, no_space w = true) l →
  Exists (λ w, (2 <= count_char "="%char w)%nat) l →
  add_all d l = URaise (NameError "this_option").
Proof.
  intros Hl. revert d. induction Hl as [|w l Hw Hl IH]; intros d Hex.
  - by apply Exists_nil in Hex.
  - cbn [add_options]. rewrite add_option_word by done.
    destruct (decide (count_char "="%char w < 2)%nat) as [Hlt|]; [|done].
    cbn [mbind uresult_bind]. apply IH.
    apply Exists_cons in Hex as [?|?]; [lia|done].
Qed.

Lemma add_options_well_formed d l :
  Forall (λ w, no_space w = true) l →
  Forall (λ w, (count_char "="%char w < 2)%nat) l →
  add_all d l =
    UOk (foldl (λ d w, <[option_key w := option_setting convert w]> d) d l).
Proof.
  intros Hl. revert d. induction Hl as [|w l Hw Hl IH]; intros d Hok; [done|].
  apply Forall_cons in Hok as [Hlt Hok].
  cbn [add_options foldl]. rewrite add_option_word by done.
  rewrite decide_True by done. cbn [mbind uresult_bind]. by apply IH.
Qed.

Lemma lookup_foldl_options (d : gmap string option_value) l k :
  foldl (λ d w, <[option_key w := option_setting convert w]> d) d l !! k =
    match last (filter (λ w, option_key w = k) l) with
    | Some w => Some (option_setting convert w)
    | None => d !! k
    end.
Proof.
  revert d. induction l as [|w l IH]; intros d; [done|].
  cbn [foldl]. rewrite IH, filter_cons.
  destruct (decide (option_key w = k)) as [<-|Hne].
  - rewrite last_cons.
    destruct (last (filter _ l)); [done|]. by rewrite lookup_insert_eq.
  - destruct (last (filter _ l)); [done|]. by rewrite lookup_insert_ne.
Qed.

(** X18.  A word of the option string with two or more [=] makes
    [option_string_to_dict] raise [NameError] for the unbound
    [this_option]: the [RuntimeError] of the last branch is never
    raised, wherever the word stands. *)
Theorem option_string_malformed ostr :
  Exists (λ w, (2 <= count_char "="%char w)%nat) (split_whitespace ostr) →
  option_string_to_dict float_of_string int_of_string (Some ostr)
    = URaise (NameError "this_option").
Proof.
  intros Hex. destruct ostr as [|c s]; [by apply Exists_nil in Hex|].
  unfold option_string_to_dict.
  rewrite add_options_malformed; [done| |done].
  eapply Forall_impl; [apply split_whitespace_words|]. by intros w [? _].
Qed.

(** X19.  When no word has two or more [=], [option_string_to_dict] returns a
    dictionary, and what it holds under a key is set by the last word
    with that key: [None] for a word without [=], the converted text
    after the [=] otherwise.  A key that no word has is absent. *)
Theorem option_string_last_wins ostr :
  ostr ≠ "" →
  Forall (λ w, (count_char "="%char w < 2)%nat) (split_whitespace ostr) →
  ∃ solver_options,
    option_string_to_dict float_of_string int_of_string (Some ostr)
      = UOk (Some solver_options) ∧
    ∀ k, solver_options !! k =
         option_setting convert
           <$> last (filter (λ w, option_key w = k) (split_whitespace ostr)).
Proof.
  intros Hne Hok. destruct ostr as [|c s]; [done|].
  unfold option_string_to_dict.
  rewrite add_options_well_formed; [|
    eapply Forall_impl; [apply split_whitespace_words|]; by intros w [? _]|done].
  eexists. split; [done|]. intros k. rewrite lookup_foldl_options.
  by destruct (last _).
Qed.

Lemma split_whitespace_blank s : all_space s = true → split_whitespace s = [].
Proof.
  induction s as [|c s IH]; [done|]. cbn [all_space split_whitespace].
  intros [-> Hs]%andb_true_iff. by apply IH.
Qed.

(** X20.  No string and the empty string give [None], but a string of
    whitespace that is not empty gives the empty dictionary. *)
Theorem option_string_blank ostr :
  all_space ostr = true →
  option_string_to_dict float_of_string int_of_string None = UOk None ∧
  option_string_to_dict float_of_string int_of_string (Some ostr) =
    UOk (if decide (ostr = "") then None else Some ∅).
Proof.
  intros Hs. split; [done|]. destruct ostr as [|c s]; [done|].
  unfold option_string_to_dict. by rewrite split_whitespace_blank.
Qed.

End OptionStrings.

Lemma option_string_malformed_witness :
  option_string_to_dict (λ _, None) (λ _, None) (Some "mipgap=0.01 a=b=c")
    = URaise (NameError "this_option").
Proof.
  apply (option_string_malformed (λ _, None) (λ _, None) "mipgap=0.01 a=b=c").
  apply Exists_cons_tl, Exists_cons_hd. vm_compute. lia.
Defined.

Lemma option_string_last_wins_witness :
  ∃ solver_options,
    option_string_to_dict (λ _, None) (λ _, None) (Some "threads=4 quiet threads=8")
      = UOk (Some solver_options) ∧
    solver_options !! "threads" = Some (OStr "8").
Proof.
  destruct (option_string_last_wins (λ _, None) (λ _, None)
              "threads=4 quiet threads=8") as (d & Hd & Hk); [done| |].
  - apply (bool_decide_unpack _). vm_compute. reflexivity.
  - exists d. split; [exact Hd|]. rewrite Hk. reflexivity.
Defined.

Lemma option_string_blank_witness :
  option_string_to_dict (λ _, None) (λ _, None) (Some "   ") = UOk (Some ∅).
Proof.
  apply (option_string_blank (λ _, None) (λ _, None) "   "). reflexivity.
Defined.

(** ** _models_have_same_sense *)

Lemma forallb_same (senses : list bool) sense :
  sense ∈ senses →
  forallb (λ val, Bool.eqb val sense) senses = true ↔
  ∀ a b, a ∈ senses → b ∈ senses → a = b.
Proof.
  intros Hin. rewrite forallb_forall. split.
  - intros H a b Ha%list_elem_of_In Hb%list_elem_of_In.
    apply H, Bool.eqb_prop in Ha. apply H, Bool.eqb_prop in Hb. congruence.
  - intros H x Hx%list_elem_of_In. rewrite (H x sense Hx Hin).
    apply Bool.eqb_reflx.
Qed.

(** X21.  When every model has one active objective, [_models_have_same_sense]
    returns; its second component is [True] exactly when all the models
    have the same sense; its first component is then that sense compared
    with [pyo.minimize], [True] when there is no model, and it is [None]
    when the senses differ. *)
Theorem same_sense_check Model (is_minimizing : Model → result bool)
    (minimize : Z) models senses :
  mapM is_minimizing models = Ok senses →
  ∃ is_min check,
    _models_have_same_sense Model is_minimizing minimize models
      = Ok (is_min, check) ∧
    (check = true ↔ ∀ a b, a ∈ senses → b ∈ senses → a = b) ∧
    (check = false → is_min = None) ∧
    (check = true → ∀ a, a ∈ senses → is_min = Some (bool_eq_int a minimize)) ∧
    (models = [] → is_min = Some true).
Proof.
  intros Hm. unfold _models_have_same_sense.
  destruct models as [|m models].
  - injection Hm as <-. exists (Some true), true. split; [done|].
    split; [|split; [done|split; [|done]]].
    + split; [|done]. by intros _ a b Ha%elem_of_nil.
    + by intros _ a Ha%elem_of_nil.
  - destruct (Z.eqb_spec (len (m :: models)) 0) as [H|_];
      [unfold len in H; cbn in H; lia|].
    rewrite Hm. cbn [mbind result_bind].
    pose proof (mapM_Ok_inv _ _ _ Hm) as Hf. apply Forall2_length in Hf.
    destruct senses as [|sense senses]; [done|].
    change (getitem (sense :: senses) 0) with (Ok (A:=bool) sense).
    cbn [mbind result_bind].
    pose proof (forallb_same (sense :: senses) sense (list_elem_of_here _ _)) as Hall.
    destruct (forallb _ (sense :: senses)) eqn:Hc.
    + exists (Some (bool_eq_int sense minimize)), true. split; [done|].
      split; [done|]. split; [done|]. split; [|done].
      intros _ a Ha. by rewrite (proj1 Hall eq_refl a sense Ha (list_elem_of_here _ _)).
    + exists None, false. split; [done|]. split; [|done].
      split; [done|]. intros H. apply Hall in H. done.
Qed.

Lemma same_sense_check_witness :
  ∃ is_min check,
    _models_have_same_sense bool (λ m, Ok m) 1 [true; true] = Ok (is_min, check) ∧
    (check = true ↔ ∀ a b, a ∈ [true; true] → b ∈ [true; true] → a = b).
Proof.
  destruct (same_sense_check bool (λ m, Ok m) 1 [true; true] [true; true] eq_refl)
    as (is_min & check & Hr & Hc & _).
  exists is_min, check. split; [exact Hr|exact Hc].
Defined.

(** ** The keys of the rank assignment *)

(** In a hypothesis [H : (m ≫= f) = Ok _], name the value of [m]. *)
Ltac bind_inv H :=
  match type of H with
  | mbind _ ?m = Ok _ =>
      let E := fresh "E" in
      destruct m eqn:E; [cbn [mbind result_bind] in H|discriminate H]
  end.

Lemma set_rank_dom retval node scen r retval' :
  set_rank retval node scen r = Ok retval' → dom retval' = dom retval.
Proof.
  intros (sub & Hsub & ->)%set_rank_Ok. rewrite dom_insert_L.
  apply elem_of_dom_2 in Hsub. set_solver.
Qed.

Lemma assign_scen_dom nd ndScenList TermRanks_i k retval s retval' :
  assign_scen nd ndScenList TermRanks_i k retval s = Ok retval' →
  dom retval' = dom retval.
Proof.
  unfold assign_scen. intros H. repeat bind_inv H.
  apply set_rank_dom in H. apply set_rank_dom in E2. congruence.
Qed.

Lemma assign_terminal_dom names TermRanks retval ms i nd retval' ms' :
  assign_terminal names TermRanks (retval, ms) (i, nd) = Ok (retval', ms') →
  dom retval' = {[name nd]} ∪ dom retval ∧ length ms' = S (length ms).
Proof.
  unfold assign_terminal. intros H. repeat bind_inv H. injection H as <- <-.
  split; [|rewrite length_app; cbn; lia].
  rewrite <-(dom_insert_L retval (name nd) ∅).
  match goal with E : foldM _ _ _ = Ok _ |- _ => revert E end.
  apply (foldM_invariant (λ rv, dom rv = dom (<[name nd := ∅]> retval)));
    [|done].
  intros rv [k slist] rv' _ Hrv.
  apply (foldM_invariant (λ rv, dom rv = dom (<[name nd := ∅]> retval))); [|done].
  intros rv1 s rv1' _ Hrv1 Hs%assign_scen_dom. congruence.
Qed.

Lemma assign_terminals_dom names TermRanks (l : list (Z * _TreeNode))
    retval ms retval' ms' :
  foldM (assign_terminal names TermRanks) (retval, ms) l = Ok (retval', ms') →
  dom retval' = dom retval ∪ list_to_set (name <$> l.*2) ∧
  length ms' = (length ms + length l)%nat.
Proof.
  revert retval ms. induction l as [|[i nd] l IH]; intros retval ms H.
  - injection H as <- <-. cbn. split; [set_solver|lia].
  - cbn [foldM] in H. bind_inv H. destruct a as [retval1 ms1].
    apply assign_terminal_dom in E as [Hd Hl]. apply IH in H as [Hd' Hl'].
    rewrite Hd', Hd, Hl', Hl. cbn. split; [set_solver|lia].
Qed.

Lemma assign_inner_dom bfs names retval (FirstRank : gmap string Z) nd
    retval' FirstRank' :
  assign_inner bfs names (retval, FirstRank) nd = Ok (retval', FirstRank') →
  let new : gset string :=
    if negb (stage nd =? len bfs - 1) && negb (String.eqb (name nd) "ROOT")
    then {[name nd]} else ∅ in
  dom retval' = dom retval ∪ new ∧ dom FirstRank' = dom FirstRank ∪ new.
Proof.
  unfold assign_inner.
  destruct (negb (stage nd =? len bfs - 1) && negb (String.eqb (name nd) "ROOT"));
    [|intros [= <- <-]; set_solver].
  intros H. repeat bind_inv H. injection H as <- <-. cbn zeta.
  rewrite dom_insert_L. split; [|set_solver].
  match goal with E : foldM _ _ ?l = Ok ?rv |- _ =>
    assert (dom rv = dom (<[name nd := ∅]> retval)) as ->;
      [revert E|rewrite dom_insert_L; set_solver]
  end.
  apply (foldM_invariant (λ rv, dom rv = dom (<[name nd := ∅]> retval)));
    [|done].
  intros rv s rv' _ Hrv Hs. repeat bind_inv Hs. apply set_rank_dom in Hs. congruence.
Qed.

Lemma assign_inners_dom bfs names l retval (FirstRank : gmap string Z)
    retval' FirstRank' :
  foldM (assign_inner bfs names) (retval, FirstRank) l = Ok (retval', FirstRank') →
  let new : gset string :=
    list_to_set (name <$> filter (λ nd, stage nd ≠ len bfs - 1 ∧ name nd ≠ "ROOT") l) in
  dom retval' = dom retval ∪ new ∧ dom FirstRank' = dom FirstRank ∪ new.
Proof.
  revert retval FirstRank. induction l as [|nd l IH]; intros retval FirstRank H.
  - injection H as <- <-. cbn. set_solver.
  - cbn [foldM] in H. bind_inv H. destruct a as [retval1 FirstRank1].
    apply assign_inner_dom in E as [Hd Hf]. apply IH in H as [Hd' Hf'].
    cbn zeta in *. rewrite Hd', Hf', Hd, Hf, filter_cons.
    destruct (Z.eqb_spec (stage nd) (len bfs - 1)) as [Hs|Hs];
      [rewrite decide_False by naive_solver; cbn; set_solver|].
    destruct (String.eqb_spec (name nd) "ROOT") as [Hn|Hn];
      [rewrite decide_False by naive_solver; cbn; set_solver|].
    rewrite decide_True by done. cbn. set_solver.
Qed.

Lemma first_ranks_names avg (TermNodes : list _TreeNode) firsts :
  mapM (λ '(i, nd), r ← int_scaled i avg; Ok (name nd, r)) (enumerate TermNodes)
    = Ok firsts →
  firsts.*1 = name <$> TermNodes.
Proof.
  intros Hm%mapM_Ok_inv.
  assert (firsts.*1 = name <$> (enumerate TermNodes).*2) as ->;
    [|by rewrite enumerate_snd].
  induction Hm as [|[i nd] y l k Hy _ IH]; [done|].
  cbn. rewrite IH. f_equal.
  destruct (int_scaled i avg); [|done]. by injection Hy as <-.
Qed.

Lemma dom_foldl_pairs (l : list (string * Z)) (m0 : gmap string Z) :
  dom (foldl (λ m '(n, r), <[n := r]> m) m0 l) = dom m0 ∪ list_to_set l.*1.
Proof.
  revert m0. induction l as [|[n r] l IH]; intros m0; [cbn; set_solver|].
  cbn [foldl]. rewrite IH, dom_insert_L. cbn. set_solver.
Qed.

Lemma dom_foldl_names {V} (l : list _TreeNode) (v : V) (m0 : gmap string V) :
  dom (foldl (λ m nd, <[name nd := v]> m) m0 l) = dom m0 ∪ list_to_set (name <$> l).
Proof.
  revert m0. induction l as [|nd l IH]; intros m0; [cbn; set_solver|].
  cbn [foldl]. rewrite IH, dom_insert_L. cbn. set_solver.
Qed.

(** X13.  Whenever [scen_names_to_ranks] returns on a constructed tree, the
    dictionary it returns has exactly the names of the nodes of the tree
    as keys.  With one process the two other results are [None]; with
    more, there is one list of slices per terminal node, and the first
    ranks have the names of the nodes as keys as well. *)
Theorem assignment_keys prod bfs names tree n_proc myrank retval ms fr :
  _ScenTree__init__ prod bfs names = Ok tree →
  scen_names_to_ranks tree n_proc myrank = Ok (retval, ms, fr) →
  dom retval = list_to_set (name <$> nonleaves tree) ∧
  (n_proc = 1 → ms = None ∧ fr = None) ∧
  (n_proc ≠ 1 →
     ∃ masterslices FirstRank,
       ms = Some masterslices ∧ fr = Some FirstRank ∧
       len masterslices = len (NonLeafTerminals tree) ∧
       dom FirstRank = list_to_set (name <$> nonleaves tree)).
Proof.
  intros Htree Hrun.
  destruct (_ScenTree__init___fields _ _ _ _ Htree)
    as (_ & _ & HSN & HBF & Hroot & Hname & Hstage & _ & _ & Hnl & Hterm).
  unfold scen_names_to_ranks in Hrun.
  destruct (Z.eqb_spec n_proc 1) as [->|Hne].
  - injection Hrun as <- <- <-. split; [|split; [done|done]].
    rewrite dom_foldl_names, dom_empty_L. set_solver.
  - bind_inv Hrun.
    destruct (float_lt_int a 1); [done|]. cbn [mbind result_bind] in Hrun.
    repeat bind_inv Hrun.
    match goal with
    | E : foldM (assign_terminal _ _) _ _ = Ok ?p |- _ =>
        destruct p as [retval1 ms1]; rename E into Hterminals
    end.
    bind_inv Hrun.
    match goal with
    | E : foldM (assign_inner _ _) _ _ = Ok ?p |- _ =>
        destruct p as [retval2 FirstRank2]; rename E into Hinner
    end.
    match goal with
    | E : mapM _ (enumerate _) = Ok _ |- _ => rename E into Hfirsts
    end.
    injection Hrun as <- <- <-.
    apply assign_terminals_dom in Hterminals as [Hd1 Hl1].
    apply assign_inners_dom in Hinner as [Hd2 Hf2]. cbn zeta in Hd2, Hf2.
    rewrite enumerate_snd in Hd1.
    rewrite !dom_insert_L, ?dom_foldl_pairs, ?dom_empty_L in *.
    rewrite (first_ranks_names _ _ _ Hfirsts) in Hf2.
    assert (length (enumerate (NonLeafTerminals tree))
            = length (NonLeafTerminals tree)) as Hlen
      by (by rewrite <-(enumerate_snd (NonLeafTerminals tree)) at 2;
          rewrite length_fmap).
    assert (({[ "ROOT" ]} ∪ list_to_set (name <$> NonLeafTerminals tree) ∪
             list_to_set (name <$> filter
               (λ nd, stage nd ≠ len (BFs tree) - 1 ∧ name nd ≠ "ROOT")
               (nonleaves tree)) : gset string)
            = list_to_set (name <$> nonleaves tree)) as Hkeys.
    { rewrite Hterm, HBF. apply set_eq. intros k.
      rewrite !elem_of_union, elem_of_singleton, !elem_of_list_to_set,
        !list_elem_of_fmap.
      setoid_rewrite list_elem_of_filter. split.
      - intros [[->|(t & -> & _ & Ht)]|(t & -> & _ & Ht)]; [|by exists t..].
        exists (rootnode tree). split; [done|]. rewrite Hnl. apply nonleaves_self.
      - intros (t & -> & Ht).
        destruct (decide (stage t = len bfs - 1)); [left; right; by exists t|].
        destruct (decide (name t = "ROOT")); [by left; left|].
        right. by exists t. }
    split; [|split; [done|]].
    + rewrite Hd2, Hd1, <-Hkeys. set_solver.
    + intros _. exists ms1, FirstRank2. split; [done|]. split; [done|].
      split; [unfold len; rewrite Hl1, Hlen; done|].
      rewrite Hf2, <-Hkeys. set_solver.
Qed.

Lemma assignment_keys_witness :
  ∃ retval ms fr,
    scen_names_to_ranks demo_tree 2 0 = Ok (retval, ms, fr) ∧
    dom retval = list_to_set (name <$> nonleaves demo_tree).
Proof.
  destruct (scen_names_to_ranks demo_tree 2 0) as [[[retval ms] fr]|] eqn:Hrun;
    [|by vm_compute in Hrun].
  exists retval, ms, fr. split; [reflexivity|].
  apply (assignment_keys product [2; 3] (ID_names 6) demo_tree 2 0 retval ms fr
           demo_tree_ok Hrun).
Defined.
